(** * LatticeQMC: determinantal lattice quantum Monte Carlo for the Hubbard model

    A shallow embedding of [src/lqmc/lqmc.py], [src/mc_fast.py] and
    [src/Hamiltonian.py].  NumPy's float64 arithmetic is idealised as exact
    arithmetic on the reals: [np.exp] is [exp], [np.linalg.det] is the
    determinant and [np.linalg.inv] the inverse, which fails on a singular
    matrix.  Python objects that the code mutates through several names
    (the [Configuration] instances, the [exp_v] buffers of the solver) live
    in an explicit store and are handled through references. *)

From Stdlib Require Import Reals Lra Lia ZArith List String.
From stdpp Require Import base list.
Import ListNotations.

Open Scope R_scope.

(** ** The NumPy operations the sources use *)

Module NumPy.

Definition vec := list R.
Definition mat := list (list R).

(** [np.zeros((n, m))] and [np.eye(n)]. *)
Definition zeros (n m : nat) : mat := repeat (repeat 0 m) n.

Definition eye (n : nat) : mat :=
  map (fun i => map (fun j => if Nat.eqb i j then 1 else 0) (seq 0 n)) (seq 0 n).

(** Elementwise sums, differences and scalar multiples. *)
Definition vadd (u v : vec) : vec := map (fun p => fst p + snd p) (combine u v).
Definition vsub (u v : vec) : vec := map (fun p => fst p - snd p) (combine u v).
Definition vscale (a : R) (u : vec) : vec := map (Rmult a) u.
Definition vdiv (u : vec) (a : R) : vec := map (fun x => x / a) u.

Definition add (A B : mat) : mat := map (fun p => vadd (fst p) (snd p)) (combine A B).
Definition sub (A B : mat) : mat := map (fun p => vsub (fst p) (snd p)) (combine A B).
Definition scale (a : R) (A : mat) : mat := map (vscale a) A.
Definition div (A : mat) (a : R) : mat := map (fun r => vdiv r a) A.

(** [A[i, :]], [A[:, j]] and [A[i, j]]. *)
Definition row (i : nat) (A : mat) : vec := nth i A [].
Definition col (j : nat) (A : mat) : vec := map (fun r => nth j r 0) A.
Definition entry (i j : nat) (A : mat) : R := nth j (row i A) 0.

Definition ncols (A : mat) : nat :=
  match A with [] => O | r :: _ => length r end.

(** [np.dot] on two matrices. *)
Definition vdot (u v : vec) : R :=
  fold_right Rplus 0 (map (fun p => fst p * snd p) (combine u v)).

Definition dot (A B : mat) : mat :=
  map (fun r => map (fun j => vdot r (col j B)) (seq 0 (ncols B))) A.

(** [np.outer(b, c)]. *)
Definition outer (b c : vec) : mat := map (fun x => map (Rmult x) c) b.

(** [np.fill_diagonal(A, v)]: entry [(j, j)] becomes [v[j]], the rest of
    [A] is kept. *)
Definition fill_diagonal (A : mat) (v : vec) : mat :=
  imap (fun j r => <[j := nth j v 0]> r) A.

(** [np.linalg.det], by expansion along the first row. *)
Definition sign (j : nat) : R := if Nat.even j then 1 else -1.

Fixpoint det_rec (n : nat) (A : mat) : R :=
  match n, A with
  | S n', r :: rest =>
      fold_right Rplus 0
        (map (fun j => sign j * nth j r 0 * det_rec n' (map (delete j) rest))
             (seq 0 (S n')))
  | _, _ => 1
  end.

Definition det (A : mat) : R := det_rec (length A) A.

(** [np.linalg.inv]: the transposed cofactor matrix over the determinant;
    [None] stands for the [LinAlgError] raised on a singular matrix. *)
Definition minor (i j : nat) (A : mat) : mat := map (delete j) (delete i A).

Definition cofactor (i j : nat) (A : mat) : R := sign (i + j) * det (minor i j A).

Definition adjugate (A : mat) : mat :=
  let n := length A in
  map (fun i => map (fun j => cofactor j i A) (seq 0 n)) (seq 0 n).

Definition inv (A : mat) : option mat :=
  if Req_dec_T (det A) 0 then None else Some (div (adjugate A) (det A)).

(** [np.arccosh]: below [1] the result is nan, for which [None] stands. *)
Definition arccosh (x : R) : option R :=
  if Rlt_dec x 1 then None else Some (ln (x + sqrt (x * x - 1))).

End NumPy.

Import NumPy.

(** ** The collaborators of the solver *)

(** Modelled from the spec: the [Configuration] class of the [lqmc] package
    is not part of the sources.  Following the spec's FieldConfiguration it
    owns the [n_sites] by [time_steps] array of Hubbard-Stratonovich field
    values [+1] and [-1], reads a value and a column, flips one entry in
    place ([update], a negation) and snapshots itself ([copy], an
    independent object). *)
Module Configuration.

Record t := mk {
  n_sites : nat;
  time_steps : nat;
  array : list (list Z)
}.

(** [config.n_t], the name [mc_fast.py] uses for the number of slices. *)
Definition n_t (c : t) : nat := time_steps c.

(** [config[i, l]]; [None] is the [IndexError]. *)
Definition get (c : t) (i l : nat) : option Z :=
  match array c !! i with
  | Some r => r !! l
  | None => None
  end.

(** [config[:, l]]. *)
Definition column (c : t) (l : nat) : option (list Z) :=
  if (l <? time_steps c)%nat
  then Some (map (fun r => nth l r 0%Z) (array c))
  else None.

(** The array after [config.update(i, l)]. *)
Definition flipped (c : t) (i l : nat) : t :=
  mk (n_sites c) (time_steps c) (alter (alter Z.opp l) i (array c)).

End Configuration.

(** Modelled from the spec: the [HubbardModel] class of the [lqmc] package
    is not part of the sources.  The solver reads its interaction [u], its
    number of sites and the matrix that [ham_kinetic()] returns. *)
Module HubbardModel.

Record t := mk {
  u : R;
  n_sites : nat;
  ham_kinetic : mat
}.

End HubbardModel.

(** ** The object store *)

(** The two diagonal work buffers of a solver.  [_exp_v] hands out the
    buffer itself, not a copy, so its result is a name of the buffer. *)
Inductive buffer := self_exp_v | self_exp_v_inv.

Record LatticeQMC := mkLatticeQMC {
  model : HubbardModel.t;
  dtau : R;
  time_steps : nat;
  warm_sweeps : nat;
  meas_sweeps : nat;
  n_sites : nat;
  config : nat;               (* a reference into the store of configurations *)
  det_mode : bool;
  status : string;
  it : nat;
  ham_kin : mat;
  lamb : R;
  exp_k : mat;
  exp_v : mat;
  exp_k_inv : mat;
  exp_v_inv : mat
}.

Definition set_config (c : nat) (s : LatticeQMC) : LatticeQMC :=
  mkLatticeQMC (model s) (dtau s) (time_steps s) (warm_sweeps s) (meas_sweeps s)
    (n_sites s) c (det_mode s) (status s) (it s) (ham_kin s) (lamb s)
    (exp_k s) (exp_v s) (exp_k_inv s) (exp_v_inv s).

Definition set_status (x : string) (s : LatticeQMC) : LatticeQMC :=
  mkLatticeQMC (model s) (dtau s) (time_steps s) (warm_sweeps s) (meas_sweeps s)
    (n_sites s) (config s) (det_mode s) x (it s) (ham_kin s) (lamb s)
    (exp_k s) (exp_v s) (exp_k_inv s) (exp_v_inv s).

Definition set_it (x : nat) (s : LatticeQMC) : LatticeQMC :=
  mkLatticeQMC (model s) (dtau s) (time_steps s) (warm_sweeps s) (meas_sweeps s)
    (n_sites s) (config s) (det_mode s) (status s) x (ham_kin s) (lamb s)
    (exp_k s) (exp_v s) (exp_k_inv s) (exp_v_inv s).

Definition set_exp_v (x : mat) (s : LatticeQMC) : LatticeQMC :=
  mkLatticeQMC (model s) (dtau s) (time_steps s) (warm_sweeps s) (meas_sweeps s)
    (n_sites s) (config s) (det_mode s) (status s) (it s) (ham_kin s) (lamb s)
    (exp_k s) x (exp_k_inv s) (exp_v_inv s).

Definition set_exp_v_inv (x : mat) (s : LatticeQMC) : LatticeQMC :=
  mkLatticeQMC (model s) (dtau s) (time_steps s) (warm_sweeps s) (meas_sweeps s)
    (n_sites s) (config s) (det_mode s) (status s) (it s) (ham_kin s) (lamb s)
    (exp_k s) (exp_v s) (exp_k_inv s) x.

(** The world a method runs in: the solver object, the [Configuration]
    objects allocated so far, and the generator behind [np.random.rand],
    a fixed sequence of draws of which [drawn] have been consumed. *)
Record world := mkWorld {
  self : LatticeQMC;
  heap : list Configuration.t;
  draws : nat -> R;
  drawn : nat
}.

(** Methods are state transformers that may raise. *)
Definition M (A : Type) : Type := world -> option (A * world).

Definition ret {A} (a : A) : M A := fun w => Some (a, w).

Definition bind {A B} (c : M A) (k : A -> M B) : M B :=
  fun w => match c w with
           | Some (a, w') => k a w'
           | None => None
           end.

Definition raise {A} : M A := fun _ => None.

Notation "x <- c ;; k" := (bind c (fun x => k))
  (at level 100, c at next level, k at level 200, right associativity).

Definition lift {A} (o : option A) : M A :=
  match o with Some a => ret a | None => raise end.

(** A [for] loop threading the variables it assigns. *)
Fixpoint for_each {A S} (xs : list A) (body : A -> S -> M S) (s : S) : M S :=
  match xs with
  | [] => ret s
  | x :: xs' => s' <- body x s ;; for_each xs' body s'
  end.

Definition get_self {A} (f : LatticeQMC -> A) : M A :=
  fun w => Some (f (self w), w).

Definition set_self (f : LatticeQMC -> LatticeQMC) : M unit :=
  fun w => Some (tt, mkWorld (f (self w)) (heap w) (draws w) (drawn w)).

(** [self.config], dereferenced. *)
Definition the_config : M Configuration.t :=
  fun w => match heap w !! config (self w) with
           | Some c => Some (c, w)
           | None => None
           end.

(** [self.config.update(i, l)]: the object [self.config] names is changed
    in place, whatever other names it has. *)
Definition config_update (i l : nat) : M unit :=
  fun w => Some (tt, mkWorld (self w)
                       (alter (fun c => Configuration.flipped c i l) (config (self w)) (heap w))
                       (draws w) (drawn w)).

(** [self.config.copy()]: a new object with the same content; the result
    is its reference. *)
Definition config_copy : M nat :=
  fun w => match heap w !! config (self w) with
           | Some c => Some (length (heap w),
                             mkWorld (self w) (heap w ++ [c]) (draws w) (drawn w))
           | None => None
           end.

(** [np.random.rand()]. *)
Definition random_rand : M R :=
  fun w => Some (draws w (drawn w),
                 mkWorld (self w) (heap w) (draws w) (S (drawn w))).

(** The content of a work buffer at the time of the read. *)
Definition read (b : buffer) : M mat :=
  get_self (match b with self_exp_v => exp_v | self_exp_v_inv => exp_v_inv end).

(** ** [lqmc.py]: the solver *)

(** What a call of the constructor comes to.  It raises; or it returns a
    solver whose coupling [lamb] is nan, a solver that the state of this
    model, whose numbers are reals, does not hold; or it returns the
    solver of the world [w]. *)
Inductive construction :=
| Raised
| NotANumber
| Built (w : world).

(** [self.lamb = np.arccosh(np.exp(self.model.u * self.dtau / 2.)) if
    self.model.u else 1]; [None] is nan. *)
Definition coupling (u dtau : R) : option R :=
  if Req_dec_T u 0 then Some 1 else arccosh (exp (u * dtau / 2)).

(** [__init__]: [expm] is SciPy's matrix exponential and [array] the field
    values the new [Configuration] starts with.  [beta / time_steps] raises
    for zero time steps; [np.arccosh] does not raise where it is not
    defined. *)
Definition __init__ (expm : mat -> mat) (model : HubbardModel.t) (beta : R)
    (time_steps warmup sweeps : nat) (det_mode : bool)
    (array : list (list Z)) (draws : nat -> R) : construction :=
  if (time_steps =? 0)%nat then Raised else
  let dtau := beta / INR time_steps in
  let n_sites := HubbardModel.n_sites model in
  let ham_kin := HubbardModel.ham_kinetic model in
  match coupling (HubbardModel.u model) dtau with
  | None => NotANumber
  | Some lamb =>
      Built (mkWorld
        (mkLatticeQMC model dtau time_steps warmup sweeps n_sites
           O det_mode EmptyString O
           ham_kin
           lamb
           (expm (scale (1 * dtau) ham_kin))
           (zeros n_sites n_sites)
           (expm (scale (1 * dtau) ham_kin))
           (zeros n_sites n_sites))
        [Configuration.mk n_sites time_steps array]
        draws O)
  end.

(** [for sweep, i, l in self.loop_generator(sweeps): body]. *)
Definition loop_generator {S} (sweeps : nat)
    (body : nat -> nat -> nat -> S -> M S) (s : S) : M S :=
  for_each (seq 0 sweeps) (fun sweep s =>
    _ <- set_self (set_it sweep) ;;
    n <- get_self (fun o => HubbardModel.n_sites (model o)) ;;
    c <- the_config ;;
    for_each (list_prod (seq 0 n) (seq 0 (Configuration.time_steps c)))
      (fun il s => body sweep (fst il) (snd il) s) s) s.

(** The value of [inv] when a call of [_exp_v] leaves it out. *)
Definition inv_default : bool := true.

Definition _exp_v (l : nat) (sigma : Z) (inv : bool) : M buffer :=
  c <- the_config ;;
  column <- lift (Configuration.column c l) ;;
  lam <- get_self lamb ;;
  if inv then
    _ <- set_self (fun o => set_exp_v_inv
           (fill_diagonal (exp_v_inv o)
              (map (fun h => exp (IZR (-1 * sigma) * lam * IZR h)) column)) o) ;;
    ret self_exp_v_inv
  else
    _ <- set_self (fun o => set_exp_v
           (fill_diagonal (exp_v o)
              (map (fun h => exp (IZR (1 * sigma) * lam * IZR h)) column)) o) ;;
    ret self_exp_v.

(** The body shared by the loops of [_m] and [_m_cyclic]. *)
Definition times_b (sigma : Z) (l : nat) (b_prod : mat) : M mat :=
  exp_v <- _exp_v l sigma inv_default ;;
  e <- read exp_v ;;
  k <- get_self exp_k ;;
  let b := dot k e in
  ret (dot b_prod b).

Definition _m (sigma : Z) : M mat :=
  c <- the_config ;;
  let lmax := (Configuration.time_steps c - 1)%nat in
  exp_v <- _exp_v lmax sigma inv_default ;;
  e <- read exp_v ;;
  k <- get_self exp_k ;;
  let b := dot e k in
  b_prod <- for_each (rev (seq 0 lmax)) (times_b sigma) b ;;
  n <- get_self n_sites ;;
  ret (add (eye n) b_prod).

Definition _m_cyclic (sigma : Z) (l : nat) : M mat :=
  c <- the_config ;;
  let lmax := Configuration.time_steps c in
  exp_v <- _exp_v l sigma inv_default ;;
  e <- read exp_v ;;
  k <- get_self exp_k ;;
  let b := dot e k in
  b_prod <- for_each (rev (seq 0 l)) (times_b sigma) b ;;
  b_prod <- for_each (rev (seq (l + 1) (lmax - (l + 1)))) (times_b sigma) b_prod ;;
  n <- get_self n_sites ;;
  ret (add (eye n) b_prod).

Definition _gf_tau (g_beta : mat) (sigma : Z) : M (list mat) :=
  ts <- get_self time_steps ;;
  n <- get_self n_sites ;;
  let g := repeat (zeros n n) ts in
  if (ts =? 0)%nat then raise else
  let g := <[O := g_beta]> g in
  g <- for_each (seq 1 (ts - 1)) (fun l g =>
         exp_v <- _exp_v l sigma inv_default ;;
         exp_v_inv <- _exp_v l sigma true ;;
         e <- read exp_v ;;
         k <- get_self exp_k ;;
         let b := dot e k in
         e_inv <- read exp_v_inv ;;
         k_inv <- get_self exp_k_inv ;;
         let b_inv := dot e_inv k_inv in
         prev <- lift (g !! (l - 1)%nat) ;;
         ret (<[l := dot (dot b_inv prev) b]> g)) g ;;
  ret (rev g).

Definition _compute_m : M (mat * mat) :=
  m_up <- _m 1 ;;
  m_dn <- _m (-1) ;;
  ret (m_up, m_dn).

Definition _compute_m_cyclic (l : nat) : M (mat * mat) :=
  m_up <- _m_cyclic 1 l ;;
  m_dn <- _m_cyclic (-1) l ;;
  ret (m_up, m_dn).

Definition _compute_gf_tau (g_beta_up g_beta_dn : mat) : M (list mat * list mat) :=
  g_tau_up <- _gf_tau g_beta_up 1 ;;
  g_tau_dn <- _gf_tau g_beta_dn (-1) ;;
  ret (g_tau_up, g_tau_dn).

(** Arrays of one matrix per time slice, and the arrays a Python name may
    hold that starts as the integer [0] and becomes an array at the first
    [+=]. *)
Definition tensor := list mat.

Definition tadd (s t : tensor) : tensor := map (fun p => add (fst p) (snd p)) (combine s t).

Inductive ndarray :=
| scalar (x : R)
| matrix (m : mat)
| slices (t : tensor).

(** [a + t] and [a + m] with NumPy's broadcasting. *)
Definition nd_add_slices (a : ndarray) (t : tensor) : ndarray :=
  match a with
  | scalar x => slices (map (map (map (Rplus x))) t)
  | matrix m => slices (map (add m) t)
  | slices s => slices (tadd s t)
  end.

Definition nd_add_matrix (a : ndarray) (m : mat) : ndarray :=
  match a with
  | scalar x => matrix (map (map (Rplus x)) m)
  | matrix m' => matrix (add m' m)
  | slices s => slices (map (fun m' => add m' m) s)
  end.

Definition nd_div (a : ndarray) (x : R) : ndarray :=
  match a with
  | scalar y => scalar (y / x)
  | matrix m => matrix (div m x)
  | slices s => slices (map (fun m => div m x) s)
  end.

Definition nd_mul (a : ndarray) (x : R) : ndarray :=
  match a with
  | scalar y => scalar (y * x)
  | matrix m => matrix (map (map (fun y => y * x)) m)
  | slices s => slices (map (map (map (fun y => y * x))) s)
  end.

(** The statistical weight [np.linalg.det(m_up) * np.linalg.det(m_dn)] of
    the current configuration. *)
Definition weight : M R :=
  m <- _compute_m ;;
  ret (det (fst m) * det (snd m)).

(** One pass through the body of the loop of [warmup_loop_det]; the loop
    assigns [old] and [old_config]. *)
Definition warmup_det_step (i l : nat) (vars : R * nat) : M (R * nat) :=
  let old := fst vars in
  let old_config := snd vars in
  _ <- config_update i l ;;
  new <- weight ;;
  let ratio := new / old in
  r <- random_rand ;;
  if Rlt_dec r ratio then
    old_config <- config_copy ;;
    ret (new, old_config)
  else
    _ <- set_self (set_config old_config) ;;
    ret (old, old_config).

Definition warmup_loop_det : M unit :=
  _ <- set_self (set_status "Warmup") ;;
  old <- weight ;;
  old_config <- config_copy ;;
  sweeps <- get_self warm_sweeps ;;
  _ <- loop_generator sweeps (fun sweep => warmup_det_step) (old, old_config) ;;
  ret tt.

(** The ratio that the first pass of [warmup_loop_det] computes for a flip
    at [(i, l)]: the weight of the flipped configuration, from recomputed
    matrices, over the weight of the current one. *)
Definition det_ratio (i l : nat) : M R :=
  old <- weight ;;
  _ <- config_update i l ;;
  new <- weight ;;
  ret (new / old).

(** The names the loop of [measure_loop_det] assigns. *)
Record det_vars := mkDetVars {
  dv_old : R;
  dv_old_config : nat;
  dv_g_up : tensor;
  dv_g_dn : tensor;
  dv_g_total_up : tensor;
  dv_g_total_dn : tensor;
  dv_number : nat
}.

(** One pass through the body of the innermost loop of
    [measure_loop_det]. *)
Definition measure_det_step (l i : nat) (v : det_vars) : M det_vars :=
  _ <- config_update i l ;;
  m <- _compute_m_cyclic l ;;
  let new := det (fst m) * det (snd m) in
  let ratio := new / dv_old v in
  r <- random_rand ;;
  v <- (if Rlt_dec r ratio then
          inv_up <- lift (inv (fst m)) ;;
          inv_dn <- lift (inv (snd m)) ;;
          old_config <- config_copy ;;
          ret (mkDetVars new old_config
                 (<[l := inv_up]> (dv_g_up v)) (<[l := inv_dn]> (dv_g_dn v))
                 (dv_g_total_up v) (dv_g_total_dn v) (dv_number v))
        else
          _ <- config_update i l ;;
          ret v) ;;
  ret (mkDetVars (dv_old v) (dv_old_config v) (dv_g_up v) (dv_g_dn v)
         (alter (fun t => add t (nth l (dv_g_up v) [])) l (dv_g_total_up v))
         (alter (fun t => add t (nth l (dv_g_dn v) [])) l (dv_g_total_dn v))
         (S (dv_number v))).

(** [measure_loop_det] up to the end of its loops: the names the loops
    leave behind. *)
Definition measure_det_sweeps : M det_vars :=
  _ <- set_self (set_status "Measurement") ;;
  m <- _compute_m ;;
  let old := det (fst m) * det (snd m) in
  old_config <- config_copy ;;
  ts <- get_self time_steps ;;
  n <- get_self n_sites ;;
  let zero := repeat (zeros n n) ts in
  inv_up <- lift (inv (fst m)) ;;
  if (ts =? 0)%nat then raise else
  let g_up := <[(ts - 1)%nat := inv_up]> zero in
  inv_dn <- lift (inv (snd m)) ;;
  let g_dn := <[(ts - 1)%nat := inv_dn]> zero in
  sweeps <- get_self meas_sweeps ;;
  for_each (seq 0 sweeps) (fun sweep v =>
    ts <- get_self time_steps ;;
    for_each (rev (seq 0 ts)) (fun l v =>
      n <- get_self n_sites ;;
      for_each (seq 0 n) (measure_det_step l) v) v)
    (mkDetVars old old_config g_up g_dn zero zero O).

Definition measure_loop_det : M (ndarray * ndarray) :=
  v <- measure_det_sweeps ;;
  ts <- get_self time_steps ;;
  let g_total_up := nd_mul (nd_div (slices (dv_g_total_up v)) (INR (dv_number v))) (INR ts) in
  let g_total_dn := nd_mul (nd_div (slices (dv_g_total_dn v)) (INR (dv_number v))) (INR ts) in
  ret (g_total_up, g_total_dn).

(** The acceptance ratio of the fast loops for a flip at [(i, l)], with
    the [arg] it is computed from. *)
Definition local_ratio (i l : nat) : M (R * R) :=
  m <- _compute_m ;;
  c <- the_config ;;
  h <- lift (Configuration.get c i l) ;;
  lam <- get_self lamb ;;
  let arg := 2 * lam * IZR h in
  inv_up <- lift (inv (fst m)) ;;
  let d_up := 1 + (1 - entry i i inv_up) * (exp (- arg) - 1) in
  inv_dn <- lift (inv (snd m)) ;;
  let d_dn := 1 + (1 - entry i i inv_dn) * (exp arg - 1) in
  ret (arg, d_up * d_dn).

Definition warmup_loop : M unit :=
  _ <- set_self (set_status "Warmup") ;;
  sweeps <- get_self warm_sweeps ;;
  loop_generator sweeps (fun sweep i l (_ : unit) =>
    ar <- local_ratio i l ;;
    r <- random_rand ;;
    if Rlt_dec r (snd ar) then config_update i l else ret tt) tt.

(** The rank-one correction of one Green's function on acceptance:
    [delta] is [np.exp(-arg) - 1] for spin up and [np.exp(+arg) - 1] for
    spin down. *)
Definition rank_one_update (n i : nat) (delta : R) (g_beta : mat) : mat :=
  let c := repeat 0 n in
  let c := <[i := delta]> c in
  let c := vadd (vscale (-1 * delta) (row i g_beta)) c in
  let b := vdiv (col i g_beta) (1 + nth i c 0) in
  sub g_beta (outer b c).

(** The names the loop of [measure_loop] assigns. *)
Record fast_vars := mkFastVars {
  fv_gf_up : ndarray;
  fv_gf_dn : ndarray;
  fv_g_beta_up : mat;
  fv_g_beta_dn : mat;
  fv_g_tmp_up : tensor;
  fv_g_tmp_dn : tensor;
  fv_number : nat
}.

Definition measure_step (n : nat) (i l : nat) (v : fast_vars) : M fast_vars :=
  ar <- local_ratio i l ;;
  let arg := fst ar in
  r <- random_rand ;;
  v <- (if Rlt_dec r (snd ar) then
          let g_beta_up := rank_one_update n i (exp (- arg) - 1) (fv_g_beta_up v) in
          let g_beta_dn := rank_one_update n i (exp arg - 1) (fv_g_beta_dn v) in
          g_tmp <- _compute_gf_tau g_beta_up g_beta_dn ;;
          _ <- config_update i l ;;
          ret (mkFastVars (fv_gf_up v) (fv_gf_dn v) g_beta_up g_beta_dn
                 (fst g_tmp) (snd g_tmp) (fv_number v))
        else ret v) ;;
  ret (mkFastVars (nd_add_slices (fv_gf_up v) (fv_g_tmp_up v))
         (nd_add_slices (fv_gf_dn v) (fv_g_tmp_dn v))
         (fv_g_beta_up v) (fv_g_beta_dn v) (fv_g_tmp_up v) (fv_g_tmp_dn v)
         (S (fv_number v))).

(** [measure_loop] up to the end of its loop. *)
Definition measure_sweeps : M fast_vars :=
  _ <- set_self (set_status "Measurement") ;;
  n <- get_self (fun o => HubbardModel.n_sites (model o)) ;;
  m <- _compute_m ;;
  g_beta_up <- lift (inv (fst m)) ;;
  g_beta_dn <- lift (inv (snd m)) ;;
  g_tmp <- _compute_gf_tau g_beta_up g_beta_dn ;;
  sweeps <- get_self meas_sweeps ;;
  loop_generator sweeps (fun sweep => measure_step n)
    (mkFastVars (scalar 0) (scalar 0) g_beta_up g_beta_dn
       (fst g_tmp) (snd g_tmp) O).

Definition measure_loop : M (ndarray * ndarray) :=
  v <- measure_sweeps ;;
  ret (nd_div (fv_gf_up v) (INR (fv_number v)),
       nd_div (fv_gf_dn v) (INR (fv_number v))).

Definition run_lqmc : M (ndarray * ndarray) :=
  det <- get_self det_mode ;;
  if det then
    _ <- warmup_loop_det ;;
    measure_loop_det
  else
    _ <- warmup_loop ;;
    measure_loop.

(** ** [mc_fast.py]: the procedural variant *)

Module mc_fast.

(** The body of the loop of [compute_m]; [v] is the work matrix whose
    diagonal every slice overwrites. *)
Definition times_b (expm : mat -> mat) (exp_k : mat) (config : Configuration.t)
    (lamb : R) (sigma : Z) (l : nat) (acc : option (mat * mat)) : option (mat * mat) :=
  vb ← acc;
  column ← Configuration.column config l;
  let v := fill_diagonal (fst vb) (map IZR column) in
  let exp_v := expm (scale (IZR sigma * lamb) v) in
  let b := dot exp_k exp_v in
  Some (v, dot (snd vb) b).

Definition compute_m (expm : mat -> mat) (ham_kin : mat) (config : Configuration.t)
    (lamb dtau : R) (sigma : Z) : option mat :=
  let n := length ham_kin in
  let exp_k := expm (scale dtau ham_kin) in
  let v := zeros n n in
  let lmax := (Configuration.n_t config - 1)%nat in
  column ← Configuration.column config lmax;
  let v := fill_diagonal v (map IZR column) in
  let exp_v := expm (scale (IZR sigma * lamb) v) in
  let b := dot exp_k exp_v in
  vb ← fold_left (fun acc l => times_b expm exp_k config lamb sigma l acc)
         (rev (seq 1 (lmax - 1))) (Some (v, b));
  Some (add (eye n) (snd vb)).

(** The names the loop of [measure_gf] assigns, with the configuration
    object and the position of the random generator. *)
Record gf_vars := mkGfVars {
  config : Configuration.t;
  drawn : nat;
  gf_up : ndarray;
  gf_dn : ndarray;
  g_tmp_up : mat;
  g_tmp_dn : mat;
  acc : bool;
  number : nat
}.

Definition measure_gf_step (expm : mat -> mat) (ham_kin : mat) (n : nat)
    (lamb dtau : R) (draws : nat -> R) (il : nat * nat) (s : option gf_vars)
    : option gf_vars :=
  v ← s;
  let i := fst il in
  let l := snd il in
  m_up ← compute_m expm ham_kin (config v) lamb dtau 1;
  m_dn ← compute_m expm ham_kin (config v) lamb dtau (-1);
  inv_up ← inv m_up;
  h ← Configuration.get (config v) i l;
  let d_up := 1 + (1 - entry i i inv_up) * (exp (-2 * lamb * IZR h) - 1) in
  inv_dn ← inv m_dn;
  let d_dn := 1 + (1 - entry i i inv_dn) * (exp (2 * lamb * IZR h) - 1) in
  let ratio := d_up * d_dn in
  let r := draws (drawn v) in
  let v :=
    if Rlt_dec r ratio then
      mkGfVars (Configuration.flipped (config v) i l) (S (drawn v))
        (gf_up v) (gf_dn v)
        (rank_one_update n i (exp (-2 * lamb * IZR h) - 1) (g_tmp_up v))
        (rank_one_update n i (exp (2 * lamb * IZR h) - 1) (g_tmp_dn v))
        true (number v)
    else
      mkGfVars (config v) (S (drawn v)) (gf_up v) (gf_dn v)
        (g_tmp_up v) (g_tmp_dn v) false (number v) in
  Some (mkGfVars (config v) (drawn v)
          (nd_add_matrix (gf_up v) (g_tmp_up v))
          (nd_add_matrix (gf_dn v) (g_tmp_dn v))
          (g_tmp_up v) (g_tmp_dn v) (acc v) (S (number v))).

(** [measure_gf] up to the end of its loops. *)
Definition measure_gf_sweeps (expm : mat -> mat) (model : HubbardModel.t)
    (config : Configuration.t) (dtau lamb : R) (sweeps : nat)
    (draws : nat -> R) (drawn : nat) : option gf_vars :=
  let ham_kin := HubbardModel.ham_kinetic model in
  let n := HubbardModel.n_sites model in
  m_up ← compute_m expm ham_kin config lamb dtau 1;
  m_dn ← compute_m expm ham_kin config lamb dtau (-1);
  g_tmp_up ← inv m_up;
  g_tmp_dn ← inv m_dn;
  fold_left (fun s sweep =>
      fold_left (fun s il => measure_gf_step expm ham_kin n lamb dtau draws il s)
        (list_prod (seq 0 (HubbardModel.n_sites model))
                   (seq 0 (Configuration.n_t config))) s)
    (seq 0 sweeps)
    (Some (mkGfVars config drawn (scalar 0) (scalar 0) g_tmp_up g_tmp_dn false O)).

(** [measure_gf]: the returned array. *)
Definition measure_gf (expm : mat -> mat) (model : HubbardModel.t)
    (config : Configuration.t) (dtau lamb : R) (sweeps : nat)
    (draws : nat -> R) (drawn : nat) : option (ndarray * ndarray) :=
  v ← measure_gf_sweeps expm model config dtau lamb sweeps draws drawn;
  Some (nd_div (gf_up v) (INR (number v)), nd_div (gf_dn v) (INR (number v))).

(** [mc_loop]: the index pairs the generator yields, in order. *)
Definition mc_loop (n_sites n_t : nat) : list (nat * nat) :=
  flat_map (fun i => map (fun l => (i, l)) (seq 0 n_t)) (seq 0 n_sites).

(** The names the loop of [warmup] assigns, with the configuration object
    and the position of the random generator. *)
Record warm_vars := mkWarmVars {
  wv_config : Configuration.t;
  wv_drawn : nat;
  wv_acc : bool;
  wv_ratio : R
}.

Definition warmup_step (expm : mat -> mat) (ham_kin : mat)
    (lamb dtau : R) (draws : nat -> R) (il : nat * nat) (s : option warm_vars)
    : option warm_vars :=
  v ← s;
  let i := fst il in
  let l := snd il in
  m_up ← compute_m expm ham_kin (wv_config v) lamb dtau 1;
  m_dn ← compute_m expm ham_kin (wv_config v) lamb dtau (-1);
  inv_up ← inv m_up;
  h ← Configuration.get (wv_config v) i l;
  let d_up := 1 + (1 - entry i i inv_up) * (exp (-2 * lamb * IZR h) - 1) in
  inv_dn ← inv m_dn;
  let d_dn := 1 + (1 - entry i i inv_dn) * (exp (2 * lamb * IZR h) - 1) in
  let ratio := d_up * d_dn in
  let r := draws (wv_drawn v) in
  if Rlt_dec r ratio then
    Some (mkWarmVars (Configuration.flipped (wv_config v) i l) (S (wv_drawn v)) true ratio)
  else
    Some (mkWarmVars (wv_config v) (S (wv_drawn v)) false ratio).

(** [warmup]: the configuration it returns, with the position of the
    random generator. *)
Definition warmup (expm : mat -> mat) (model : HubbardModel.t)
    (config : Configuration.t) (dtau lamb : R) (sweeps : nat)
    (draws : nat -> R) (drawn : nat) : option (Configuration.t * nat) :=
  let ham_kin := HubbardModel.ham_kinetic model in
  v ← fold_left (fun s sweep =>
         fold_left (fun s il => warmup_step expm ham_kin lamb dtau draws il s)
           (list_prod (seq 0 (HubbardModel.n_sites model))
                      (seq 0 (Configuration.n_t config))) s)
       (seq 0 sweeps)
       (Some (mkWarmVars config drawn false 0));
  Some (wv_config v, wv_drawn v).

End mc_fast.

(** ** [Hamiltonian.py]: the lattice and its kinetic matrix *)

Module Hamiltonian.

(** What a Python call evaluates to when it returns: [None] or an array. *)
Inductive value :=
| PyNone
| PyArray (m : mat).

(** [buildGraph]: the edges and the sites of the ring of [L] sites, whatever
    [dim] is.  It prints [edges[2]], which raises on fewer than three
    edges. *)
Definition buildGraph (L dim : nat) : option (list (nat * nat) * list nat) :=
  let edges := map (fun i => (i, i + 1)%nat) (seq 0 (L - 1)) ++ [((L - 1)%nat, O)] in
  let sites := seq 0 (L - 1) ++ [(L - 1)%nat] in
  _ ← edges !! 2%nat;
  Some (edges, sites).

(** [K[a, b] = x]; [None] is the [IndexError]. *)
Definition setitem (a b : nat) (x : R) (K : mat) : option mat :=
  r ← K !! a;
  _ ← r !! b;
  Some (<[a := <[b := x]> r]> K).

(** The array that the local name [K] of [buildK] holds when it is
    printed. *)
Definition buildK_array (graph : list (nat * nat) * list nat) (L dim : nat)
    (U t mu : R) : option mat :=
  let edges := fst graph in
  let sites := snd graph in
  let N := (L ^ dim)%nat in
  let K := zeros N N in
  K ← fold_left (fun K tmp =>
         K ← K;
         K ← setitem (fst tmp) (snd tmp) t K;
         setitem (snd tmp) (fst tmp) t K) edges (Some K);
  fold_left (fun K tmp =>
         K ← K;
         K ← setitem tmp tmp (U / 2 - mu) K;
         setitem tmp tmp (U / 2 - mu) K) sites (Some K).

(** [buildK] builds and prints the array; it has no [return]. *)
Definition buildK (graph : list (nat * nat) * list nat) (L dim : nat)
    (U t mu : R) : option value :=
  _ ← buildK_array graph L dim U t mu;
  Some PyNone.

(** The array that the local name [V_l] of [buildV_l] holds at the end:
    [config] is the array of the field values, [l] the time slice.
    [config[:, l]] and [h[i]] raise out of range. *)
Definition buildV_l_array (L dim l : nat) (config : mat) : option mat :=
  let N := (L ^ dim)%nat in
  let V_l := zeros N N in
  h ← (if (l <? ncols config)%nat then Some (col l config) else None);
  fold_left (fun V_l i =>
         V_l ← V_l;
         x ← h !! i;
         setitem i i x V_l) (seq 0 N) (Some V_l).

(** [buildV_l] builds the array; it has no [return]. *)
Definition buildV_l (L dim l : nat) (config : mat) : option value :=
  _ ← buildV_l_array L dim l config;
  Some PyNone.

Record t_ := mk {
  L : nat;
  dim : nat;
  U : R;
  t : R;
  mu : R;
  graph : list (nat * nat) * list nat;
  K : value
}.

Definition __init__ (L : nat) (U t mu : R) (dim : nat) : option t_ :=
  graph ← buildGraph L dim;
  K ← buildK graph L dim U t mu;
  Some (mk L dim U t mu graph K).

End Hamiltonian.

(** ** What the loops leave unchanged *)

(** The part of a world that fixes the bounds of the loops: the model, the
    sizes and sweep counts of the solver, the reference [self.config] and
    the number of slices of the configuration it names. *)
Definition frame (w : world) :=
  (model (self w), time_steps (self w), n_sites (self w), meas_sweeps (self w),
   config (self w), option_map Configuration.time_steps (heap w !! config (self w))).

Definition keeps {A} (c : M A) : Prop :=
  forall w a w', c w = Some (a, w') -> frame w' = frame w.

(** Calls that change neither a configuration nor what [self.config]
    names. *)
Definition quiet {A} (c : M A) : Prop :=
  forall w a w', c w = Some (a, w') ->
    heap w' = heap w /\ config (self w') = config (self w).

(** A solver with its two work buffers blanked: what is left is what no
    computation of a matrix may change. *)
Definition erased (o : LatticeQMC) : LatticeQMC :=
  set_exp_v [] (set_exp_v_inv [] o).

(** Calls that read: the configurations, the random generator and the
    solver, its work buffers apart, are as before. *)
Definition calm {A} (c : M A) : Prop :=
  forall w a w', c w = Some (a, w') ->
    heap w' = heap w /\ draws w' = draws w /\ drawn w' = drawn w /\
    erased (self w') = erased (self w).

(** What no flip changes in a configuration: its sizes and the magnitudes
    of its field values. *)
Definition shape (c : Configuration.t) : nat * nat * list (list Z) :=
  (Configuration.n_sites c, Configuration.time_steps c,
   map (map Z.abs) (Configuration.array c)).

(** A solver with its work buffers, its sweep counter and its status text
    blanked. *)
Definition settled (o : LatticeQMC) : LatticeQMC :=
  set_it 0 (set_status EmptyString (erased o)).

(** [w] comes from [w0] by flips of the configuration that [self.config]
    names and by progress of the solver's display: no object is allocated,
    no other configuration is written, [self.config] names what it named,
    and the generator is the same sequence. *)
Definition in_place (w0 w : world) : Prop :=
  settled (self w) = settled (self w0) /\
  draws w = draws w0 /\
  length (heap w) = length (heap w0) /\
  (forall j, j <> config (self w0) -> heap w !! j = heap w0 !! j) /\
  option_map shape (heap w !! config (self w0)) =
  option_map shape (heap w0 !! config (self w0)).

(** [w] comes from [w0] by flips of the configuration that [self.config]
    names and by copies: the objects [w0] had are where they were, and of
    these only the one [self.config] names may have been written. *)
Definition grown (w0 w : world) : Prop :=
  settled (self w) = settled (self w0) /\
  draws w = draws w0 /\
  (length (heap w0) <= length (heap w))%nat /\
  (forall j, j <> config (self w0) -> (j < length (heap w0))%nat ->
     heap w !! j = heap w0 !! j) /\
  option_map shape (heap w !! config (self w0)) =
  option_map shape (heap w0 !! config (self w0)).

(** [w] comes from [w0] by flips, copies and assignments of copies to
    [self.config]: the objects [w0] had are where they were, and of these
    only the configuration [self.config] named may have been written;
    [self.config] names that configuration or a copy made since, and all
    of these have its shape. *)
Definition rerooted (w0 w : world) : Prop :=
  set_config 0 (settled (self w)) = set_config 0 (settled (self w0)) /\
  draws w = draws w0 /\
  (length (heap w0) <= length (heap w))%nat /\
  (forall j, j <> config (self w0) -> (j < length (heap w0))%nat ->
     heap w !! j = heap w0 !! j) /\
  (config (self w) = config (self w0) \/ (length (heap w0) <= config (self w))%nat) /\
  (config (self w) < length (heap w))%nat /\
  (forall j, j = config (self w0) \/ (length (heap w0) <= j)%nat ->
     (j < length (heap w))%nat ->
     option_map shape (heap w !! j) = option_map shape (heap w0 !! config (self w0))).

(** ** Arrays and graphs, entry by entry *)

(** [K[a, b]], if there is such an entry. *)
Definition get2 (K : list (list R)) (a b : nat) : option R :=
  match K !! a with Some r => r !! b | None => None end.

(** An array with an entry at the positions of an [n] by [n] matrix and
    at no others. *)
Definition indexed (n : nat) (K : mat) : Prop :=
  forall a b, is_Some (get2 K a b) <-> (a < n /\ b < n)%nat.

(** An [n] by [n] array. *)
Definition square (n : nat) (K : mat) : Prop :=
  length K = n /\ indexed n K.

(** A configuration whose array has the sizes it declares. *)
Definition well_formed (c : Configuration.t) : Prop :=
  length (Configuration.array c) = Configuration.n_sites c /\
  Forall (fun r => length r = Configuration.time_steps c) (Configuration.array c).

(** The shapes the constructor gives the arrays of a solver: [self.config]
    names the configuration [c], which is [n_sites] by [time_steps], and
    the propagator and the two work buffers are [n_sites] by [n_sites]. *)
Definition well_shaped (w : world) (c : Configuration.t) : Prop :=
  heap w !! config (self w) = Some c /\
  well_formed c /\
  Configuration.n_sites c = n_sites (self w) /\
  square (n_sites (self w)) (exp_k (self w)) /\
  square (n_sites (self w)) (exp_v (self w)) /\
  square (n_sites (self w)) (exp_v_inv (self w)).

(** [a] and [b] are the ends of an edge. *)
Definition adjacent (edges : list (nat * nat)) (a b : nat) : Prop :=
  In (a, b) edges \/ In (b, a) edges.

(** ** The M matrix as the specification words it *)

(** The factor [B_sigma(l) = exp(sigma * lambda * V(l)) * exp(dtau * H_kin)]
    for the field column [column] of slice [l]; [k] is [exp(dtau * H_kin)]. *)
Definition spec_B (k : mat) (lam : R) (sigma : Z) (column : list Z) : mat :=
  let n := length column in
  dot (fill_diagonal (zeros n n) (map (fun h => exp (IZR sigma * lam * IZR h)) column)) k.

(** [I + B(L-1) * B(L-2) * ... * B(0)], every slice once. *)
Definition spec_M (k : mat) (lam : R) (sigma : Z) (c : Configuration.t) : mat :=
  let n := Configuration.n_sites c in
  let column l := map (fun r => nth l r 0%Z) (Configuration.array c) in
  add (eye n)
    (fold_right (fun l p => dot (spec_B k lam sigma (column l)) p) (eye n)
       (rev (seq 0 (Configuration.time_steps c)))).

(** ** Solver states used as test inputs *)

(** The matrix exponential on diagonal matrices, the exponentials of the
    diagonal entries: it stands for SciPy's [expm] where the kinetic matrix
    is diagonal. *)
Definition expm_diag (m : mat) : mat :=
  imap (fun i r => imap (fun j x => if Nat.eqb i j then exp x else 0) r) m.

(** A solver as [__init__] leaves it for a model with interaction
    [u = 2 ln(5/4)] and [dtau = 1], where the coupling is
    [arccosh(5/4) = ln 2]: [h] is the kinetic matrix and [k] its
    exponential. *)
Definition solver (n ts warm meas : nat) (h k : mat) : LatticeQMC :=
  mkLatticeQMC (HubbardModel.mk (2 * ln (5 / 4)) n h) 1 ts warm meas n O false
    EmptyString O h (ln 2) k (zeros n n) k (zeros n n).

Definition world_of (s : LatticeQMC) (array : list (list Z)) (draws : nat -> R) : world :=
  mkWorld s [Configuration.mk (n_sites s) (time_steps s) array] draws O.

(** One site and one slice with field [+1]; no hopping. *)
Definition w1 : world :=
  world_of (solver 1 1 1 1 [[0]] [[1]]) [[1%Z]] (fun _ => 9 / 10).

(** One site and two slices with fields [+1, +1]; every draw is [0.9]. *)
Definition w2 : world :=
  world_of (solver 1 2 1 1 [[0]] [[1]]) [[1%Z; 1%Z]] (fun _ => 9 / 10).

(** Two sites and three slices; the kinetic matrix [(ln 3 / 2) [[1,1],[1,1]]]
    has the exponential [[2,1],[1,2]]. *)
Definition w3 : world :=
  world_of (solver 2 3 1 1 [[ln 3 / 2; ln 3 / 2]; [ln 3 / 2; ln 3 / 2]] [[2; 1]; [1; 2]])
    [[1%Z; 1%Z; 1%Z]; [1%Z; (-1)%Z; (-1)%Z]] (fun _ => 9 / 10).

(** The solver of [w2] in slow mode. *)
Definition w2_det : world :=
  world_of
    (mkLatticeQMC (HubbardModel.mk (2 * ln (5 / 4)) 1 [[0]]) 1 2 1 1 1 O true
       EmptyString O [[0]] (ln 2) [[1]] (zeros 1 1) [[1]] (zeros 1 1))
    [[1%Z; 1%Z]] (fun _ => 9 / 10).

(** ** The constructor *)

(** Closed integer expressions under [IZR] are computed. *)
Ltac izr_eval :=
  repeat match goal with
         | |- context [IZR ?z] =>
             let c := eval compute in z in
             progress change (IZR z) with (IZR c)
         end.

Lemma arccosh_1 : arccosh 1 = Some 0.
Proof.
  unfold arccosh. destruct (Rlt_dec 1 1); [lra|]. f_equal.
  replace (1 * 1 - 1) with 0 by ring.
  rewrite sqrt_0, Rplus_0_r.
  apply ln_1.
Qed.

(** Where [np.arccosh] is a number and where it is nan. *)
Lemma arccosh_defined (x : R) :
  1 <= x -> arccosh x = Some (ln (x + sqrt (x * x - 1))).
Proof. intros Hx. unfold arccosh. destruct (Rlt_dec x 1); [lra|reflexivity]. Qed.

Lemma arccosh_nan (x : R) : x < 1 -> arccosh x = None.
Proof. intros Hx. unfold arccosh. destruct (Rlt_dec x 1); [reflexivity|lra]. Qed.

Lemma exp_ge_1 (x : R) : 0 <= x -> 1 <= exp x.
Proof.
  intros [Hx|<-]; [|rewrite exp_0; lra].
  left. rewrite <- exp_0. now apply exp_increasing.
Qed.

Lemma exp_lt_1 (x : R) : x < 0 -> exp x < 1.
Proof. intros Hx. rewrite <- exp_0. now apply exp_increasing. Qed.

Lemma exp_neq_1 (x : R) : x <> 0 -> exp x <> 1.
Proof.
  intros Hx He. apply Hx, exp_inv. now rewrite exp_0.
Qed.

(** C10.  The coupling of a new solver.  For a model without interaction
    the constructor sets [lamb = 1], although the formula
    [arccosh(exp(u * dtau / 2))] is [0] there, so that the diagonal factors
    [exp(-/+ sigma * lamb * h)] of a field value [h] of [+1] or [-1] differ
    from [1].  For every other [u] the coupling is the value of the
    formula: a number when [u * dtau] is not negative, and nan when it is,
    where the exponential is below [1]. *)
Theorem init_lamb (expm : mat -> mat) (model : HubbardModel.t) (beta : R)
    (time_steps warmup sweeps : nat) (det_mode : bool)
    (array : list (list Z)) (draws : nat -> R) :
  time_steps <> O ->
  let u := HubbardModel.u model in
  let d := beta / INR time_steps in
  let built := __init__ expm model beta time_steps warmup sweeps det_mode array draws in
  (u = 0 ->
     arccosh (exp (u * d / 2)) = Some 0 /\
     exists w, built = Built w /\ dtau (self w) = d /\ lamb (self w) = 1 /\
       forall sigma h : Z, (sigma = 1 \/ sigma = -1)%Z -> (h = 1 \/ h = -1)%Z ->
         exp (IZR (-1 * sigma) * lamb (self w) * IZR h) <> 1 /\
         exp (IZR (1 * sigma) * lamb (self w) * IZR h) <> 1) /\
  (u <> 0 -> 0 <= u * d ->
     exists w, built = Built w /\ dtau (self w) = d /\
       arccosh (exp (u * d / 2)) = Some (lamb (self w)) /\
       0 <= lamb (self w)) /\
  (u * d < 0 ->
     arccosh (exp (u * d / 2)) = None /\ built = NotANumber).
Proof.
  intros Hts u d built. subst built. unfold __init__, coupling.
  destruct (Nat.eqb_spec time_steps 0) as [|_]; [contradiction|].
  fold u d. repeat apply conj.
  - intros Hu. destruct (Req_dec_T u 0) as [_|]; [|contradiction]. split.
    + rewrite Hu. replace (0 * d / 2) with 0 by (unfold Rdiv; ring).
      rewrite exp_0. apply arccosh_1.
    + eexists. split; [reflexivity|]. cbn [self lamb dtau].
      split; [reflexivity|]. split; [reflexivity|].
      intros sigma h [-> | ->] [-> | ->]; split; apply exp_neq_1; izr_eval; lra.
  - intros Hu Hd. destruct (Req_dec_T u 0) as [|_]; [contradiction|].
    assert (Hx : 1 <= exp (u * d / 2)) by (apply exp_ge_1; lra).
    rewrite (arccosh_defined _ Hx).
    eexists. split; [reflexivity|]. cbn [self lamb dtau].
    split; [reflexivity|]. split; [reflexivity|].
    rewrite <- ln_1. destruct Hx as [Hx|Hx].
    + left. apply ln_increasing; [lra|].
      assert (0 <= sqrt (exp (u * d / 2) * exp (u * d / 2) - 1)) by apply sqrt_pos. lra.
    + rewrite <- Hx. replace (1 * 1 - 1) with 0 by ring. rewrite sqrt_0, Rplus_0_r. lra.
  - intros Hd.
    assert (Hx : exp (u * d / 2) < 1) by (apply exp_lt_1; lra).
    rewrite (arccosh_nan _ Hx). split; [reflexivity|].
    destruct (Req_dec_T u 0) as [Hu|_]; [|reflexivity].
    exfalso. rewrite Hu in Hd. lra.
Qed.

(** The constructor for one time step and [beta = 1]: without interaction
    the coupling is [1], for the interaction [1] it is the value of the
    formula, and for the interaction [-1] it is nan. *)
Lemma init_lamb_witness :
  (exists w,
     __init__ expm_diag (HubbardModel.mk 0 1 [[0]]) 1 1 0 0 false [[1%Z]] (fun _ => 0)
     = Built w /\ lamb (self w) = 1) /\
  (exists w,
     __init__ expm_diag (HubbardModel.mk 1 1 [[0]]) 1 1 0 0 false [[1%Z]] (fun _ => 0)
     = Built w /\ arccosh (exp (1 * (1 / INR 1) / 2)) = Some (lamb (self w))) /\
  __init__ expm_diag (HubbardModel.mk (-1) 1 [[0]]) 1 1 0 0 false [[1%Z]] (fun _ => 0)
  = NotANumber.
Proof.
  assert (Hts : 1%nat <> O) by discriminate.
  split; [|split].
  - destruct (proj1 (init_lamb expm_diag (HubbardModel.mk 0 1 [[0]]) 1 1 0 0 false
                       [[1%Z]] (fun _ => 0) Hts) eq_refl)
      as (_ & w & Hw & _ & Hl & _).
    exists w. split; assumption.
  - destruct (proj1 (proj2 (init_lamb expm_diag (HubbardModel.mk 1 1 [[0]]) 1 1 0 0 false
                              [[1%Z]] (fun _ => 0) Hts)))
      as (w & Hw & _ & Hl & _).
    + cbn. lra.
    + cbn. lra.
    + exists w. split; assumption.
  - apply (proj2 (proj2 (init_lamb expm_diag (HubbardModel.mk (-1) 1 [[0]]) 1 1 0 0 false
                           [[1%Z]] (fun _ => 0) Hts))).
    cbn. lra.
Defined.

(** C6.  The constructor computes [exp_k_inv] by the expression that it
    computes [exp_k] by, the exponential of [+dtau * ham_kin]: the two
    cached matrices are equal. *)
Theorem init_exp_k_inv (expm : mat -> mat) (model : HubbardModel.t) (beta : R)
    (time_steps warmup sweeps : nat) (det_mode : bool)
    (array : list (list Z)) (draws : nat -> R) (w : world) :
  __init__ expm model beta time_steps warmup sweeps det_mode array draws = Built w ->
  exp_k_inv (self w) = expm (scale (1 * dtau (self w)) (ham_kin (self w))) /\
  exp_k_inv (self w) = exp_k (self w).
Proof.
  unfold __init__.
  destruct (time_steps =? 0)%nat; [discriminate|].
  destruct (coupling _ _); [|discriminate].
  intros [= <-]; cbn [self exp_k_inv exp_k dtau ham_kin]. split; reflexivity.
Qed.

(** A constructor call that succeeds, with its two equal propagators. *)
Lemma init_exp_k_inv_witness :
  exists w,
    __init__ expm_diag (HubbardModel.mk 0 1 [[1]]) 1 1 0 0 false [[1%Z]] (fun _ => 0)
    = Built w /\ exp_k_inv (self w) = exp_k (self w).
Proof.
  assert (E : coupling 0 (1 / INR 1) = Some 1).
  { unfold coupling. destruct (Req_dec_T 0 0); [reflexivity|contradiction]. }
  eassert (H : __init__ expm_diag (HubbardModel.mk 0 1 [[1]]) 1 1 0 0 false [[1%Z]]
                 (fun _ => 0) = Built _).
  { unfold __init__. cbn [Nat.eqb HubbardModel.u]. rewrite E. reflexivity. }
  eexists. split; [exact H|].
  apply (init_exp_k_inv expm_diag (HubbardModel.mk 0 1 [[1]]) 1 1 0 0 false [[1%Z]]
           (fun _ => 0) _ H).
Defined.

(** ** Evaluating the solver on concrete states *)

Lemma exp_ln2_1 (x : R) : x = ln 2 -> exp x = 2.
Proof. intros ->. apply exp_ln. lra. Qed.

Lemma exp_ln2_m1 (x : R) : x = - ln 2 -> exp x = / 2.
Proof. intros ->. rewrite exp_Ropp, exp_ln; lra. Qed.

Lemma exp_ln2_2 (x : R) : x = 2 * ln 2 -> exp x = 4.
Proof.
  intros ->. replace (2 * ln 2) with (ln 2 + ln 2) by ring.
  rewrite exp_plus, exp_ln; lra.
Qed.

Lemma exp_ln2_m2 (x : R) : x = - (2 * ln 2) -> exp x = / 4.
Proof.
  intros ->. rewrite exp_Ropp, (exp_ln2_2 (2 * ln 2)) by reflexivity. reflexivity.
Qed.

(** Every exponential of a multiple of [ln 2] in the goal is replaced by
    its value. *)
Ltac exp_eval :=
  izr_eval;
  repeat match goal with
         | |- context [exp ?x] =>
             first [ rewrite (exp_ln2_1 x) by lra
                   | rewrite (exp_ln2_m1 x) by lra
                   | rewrite (exp_ln2_2 x) by lra
                   | rewrite (exp_ln2_m2 x) by lra ]
         end.

(** An equation between arrays is reduced to the equations between their
    entries. *)
Ltac entries :=
  lazymatch goal with
  | |- @eq R _ _ => idtac
  | |- Some _ = Some _ => apply (f_equal Some); entries
  | |- cons _ _ = cons _ _ => apply (f_equal2 cons); entries
  | |- pair _ _ = pair _ _ => apply (f_equal2 pair); entries
  | |- slices _ = slices _ => apply (f_equal slices); entries
  | |- matrix _ = matrix _ => apply (f_equal matrix); entries
  | |- _ => try reflexivity
  end.

Ltac by_entries := entries; cbn [INR]; exp_eval; try field; try lra.

(** Normalisation that leaves real arithmetic and the decisions on reals
    alone. *)
Ltac ev :=
  lazy -[Rplus Rmult Rminus Ropp Rinv Rdiv exp ln IZR INR sqrt Req_dec_T Rlt_dec
         Rlt Rle Rgt Rge not].

Lemma inv_1x1 (a : R) : a <> 0 -> inv [[a]] = Some [[/ a]].
Proof.
  intros Ha. unfold inv, adjugate, cofactor, minor, det. cbn.
  destruct (Req_dec_T _ _) as [H|H]; [exfalso; lra|].
  entries. field. lra.
Qed.

Lemma if_Rlt_dec_false {A} (r x : R) (a b : A) :
  x <= r -> (if Rlt_dec r x then a else b) = b.
Proof. intros H. destruct (Rlt_dec r x); [lra|reflexivity]. Qed.

Lemma if_Rlt_dec_true {A} (r x : R) (a b : A) :
  r < x -> (if Rlt_dec r x then a else b) = a.
Proof. intros H. destruct (Rlt_dec r x); [reflexivity|lra]. Qed.

Lemma bind_eval {A B} (c : M A) (k : A -> M B) (w : world) (a : A) (w' : world) :
  c w = Some (a, w') -> bind c k w = k a w'.
Proof. unfold bind. now intros ->. Qed.

Lemma bind_assoc {A B C} (c : M A) (k1 : A -> M B) (k2 : B -> M C) (w : world) :
  bind (bind c k1) k2 w = bind c (fun a => bind (k1 a) k2) w.
Proof. unfold bind. destruct (c w) as [[a w']|]; reflexivity. Qed.

(** The first call of the goal is run; [run_to v] also replaces the value
    it returns by the equal [v]. *)
Ltac run :=
  rewrite ?bind_assoc;
  lazymatch goal with
  | |- context [bind ?c ?k ?w] =>
      let H := fresh in
      eassert (c w = Some _) as H by (ev; reflexivity);
      rewrite (bind_eval c k w _ _ H); clear H; cbv beta
  end.

Ltac run_to v :=
  rewrite ?bind_assoc;
  lazymatch goal with
  | |- context [bind ?c ?k ?w] =>
      let H := fresh in
      eassert (c w = Some (v, _)) as H
        by (ev; apply (f_equal Some); apply f_equal2; [by_entries | reflexivity]);
      rewrite (bind_eval c k w _ _ H); clear H; cbv beta
  end.

(** The comparison of a draw with a ratio is decided, whichever way it
    goes. *)
Ltac decide_draw :=
  lazymatch goal with
  | |- context [if Rlt_dec ?r ?x then _ else _] =>
      first [ rewrite (if_Rlt_dec_false r x) by (ev; exp_eval; lra)
            | rewrite (if_Rlt_dec_true r x) by (ev; exp_eval; lra) ]
  end.

(** The inverse of a one by one matrix is taken. *)
Ltac eval_inv :=
  rewrite ?bind_assoc; cbn [fst snd];
  rewrite inv_1x1 by (ev; exp_eval; lra);
  cbn [lift].

Ltac expose :=
  progress cbn [for_each seq rev app list_prod map fst snd Nat.eqb lift
                Configuration.time_steps Configuration.n_sites
                HubbardModel.n_sites].

Ltac open_step :=
  first [ progress unfold measure_det_step at 1
        | progress unfold measure_step at 1
        | progress unfold warmup_det_step at 1
        | progress unfold local_ratio at 1 ].

(** A method is run call by call on a concrete world. *)
Ltac drive :=
  repeat first [ expose | run | eval_inv | decide_draw | open_step ].

(** ** The fast acceptance ratio and the rank-one update *)

(** C1.  One site, one slice, field [+1], coupling [ln 2], no hopping:
    the fast loops compute the acceptance ratio [9/4] for the flip at
    [(0, 0)], while the recomputed determinants of the flipped
    configuration over those of the current one give [1]. *)
Theorem local_ratio_differs_from_det_ratio :
  option_map (fun x => snd (fst x)) (local_ratio 0 0 w1) = Some (9 / 4) /\
  option_map fst (det_ratio 0 0 w1) = Some 1 /\
  9 / 4 <> 1.
Proof.
  split; [|split; [|lra]].
  - unfold w1, world_of, solver. drive. ev. by_entries.
  - unfold det_ratio, w1, world_of, solver.
    run_to (9 / 2). run. run_to (9 / 2). ev. by_entries.
Qed.

(** C2.  On the same input [measure_loop] accepts the flip at [(0, 0)]
    whatever the draw below one and updates the two Green's functions to
    [8/9] and [1/9], which is what it returns after its only iteration;
    the inverses of the matrices recomputed for the flipped configuration
    it leaves behind are [1/3] and [2/3]. *)
Theorem rank_one_update_differs_from_inverse :
  option_map fst
    ((res <- measure_loop ;;
      m <- _compute_m ;;
      inv_up <- lift (inv (fst m)) ;;
      inv_dn <- lift (inv (snd m)) ;;
      ret (res, inv_up, inv_dn)) w1)
  = Some ((slices [[[8 / 9]]], slices [[[1 / 9]]]), [[1 / 3]], [[2 / 3]]).
Proof.
  unfold measure_loop, measure_sweeps, loop_generator, w1, world_of, solver.
  drive. ev. by_entries.
Qed.

(** ** The wrapping of the Green's function *)

(** C3.  One site, two slices, fields [+1, +1]: started from the inverse
    [4/5] of the matrix of [_m], [_gf_tau] returns the slices [1/5, 4/5],
    the computed slice first, while the inverse of the re-rooted matrix is
    [4/5] at both slices. *)
Theorem gf_tau_differs_from_inverse :
  option_map fst
    ((m <- _m 1 ;; g_beta <- lift (inv m) ;; _gf_tau g_beta 1) w2)
  = Some [[[1 / 5]]; [[4 / 5]]] /\
  option_map fst ((m <- _m_cyclic 1 0 ;; lift (inv m)) w2) = Some [[4 / 5]] /\
  option_map fst ((m <- _m_cyclic 1 1 ;; lift (inv m)) w2) = Some [[4 / 5]].
Proof.
  unfold w2, world_of, solver. repeat split.
  - run_to [[5 / 4]]. eval_inv. run. ev. by_entries.
  - run_to [[5 / 4]]. eval_inv. ev. by_entries.
  - run_to [[5 / 4]]. eval_inv. ev. by_entries.
Qed.

(** ** The determinant under re-rooting *)

(** C5.  Two sites, three slices, fields [+1, +1, +1] and [+1, -1, -1],
    propagator [[2, 1], [1, 2]]: for spin up the matrix of [_m] has the
    determinant [33] and the matrix of [_m_cyclic] at slice [1] the
    determinant [75/2]. *)
Theorem det_m_differs_from_det_m_cyclic :
  option_map (fun x => det (fst x)) (_m 1 w3) = Some 33 /\
  option_map (fun x => det (fst x)) (_m_cyclic 1 1 w3) = Some (75 / 2).
Proof.
  unfold w3, world_of, solver. split; ev; by_entries.
Qed.

(** ** The slow warmup loop *)

(** C7.  [warmup_loop_det] on one site and two slices with fields [+1, +1]
    and the draws [0.9, 0.9]: both trial flips have the ratio [16/25] and
    are rejected, so no third configuration is ever copied.  The first
    rejection makes [self.config] the object that [old_config] names; the
    second trial flips slice 1 of that object and the second rejection
    leaves it so: the loop ends on the fields [+1, -1], not on the
    [+1, +1] that preceded the rejected flip. *)
Theorem warmup_loop_det_keeps_rejected_flip :
  option_map (fun x => (config (self (snd x)), heap (snd x), drawn (snd x)))
    (warmup_loop_det w2)
  = Some (1%nat,
          [Configuration.mk 1 2 [[(-1)%Z; 1%Z]]; Configuration.mk 1 2 [[1%Z; (-1)%Z]]],
          2%nat).
Proof.
  unfold warmup_loop_det, loop_generator, w2, world_of, solver.
  drive. reflexivity.
Qed.

(** ** The kinetic matrix of [Hamiltonian.py] *)

(** C9.  Three sites with [U = 2], [t = 1], [mu = 1]: the array that
    [buildK] fills has [+t = 1] at the adjacent pairs, and [buildK] returns
    [None]; for two sites the constructor raises in [buildGraph]. *)
Theorem buildK_hopping_sign :
  Hamiltonian.buildGraph 3 1 = Some ([(0, 1); (1, 2); (2, 0)]%nat, [0; 1; 2]%nat) /\
  Hamiltonian.buildK_array ([(0, 1); (1, 2); (2, 0)]%nat, [0; 1; 2]%nat) 3 1 2 1 1
  = Some [[2 / 2 - 1; 1; 1]; [1; 2 / 2 - 1; 1]; [1; 1; 2 / 2 - 1]] /\
  Hamiltonian.buildK ([(0, 1); (1, 2); (2, 0)]%nat, [0; 1; 2]%nat) 3 1 2 1 1
  = Some Hamiltonian.PyNone /\
  Hamiltonian.__init__ 2 2 1 1 1 = None.
Proof.
  repeat split; ev; reflexivity.
Qed.

(** ** The builders of the M matrix *)

Lemma map_alter_invariant {A B} (g : A -> B) (f : A -> A) (i : nat) (l : list A) :
  (forall x, g (f x) = g x) -> map g (alter f i l) = map g l.
Proof.
  intros Hg. revert i. induction l as [|x l IH]; intros [|i]; cbn; f_equal; auto.
Qed.

Lemma nth_alter_other (f : Z -> Z) (l : nat) (r : list Z) (d : Z) :
  l <> O -> nth l (alter f O r) d = nth l r d.
Proof. destruct r, l; cbn; congruence. Qed.

Lemma column_flipped_other (c : Configuration.t) (i l : nat) :
  l <> O ->
  Configuration.column (Configuration.flipped c i 0) l = Configuration.column c l.
Proof.
  intros Hl. unfold Configuration.column, Configuration.flipped.
  cbn [Configuration.time_steps Configuration.array].
  destruct (l <? Configuration.time_steps c)%nat; [|reflexivity].
  f_equal. apply map_alter_invariant. intros r. now apply nth_alter_other.
Qed.

Lemma fold_left_ext_in {A B} (f g : A -> B -> A) (xs : list B) (a : A) :
  (forall x, In x xs -> forall a, f a x = g a x) ->
  fold_left f xs a = fold_left g xs a.
Proof.
  revert a. induction xs as [|x xs IH]; intros a H; cbn; [reflexivity|].
  rewrite H by (now left). apply IH. intros y Hy. apply H. now right.
Qed.

(** C4.  [_m] on one site and one slice with field [+1] and coupling
    [ln 2] returns [1 + exp(-ln 2) = 3/2], where the product of the factors
    [exp(sigma * lambda * V) * exp(dtau * H_kin)] gives [3]; and the matrix
    of [compute_m] for two or more slices is the same whatever the fields
    of slice [0] are, while the product of all the factors changes from
    [5] to [2] when the field of slice [0] is flipped. *)
Theorem m_differs_from_ordered_product :
  (option_map fst (_m 1 w1) = Some [[3 / 2]] /\
   spec_M [[1]] (ln 2) 1 (Configuration.mk 1 1 [[1%Z]]) = [[3]]) /\
  (spec_M [[1]] (ln 2) 1 (Configuration.mk 1 2 [[1%Z; 1%Z]]) = [[5]] /\
   spec_M [[1]] (ln 2) 1 (Configuration.flipped (Configuration.mk 1 2 [[1%Z; 1%Z]]) 0 0)
   = [[2]]) /\
  forall (expm : mat -> mat) (ham_kin : mat) (c : Configuration.t)
         (lamb dtau : R) (sigma : Z) (i : nat),
    (2 <= Configuration.n_t c)%nat ->
    mc_fast.compute_m expm ham_kin (Configuration.flipped c i 0) lamb dtau sigma
    = mc_fast.compute_m expm ham_kin c lamb dtau sigma.
Proof.
  split; [|split].
  - split.
    + unfold w1, world_of, solver. ev. by_entries.
    + ev. by_entries.
  - split; ev; by_entries.
  - intros expm ham_kin c lamb dtau sigma i Hc.
    unfold mc_fast.compute_m, Configuration.n_t in *.
    change (Configuration.time_steps (Configuration.flipped c i 0))
      with (Configuration.time_steps c).
    rewrite column_flipped_other by lia.
    destruct (Configuration.column c (Configuration.time_steps c - 1)) as [column|];
      [|reflexivity].
    cbn [mbind option_bind].
    erewrite fold_left_ext_in; [reflexivity|].
    intros l Hl acc. apply in_rev, in_seq in Hl.
    unfold mc_fast.times_b. destruct acc as [vb|]; [|reflexivity].
    cbn [mbind option_bind].
    now rewrite column_flipped_other by lia.
Qed.

(** The matrix of [compute_m] for the fields [+1, +1] of one site on two
    slices is the matrix for the fields [-1, +1]. *)
Lemma m_differs_from_ordered_product_witness :
  mc_fast.compute_m expm_diag [[0]]
    (Configuration.flipped (Configuration.mk 1 2 [[1%Z; 1%Z]]) 0 0) (ln 2) 1 1
  = mc_fast.compute_m expm_diag [[0]] (Configuration.mk 1 2 [[1%Z; 1%Z]]) (ln 2) 1 1.
Proof.
  apply (proj2 (proj2 m_differs_from_ordered_product)). cbn. lia.
Defined.

(** ** What the measurement loops leave unchanged *)

Create HintDb keeps.

Lemma keeps_ret {A} (a : A) : keeps (ret a).
Proof. intros w a' w' [= _ <-]. reflexivity. Qed.

Lemma keeps_raise {A} : keeps (@raise A).
Proof. intros w a w' [=]. Qed.

Lemma keeps_lift {A} (o : option A) : keeps (lift o).
Proof. destruct o; [apply keeps_ret | apply keeps_raise]. Qed.

Lemma keeps_bind {A B} (c : M A) (k : A -> M B) :
  keeps c -> (forall a, keeps (k a)) -> keeps (bind c k).
Proof.
  intros Hc Hk w b w'. unfold bind.
  destruct (c w) as [[a w1]|] eqn:E; [|discriminate].
  intros H. rewrite (Hk a _ _ _ H). eapply Hc, E.
Qed.

Lemma keeps_for_each {A S} (xs : list A) (body : A -> S -> M S) (s : S) :
  (forall x s, keeps (body x s)) -> keeps (for_each xs body s).
Proof.
  intros Hb. revert s. induction xs as [|x xs IH]; intros s; cbn [for_each].
  - apply keeps_ret.
  - apply keeps_bind; auto.
Qed.

Lemma keeps_if_dec {A} {P Q : Prop} (d : {P} + {Q}) (c1 c2 : M A) :
  keeps c1 -> keeps c2 -> keeps (if d then c1 else c2).
Proof. now destruct d. Qed.

Lemma keeps_if {A} (b : bool) (c1 c2 : M A) :
  keeps c1 -> keeps c2 -> keeps (if b then c1 else c2).
Proof. now destruct b. Qed.

Lemma keeps_get_self {A} (f : LatticeQMC -> A) : keeps (get_self f).
Proof. intros w a w' [= _ <-]. reflexivity. Qed.

Lemma keeps_set_self (f : LatticeQMC -> LatticeQMC) :
  (forall o, (model (f o), time_steps (f o), n_sites (f o), meas_sweeps (f o), config (f o))
             = (model o, time_steps o, n_sites o, meas_sweeps o, config o)) ->
  keeps (set_self f).
Proof.
  intros Hf w a w' [= _ <-]. unfold frame. cbn [self heap].
  specialize (Hf (self w)). injection Hf as -> -> -> -> ->. reflexivity.
Qed.

Lemma keeps_the_config : keeps the_config.
Proof.
  intros w a w'. unfold the_config.
  destruct (heap w !! config (self w)); [|discriminate].
  intros [= _ <-]. reflexivity.
Qed.

Lemma keeps_read (b : buffer) : keeps (read b).
Proof. apply keeps_get_self. Qed.

Lemma keeps_random_rand : keeps random_rand.
Proof. intros w a w' [= _ <-]. reflexivity. Qed.

Lemma keeps_config_update (i l : nat) : keeps (config_update i l).
Proof.
  intros w a w' [= _ <-]. unfold frame. cbn [self heap].
  rewrite list_lookup_alter_eq.
  destruct (heap w !! config (self w)); reflexivity.
Qed.

Lemma keeps_config_copy : keeps config_copy.
Proof.
  intros w a w'. unfold config_copy.
  destruct (heap w !! config (self w)) as [c|] eqn:E; [|discriminate].
  intros [= _ <-]. unfold frame. cbn [self heap].
  rewrite lookup_app_l by (eapply lookup_lt_Some, E). reflexivity.
Qed.

#[export] Hint Resolve keeps_ret keeps_raise keeps_lift keeps_get_self keeps_the_config
  keeps_read keeps_random_rand keeps_config_update keeps_config_copy : keeps.

Ltac keeps_tac :=
  repeat first
    [ progress intros
    | apply keeps_bind
    | apply keeps_for_each
    | apply keeps_if_dec
    | apply keeps_if
    | apply keeps_set_self; reflexivity
    | solve [auto with keeps] ].

Lemma keeps_exp_v (l : nat) (sigma : Z) (inv : bool) : keeps (_exp_v l sigma inv).
Proof. unfold _exp_v. keeps_tac. Qed.

#[export] Hint Resolve keeps_exp_v : keeps.

Lemma keeps_times_b (sigma : Z) (l : nat) (b : mat) : keeps (times_b sigma l b).
Proof. unfold times_b. keeps_tac. Qed.

#[export] Hint Resolve keeps_times_b : keeps.

Lemma keeps_m (sigma : Z) : keeps (_m sigma).
Proof. unfold _m. keeps_tac. Qed.

Lemma keeps_m_cyclic (sigma : Z) (l : nat) : keeps (_m_cyclic sigma l).
Proof. unfold _m_cyclic. keeps_tac. Qed.

Lemma keeps_gf_tau (g : mat) (sigma : Z) : keeps (_gf_tau g sigma).
Proof. unfold _gf_tau. keeps_tac. Qed.

#[export] Hint Resolve keeps_m keeps_m_cyclic keeps_gf_tau : keeps.

Lemma keeps_compute_m : keeps _compute_m.
Proof. unfold _compute_m. keeps_tac. Qed.

Lemma keeps_compute_m_cyclic (l : nat) : keeps (_compute_m_cyclic l).
Proof. unfold _compute_m_cyclic. keeps_tac. Qed.

Lemma keeps_compute_gf_tau (g_up g_dn : mat) : keeps (_compute_gf_tau g_up g_dn).
Proof. unfold _compute_gf_tau. keeps_tac. Qed.

#[export] Hint Resolve keeps_compute_m keeps_compute_m_cyclic keeps_compute_gf_tau : keeps.

Lemma keeps_local_ratio (i l : nat) : keeps (local_ratio i l).
Proof. unfold local_ratio. keeps_tac. Qed.

#[export] Hint Resolve keeps_local_ratio : keeps.

Lemma keeps_measure_step (n i l : nat) (v : fast_vars) : keeps (measure_step n i l v).
Proof. unfold measure_step. keeps_tac. Qed.

Lemma keeps_measure_det_step (l i : nat) (v : det_vars) : keeps (measure_det_step l i v).
Proof. unfold measure_det_step. keeps_tac. Qed.

Lemma bind_Some {A B} (c : M A) (k : A -> M B) (w : world) (b : B) (w' : world) :
  bind c k w = Some (b, w') ->
  exists a w1, c w = Some (a, w1) /\ k a w1 = Some (b, w').
Proof.
  unfold bind. destruct (c w) as [[a w1]|]; [|discriminate].
  intros H. now exists a, w1.
Qed.

Ltac bind_inv H :=
  let a := fresh "a" in
  let w := fresh "w" in
  let E := fresh "E" in
  apply bind_Some in H as (a & w & E & H).

(** A loop whose passes each add [k] to a counter, in worlds of one
    frame, adds [k] for every element. *)
Lemma for_each_count {A S F} (num : S -> nat) (k : nat) (f : F)
    (fr : world -> F) (xs : list A) (body : A -> S -> M S) :
  (forall x s w s' w', fr w = f -> body x s w = Some (s', w') ->
     fr w' = f /\ num s' = (num s + k)%nat) ->
  forall s w s' w', fr w = f -> for_each xs body s w = Some (s', w') ->
    fr w' = f /\ num s' = (num s + length xs * k)%nat.
Proof.
  intros Hb. induction xs as [|x xs IH]; intros s w s' w' Hw H; cbn [for_each] in H.
  - injection H as <- <-. split; [assumption|cbn; lia].
  - bind_inv H. destruct (Hb _ _ _ _ _ Hw E) as [Hw1 Hn].
    destruct (IH _ _ _ _ Hw1 H) as [Hw' Hn']. split; [assumption|].
    rewrite Hn', Hn. cbn [length]. lia.
Qed.

Lemma measure_step_accumulates (n i l : nat) (v : fast_vars) (w : world)
    (v' : fast_vars) (w' : world) :
  measure_step n i l v w = Some (v', w') ->
  fv_number v' = S (fv_number v) /\
  fv_gf_up v' = nd_add_slices (fv_gf_up v) (fv_g_tmp_up v') /\
  fv_gf_dn v' = nd_add_slices (fv_gf_dn v) (fv_g_tmp_dn v').
Proof.
  unfold measure_step. intros H.
  bind_inv H. bind_inv H. bind_inv H. injection H as <- <-. cbn.
  assert (fv_gf_up a1 = fv_gf_up v /\ fv_gf_dn a1 = fv_gf_dn v /\
          fv_number a1 = fv_number v) as (-> & -> & ->); [|auto].
  destruct (Rlt_dec _ _).
  - bind_inv E1. bind_inv E1. injection E1 as <- <-. auto.
  - injection E1 as <- <-. auto.
Qed.

Lemma measure_det_step_accumulates (l i : nat) (v : det_vars) (w : world)
    (v' : det_vars) (w' : world) :
  measure_det_step l i v w = Some (v', w') ->
  dv_number v' = S (dv_number v) /\
  dv_g_total_up v' =
    alter (fun t => add t (nth l (dv_g_up v') [])) l (dv_g_total_up v) /\
  dv_g_total_dn v' =
    alter (fun t => add t (nth l (dv_g_dn v') [])) l (dv_g_total_dn v).
Proof.
  unfold measure_det_step. intros H.
  bind_inv H. bind_inv H. bind_inv H. bind_inv H. injection H as <- <-. cbn.
  assert (dv_g_total_up a2 = dv_g_total_up v /\ dv_g_total_dn a2 = dv_g_total_dn v /\
          dv_number a2 = dv_number v) as (-> & -> & ->); [|auto].
  destruct (Rlt_dec _ _).
  - bind_inv E2. bind_inv E2. bind_inv E2. injection E2 as <- <-. auto.
  - bind_inv E2. injection E2 as <- <-. auto.
Qed.

Lemma frame_eq (w w0 : world) :
  frame w = frame w0 ->
  model (self w) = model (self w0) /\
  time_steps (self w) = time_steps (self w0) /\
  n_sites (self w) = n_sites (self w0) /\
  meas_sweeps (self w) = meas_sweeps (self w0) /\
  config (self w) = config (self w0) /\
  option_map Configuration.time_steps (heap w !! config (self w))
  = option_map Configuration.time_steps (heap w0 !! config (self w0)).
Proof. unfold frame. intros [= H1 H2 H3 H4 H5 H6]. auto 10. Qed.

Lemma bind_frame {A B} (c : M A) (k : A -> M B) (w w0 : world) (b : B) (w' : world) :
  keeps c -> frame w = frame w0 -> bind c k w = Some (b, w') ->
  exists a w1, c w = Some (a, w1) /\ frame w1 = frame w0 /\ k a w1 = Some (b, w').
Proof.
  intros Hc Hw H. apply bind_Some in H as (a & w1 & E & H).
  exists a, w1. repeat split; try assumption. now rewrite (Hc _ _ _ E).
Qed.

(** From a run [H] of [bind c k] in a world of frame [F], the run of [k]. *)
Ltac step H F :=
  let a := fresh "a" in
  let w := fresh "w" in
  let E := fresh "E" in
  let F' := fresh "F" in
  eapply bind_frame in H; [ | solve [keeps_tac] | exact F ];
  destruct H as (a & w & E & F' & H); clear F; rename F' into F;
  cbv [get_self set_self ret] in E;
  first [ injection E as <- <- | idtac ].

Lemma length_list_prod {A B} (xs : list A) (ys : list B) :
  length (list_prod xs ys) = (length xs * length ys)%nat.
Proof. apply length_prod. Qed.

Lemma measure_sweeps_number (w : world) (c : Configuration.t) (v : fast_vars) (w' : world) :
  heap w !! config (self w) = Some c ->
  measure_sweeps w = Some (v, w') ->
  fv_number v =
    (meas_sweeps (self w) *
     (HubbardModel.n_sites (model (self w)) * Configuration.time_steps c))%nat.
Proof.
  intros Hc H. unfold measure_sweeps in H.
  assert (F : frame w = frame w) by reflexivity.
  step H F. step H F. step H F. step H F. step H F. step H F. step H F.
  unfold loop_generator in H.
  eapply (for_each_count fv_number
            (HubbardModel.n_sites (model (self w)) * Configuration.time_steps c)
            (frame w) frame) in H; [| |exact F].
  - destruct H as [_ ->]. cbn [fv_number]. rewrite length_seq.
    apply frame_eq in F as (_ & _ & _ & -> & _). lia.
  - clear -Hc. intros sweep s w0 s' w0' F H.
    step H F. step H F. step H F.
    match goal with E : the_config ?w = Some _ |- _ =>
      unfold the_config in E;
      destruct (heap w !! config (self w)) as [c'|] eqn:Hc'; [|discriminate];
      injection E as <- <-
    end.
    eapply (for_each_count fv_number 1%nat (frame w) frame) in H; [| |exact F].
    + destruct H as [F' ->]. split; [assumption|].
      rewrite length_list_prod, !length_seq.
      apply frame_eq in F as (Hm & _ & _ & _ & _ & Ht).
      rewrite Hc', Hc in Ht. injection Ht as ->.
      cbn [self model set_it] in Hm. rewrite Hm. lia.
    + intros il s0 wa s1 wb Fa Ha. split.
      * rewrite <- Fa. eapply keeps_measure_step, Ha.
      * apply measure_step_accumulates in Ha as [-> _]. lia.
Qed.

Lemma measure_det_sweeps_number (w : world) (v : det_vars) (w' : world) :
  measure_det_sweeps w = Some (v, w') ->
  frame w' = frame w /\
  dv_number v = (meas_sweeps (self w) * (time_steps (self w) * n_sites (self w)))%nat.
Proof.
  intros H. unfold measure_det_sweeps in H.
  assert (F : frame w = frame w) by reflexivity.
  step H F. step H F. step H F. step H F. step H F. step H F.
  match type of H with (if ?b then _ else _) _ = _ => destruct b; [discriminate|] end.
  step H F. step H F.
  eapply (for_each_count dv_number (time_steps (self w) * n_sites (self w))
            (frame w) frame) in H; [| |exact F].
  - destruct H as [F' ->]. split; [assumption|]. cbn [dv_number]. rewrite length_seq.
    apply frame_eq in F as (_ & _ & _ & -> & _). lia.
  - intros sweep s wa s' wb Fa Ha.
    step Ha Fa.
    eapply (for_each_count dv_number (n_sites (self w)) (frame w) frame) in Ha;
      [| |exact Fa].
    + destruct Ha as [F' ->]. split; [assumption|].
      rewrite length_rev, length_seq.
      apply frame_eq in Fa as (_ & -> & _). lia.
    + intros l s0 wc s1 wd Fc Hc.
      step Hc Fc.
      eapply (for_each_count dv_number 1%nat (frame w) frame) in Hc; [| |exact Fc].
      * destruct Hc as [F' ->]. split; [assumption|].
        rewrite length_seq.
        apply frame_eq in Fc as (_ & _ & -> & _). lia.
      * intros i s2 we s3 wf Fe He. split.
        -- rewrite <- Fe. eapply keeps_measure_det_step, He.
        -- apply measure_det_step_accumulates in He as [-> _]. lia.
Qed.

(** The counterpart of [for_each_count] for the loops of [mc_fast.py]. *)
Lemma fold_left_count {A S} (num : S -> nat) (k : nat) (xs : list A)
    (body : option S -> A -> option S) :
  (forall x, body None x = None) ->
  (forall x s s', body (Some s) x = Some s' -> num s' = (num s + k)%nat) ->
  forall s s', fold_left body xs (Some s) = Some s' ->
    num s' = (num s + length xs * k)%nat.
Proof.
  intros Hn Hb. induction xs as [|x xs IH]; intros s s' H; cbn [fold_left] in H.
  - injection H as <-. cbn. lia.
  - destruct (body (Some s) x) as [s1|] eqn:E.
    + rewrite (IH _ _ H), (Hb _ _ _ E). cbn [length]. lia.
    + exfalso. clear -Hn H. induction xs as [|y ys IH]; cbn in H; [discriminate|].
      rewrite Hn in H. auto.
Qed.

Lemma measure_gf_step_accumulates (expm : mat -> mat) (ham_kin : mat) (n : nat)
    (lamb dtau : R) (draws : nat -> R) (il : nat * nat) (v v' : mc_fast.gf_vars) :
  mc_fast.measure_gf_step expm ham_kin n lamb dtau draws il (Some v) = Some v' ->
  mc_fast.number v' = S (mc_fast.number v) /\
  mc_fast.gf_up v' = nd_add_matrix (mc_fast.gf_up v) (mc_fast.g_tmp_up v') /\
  mc_fast.gf_dn v' = nd_add_matrix (mc_fast.gf_dn v) (mc_fast.g_tmp_dn v').
Proof.
  unfold mc_fast.measure_gf_step. cbn [mbind option_bind].
  destruct (mc_fast.compute_m _ _ _ _ _ 1) as [m_up|]; [|discriminate].
  cbn [mbind option_bind].
  destruct (mc_fast.compute_m _ _ _ _ _ (-1)) as [m_dn|]; [|discriminate].
  cbn [mbind option_bind].
  destruct (inv m_up); [|discriminate]. cbn [mbind option_bind].
  destruct (Configuration.get _ _ _); [|discriminate]. cbn [mbind option_bind].
  destruct (inv m_dn); [|discriminate]. cbn [mbind option_bind].
  intros [= <-]. destruct (Rlt_dec _ _); cbn; auto.
Qed.

Lemma measure_gf_sweeps_number (expm : mat -> mat) (model : HubbardModel.t)
    (config : Configuration.t) (dtau lamb : R) (sweeps : nat)
    (draws : nat -> R) (drawn : nat) (v : mc_fast.gf_vars) :
  mc_fast.measure_gf_sweeps expm model config dtau lamb sweeps draws drawn = Some v ->
  mc_fast.number v =
    (sweeps * (HubbardModel.n_sites model * Configuration.n_t config))%nat.
Proof.
  unfold mc_fast.measure_gf_sweeps.
  destruct (mc_fast.compute_m _ _ _ _ _ 1) as [m_up|]; [|discriminate].
  cbn [mbind option_bind].
  destruct (mc_fast.compute_m _ _ _ _ _ (-1)) as [m_dn|]; [|discriminate].
  cbn [mbind option_bind].
  destruct (inv m_up); [|discriminate]. cbn [mbind option_bind].
  destruct (inv m_dn); [|discriminate]. cbn [mbind option_bind].
  intros H.
  apply (fold_left_count mc_fast.number
           (HubbardModel.n_sites model * Configuration.n_t config)) in H.
  - rewrite H, length_seq. cbn. lia.
  - intros sweep. generalize (list_prod (seq 0 (HubbardModel.n_sites model))
                                (seq 0 (Configuration.n_t config))).
    induction l as [|x l IH]; cbn; auto.
  - intros sweep s s' Hs.
    apply (fold_left_count mc_fast.number 1%nat) in Hs.
    + rewrite Hs, length_list_prod, !length_seq. lia.
    + reflexivity.
    + intros il s0 s1 H1. apply measure_gf_step_accumulates in H1 as [-> _]. lia.
Qed.

(** ** The normalisation of the measured Green's functions *)

Lemma measure_loop_det_w2 :
  exists w', measure_loop_det w2
             = Some ((slices [[[0]]; [[4 / 5]]], slices [[[0]]; [[1 / 5]]]), w').
Proof.
  eexists. unfold measure_loop_det, measure_det_sweeps, w2, world_of, solver.
  drive. ev. apply (f_equal Some), f_equal2; [by_entries | reflexivity].
Qed.

(** C8, as stated, fails for [measure_loop_det]: on one site and two
    slices with fields [+1, +1] and the draws [0.9, 0.9] the loops end with
    [number = 2] and the totals [[0], [4/5]] and [[0], [1/5]], and these
    totals, not their halves, are what is returned. *)
Lemma measure_loop_det_not_total_over_number :
  option_map fst (measure_det_sweeps w2)
  = Some (mkDetVars (25 / 4) 1 [[[0]]; [[4 / 5]]] [[[0]]; [[1 / 5]]]
            [[[0]]; [[4 / 5]]] [[[0]]; [[1 / 5]]] 2) /\
  option_map fst (measure_loop_det w2)
  = Some (slices [[[0]]; [[4 / 5]]], slices [[[0]]; [[1 / 5]]]) /\
  (slices [[[0]]; [[4 / 5]]], slices [[[0]]; [[1 / 5]]])
  <> (nd_div (slices [[[0]]; [[4 / 5]]]) (INR 2),
      nd_div (slices [[[0]]; [[1 / 5]]]) (INR 2)).
Proof.
  split; [|split].
  - unfold measure_det_sweeps, w2, world_of, solver. drive. ev.
    apply (f_equal Some). f_equal; by_entries.
  - destruct measure_loop_det_w2 as [w' ->]. reflexivity.
  - cbn. intros [= H _]. lra.
Qed.

(** C8, amended.  Every pass of the three measurement loops counts itself
    in [number] and adds the Green's function that is cached after the
    accept/reject step to the running total, accepted or not.
    [measure_loop] and [measure_gf] return the totals over [number], the
    number of all passes, sweeps times sites times slices;
    [measure_loop_det] returns the totals over [number] times
    [time_steps]. *)
Theorem measurement_normalisation :
  (forall w c res w',
     heap w !! config (self w) = Some c ->
     measure_loop w = Some (res, w') ->
     exists v, measure_sweeps w = Some (v, w') /\
       res = (nd_div (fv_gf_up v) (INR (fv_number v)),
              nd_div (fv_gf_dn v) (INR (fv_number v))) /\
       fv_number v =
         (meas_sweeps (self w) *
          (HubbardModel.n_sites (model (self w)) * Configuration.time_steps c))%nat) /\
  (forall n i l v w v' w',
     measure_step n i l v w = Some (v', w') ->
     fv_number v' = S (fv_number v) /\
     fv_gf_up v' = nd_add_slices (fv_gf_up v) (fv_g_tmp_up v') /\
     fv_gf_dn v' = nd_add_slices (fv_gf_dn v) (fv_g_tmp_dn v')) /\
  (forall w res w',
     measure_loop_det w = Some (res, w') ->
     exists v, measure_det_sweeps w = Some (v, w') /\
       res = (nd_mul (nd_div (slices (dv_g_total_up v)) (INR (dv_number v)))
                (INR (time_steps (self w))),
              nd_mul (nd_div (slices (dv_g_total_dn v)) (INR (dv_number v)))
                (INR (time_steps (self w)))) /\
       dv_number v =
         (meas_sweeps (self w) * (time_steps (self w) * n_sites (self w)))%nat) /\
  (forall l i v w v' w',
     measure_det_step l i v w = Some (v', w') ->
     dv_number v' = S (dv_number v) /\
     dv_g_total_up v' =
       alter (fun t => add t (nth l (dv_g_up v') [])) l (dv_g_total_up v) /\
     dv_g_total_dn v' =
       alter (fun t => add t (nth l (dv_g_dn v') [])) l (dv_g_total_dn v)) /\
  (forall expm model config dtau lamb sweeps draws drawn res,
     mc_fast.measure_gf expm model config dtau lamb sweeps draws drawn = Some res ->
     exists v,
       mc_fast.measure_gf_sweeps expm model config dtau lamb sweeps draws drawn = Some v /\
       res = (nd_div (mc_fast.gf_up v) (INR (mc_fast.number v)),
              nd_div (mc_fast.gf_dn v) (INR (mc_fast.number v))) /\
       mc_fast.number v =
         (sweeps * (HubbardModel.n_sites model * Configuration.n_t config))%nat) /\
  (forall expm ham_kin n lamb dtau draws il v v',
     mc_fast.measure_gf_step expm ham_kin n lamb dtau draws il (Some v) = Some v' ->
     mc_fast.number v' = S (mc_fast.number v) /\
     mc_fast.gf_up v' = nd_add_matrix (mc_fast.gf_up v) (mc_fast.g_tmp_up v') /\
     mc_fast.gf_dn v' = nd_add_matrix (mc_fast.gf_dn v) (mc_fast.g_tmp_dn v')).
Proof.
  repeat apply conj.
  - intros w c res w' Hc H. unfold measure_loop in H.
    bind_inv H. injection H as <- <-.
    exists a. repeat split; [assumption|]. eapply measure_sweeps_number; eassumption.
  - apply measure_step_accumulates.
  - intros w res w' H. unfold measure_loop_det in H.
    bind_inv H. bind_inv H. injection E0 as <- <-. injection H as <- <-.
    destruct (measure_det_sweeps_number _ _ _ E) as [F Hn].
    exists a. apply frame_eq in F as (_ & -> & _). auto.
  - apply measure_det_step_accumulates.
  - intros expm model config dtau lamb sweeps draws drawn res H.
    unfold mc_fast.measure_gf in H.
    destruct (mc_fast.measure_gf_sweeps _ _ _ _ _ _ _ _) as [v|] eqn:E; [|discriminate].
    injection H as <-. exists v. repeat split.
    eapply measure_gf_sweeps_number, E.
  - apply measure_gf_step_accumulates.
Qed.

(** On one site and two slices [measure_loop_det] returns, and its loops
    have counted one sweep times two slices times one site. *)
Lemma measurement_normalisation_witness :
  exists v w',
    measure_loop_det w2
    = Some ((slices [[[0]]; [[4 / 5]]], slices [[[0]]; [[1 / 5]]]), w') /\
    measure_det_sweeps w2 = Some (v, w') /\
    dv_number v = 2%nat.
Proof.
  destruct measure_loop_det_w2 as [w' H].
  destruct (proj1 (proj2 (proj2 measurement_normalisation)) _ _ _ H)
    as (v & Hv & _ & Hn).
  exists v, w'. auto.
Defined.

(** ** The test inputs as results of the constructor *)

Lemma ln_5_4_pos : 0 < ln (5 / 4).
Proof. rewrite <- ln_1. apply ln_increasing; lra. Qed.

Lemma arccosh_5_4 : arccosh (5 / 4) = Some (ln 2).
Proof.
  rewrite arccosh_defined by lra. f_equal.
  replace (5 / 4 * (5 / 4) - 1) with (3 / 4 * (3 / 4)) by field.
  rewrite sqrt_square by lra. f_equal. lra.
Qed.

Lemma lamb_ln_2 (d : R) :
  d = 1 -> coupling (2 * ln (5 / 4)) d = Some (ln 2).
Proof.
  intros ->. pose proof ln_5_4_pos. unfold coupling.
  destruct (Req_dec_T _ _); [lra|].
  replace (2 * ln (5 / 4) * 1 / 2) with (ln (5 / 4)) by field.
  rewrite exp_ln by lra. apply arccosh_5_4.
Qed.

(** The states [solver] describes are what the constructor builds for
    the interaction [2 ln(5/4)] and [beta = time_steps], when [k] is the
    exponential of the kinetic matrix. *)
Lemma init_solver (expm : mat -> mat) (n ts warm meas : nat) (h k : mat) (beta : R)
    (array : list (list Z)) (draws : nat -> R) :
  ts <> O -> beta / INR ts = 1 -> expm (scale (1 * 1) h) = k ->
  __init__ expm (HubbardModel.mk (2 * ln (5 / 4)) n h) beta ts warm meas false array draws
  = Built (world_of (solver n ts warm meas h k) array draws).
Proof.
  intros Hts Hb Hk. unfold __init__, world_of, solver.
  destruct ts; [contradiction|]. cbn [Nat.eqb HubbardModel.u HubbardModel.n_sites
    HubbardModel.ham_kinetic n_sites time_steps].
  rewrite Hb, lamb_ln_2 by reflexivity. rewrite Hk. reflexivity.
Qed.

Lemma expm_diag_zero : expm_diag (scale (1 * 1) [[0]]) = [[1]].
Proof.
  cbv [expm_diag scale vscale imap map Nat.eqb].
  replace (1 * 1 * 0) with 0 by ring. now rewrite exp_0.
Qed.

(** [w1] and [w2] are the constructor's results for one site without
    hopping, and [w3] is its result for two sites once the matrix
    exponential of the kinetic matrix evaluates to [[2, 1], [1, 2]]. *)
Lemma init_w1 :
  __init__ expm_diag (HubbardModel.mk (2 * ln (5 / 4)) 1 [[0]]) 1 1 1 1 false
    [[1%Z]] (fun _ => 9 / 10)
  = Built w1.
Proof. apply init_solver; [lia | cbn; field | apply expm_diag_zero]. Qed.

Lemma init_w2 :
  __init__ expm_diag (HubbardModel.mk (2 * ln (5 / 4)) 1 [[0]]) 2 2 1 1 false
    [[1%Z; 1%Z]] (fun _ => 9 / 10)
  = Built w2.
Proof. apply init_solver; [lia | cbn; field | apply expm_diag_zero]. Qed.

Lemma init_w3 (expm : mat -> mat) :
  expm (scale (1 * 1) [[ln 3 / 2; ln 3 / 2]; [ln 3 / 2; ln 3 / 2]]) = [[2; 1]; [1; 2]] ->
  __init__ expm
    (HubbardModel.mk (2 * ln (5 / 4)) 2 [[ln 3 / 2; ln 3 / 2]; [ln 3 / 2; ln 3 / 2]])
    3 3 1 1 false [[1%Z; 1%Z; 1%Z]; [1%Z; (-1)%Z; (-1)%Z]] (fun _ => 9 / 10)
  = Built w3.
Proof. intros H. apply init_solver; [lia | cbn; field | exact H]. Qed.

(** ** The slow measurement loop restores a rejected flip *)

Lemma alter_alter {A} (f g : A -> A) (i : nat) (l : list A) :
  alter f i (alter g i l) = alter (fun x => f (g x)) i l.
Proof. revert i. induction l as [|x l IH]; intros [|i]; cbn; f_equal; auto. Qed.

Lemma flipped_flipped (c : Configuration.t) (i l : nat) :
  Configuration.flipped (Configuration.flipped c i l) i l = c.
Proof.
  destruct c as [n ts a]. unfold Configuration.flipped. cbn. f_equal.
  rewrite alter_alter. apply list_alter_id. intros r.
  rewrite alter_alter. apply list_alter_id. intros z. lia.
Qed.

Lemma quiet_ret {A} (a : A) : quiet (ret a).
Proof. intros w a' w' [= _ <-]. auto. Qed.

Lemma quiet_lift {A} (o : option A) : quiet (lift o).
Proof. destruct o; [apply quiet_ret | intros w a w' [=]]. Qed.

Lemma quiet_bind {A B} (c : M A) (k : A -> M B) :
  quiet c -> (forall a, quiet (k a)) -> quiet (bind c k).
Proof.
  intros Hc Hk w b w' H. bind_inv H.
  destruct (Hc _ _ _ E) as [<- <-]. eapply Hk, H.
Qed.

Lemma quiet_for_each {A S} (xs : list A) (body : A -> S -> M S) (s : S) :
  (forall x s, quiet (body x s)) -> quiet (for_each xs body s).
Proof.
  intros Hb. revert s. induction xs as [|x xs IH]; intros s; cbn [for_each].
  - apply quiet_ret.
  - apply quiet_bind; auto.
Qed.

Lemma quiet_if {A} (b : bool) (c1 c2 : M A) :
  quiet c1 -> quiet c2 -> quiet (if b then c1 else c2).
Proof. now destruct b. Qed.

Lemma quiet_get_self {A} (f : LatticeQMC -> A) : quiet (get_self f).
Proof. intros w a w' [= _ <-]. auto. Qed.

Lemma quiet_set_self (f : LatticeQMC -> LatticeQMC) :
  (forall o, config (f o) = config o) -> quiet (set_self f).
Proof. intros Hf w a w' [= _ <-]. cbn. auto. Qed.

Lemma quiet_the_config : quiet the_config.
Proof.
  intros w a w'. unfold the_config.
  destruct (heap w !! config (self w)); [|discriminate].
  intros [= _ <-]. auto.
Qed.

Lemma quiet_random_rand : quiet random_rand.
Proof. intros w a w' [= _ <-]. auto. Qed.

Ltac quiet_tac :=
  repeat first
    [ progress intros
    | apply quiet_bind
    | apply quiet_for_each
    | apply quiet_if
    | apply quiet_set_self; reflexivity
    | apply quiet_ret
    | apply quiet_lift
    | apply quiet_get_self
    | apply quiet_the_config ].

Lemma quiet_exp_v (l : nat) (sigma : Z) (inv : bool) : quiet (_exp_v l sigma inv).
Proof. unfold _exp_v. quiet_tac. Qed.

Lemma quiet_m_cyclic (sigma : Z) (l : nat) : quiet (_m_cyclic sigma l).
Proof.
  unfold _m_cyclic, times_b, read.
  repeat first [ apply quiet_exp_v | quiet_tac ].
Qed.

Lemma quiet_compute_m_cyclic (l : nat) : quiet (_compute_m_cyclic l).
Proof. unfold _compute_m_cyclic. repeat first [ apply quiet_m_cyclic | quiet_tac ]. Qed.

(** A pass of the loop of [measure_loop_det] either leaves every
    configuration as it found it, having flipped the field back, or keeps
    the flip and appends a snapshot. *)
Lemma measure_det_step_restores (l i : nat) (v : det_vars) (w : world)
    (v' : det_vars) (w' : world) :
  measure_det_step l i v w = Some (v', w') ->
  heap w' = heap w \/
  exists c, heap w' =
    alter (fun c => Configuration.flipped c i l) (config (self w)) (heap w) ++ [c].
Proof.
  unfold measure_det_step. intros H.
  bind_inv H. injection E as <- <-.
  bind_inv H. apply quiet_compute_m_cyclic in E as [Hh Hc]. cbn [heap self] in Hh, Hc.
  bind_inv H. injection E as <- <-.
  bind_inv H. injection H as <- <-.
  destruct (Rlt_dec _ _).
  - right. bind_inv E. bind_inv E. apply quiet_lift in E0 as [Hh0 Hc0], E1 as [Hh1 Hc1].
    bind_inv E. injection E as <- <-.
    match goal with Hcopy : config_copy ?w = Some _ |- _ =>
      unfold config_copy in Hcopy;
      destruct (heap w !! config (self w)) as [c|]; [|discriminate];
      injection Hcopy as <- <-
    end.
    cbn [heap] in *. exists c. congruence.
  - left. bind_inv E. injection E as <- <-. injection E0 as <- <-.
    cbn [heap self]. rewrite Hc, Hh, alter_alter. apply list_alter_id.
    intros c. apply flipped_flipped.
Qed.

(** ** The ring and its kinetic array *)

Lemma lookup_repeat {A} (x : A) (n i : nat) :
  repeat x n !! i = if (i <? n)%nat then Some x else None.
Proof.
  revert i. induction n as [|n IH]; intros [|i]; cbn; try reflexivity.
  rewrite IH. reflexivity.
Qed.

Lemma get2_zeros (n a b : nat) :
  get2 (zeros n n) a b = if ((a <? n) && (b <? n))%nat then Some 0 else None.
Proof.
  unfold get2, zeros. rewrite lookup_repeat.
  destruct (a <? n)%nat; [|reflexivity]. apply lookup_repeat.
Qed.

Lemma indexed_zeros (n : nat) : indexed n (zeros n n).
Proof.
  intros a b. rewrite get2_zeros.
  destruct (Nat.ltb_spec a n), (Nat.ltb_spec b n); cbn;
    (split; [intros [x Hx]; try discriminate; lia | intros [? ?]; try lia; eauto]).
Qed.

Lemma setitem_get2 (a b : nat) (x : R) (K K' : mat) :
  Hamiltonian.setitem a b x K = Some K' ->
  forall a' b', get2 K' a' b' =
    if decide (a' = a /\ b' = b) then Some x else get2 K a' b'.
Proof.
  unfold Hamiltonian.setitem, get2. intros H a' b'. unfold mat in *.
  destruct (K !! a) as [r|] eqn:Ea; cbn [mbind option_bind] in H; [|discriminate].
  destruct (r !! b) as [y|] eqn:Eb; cbn [mbind option_bind] in H; [|discriminate].
  injection H as <-.
  destruct (decide (a' = a)) as [->|Ha].
  - rewrite list_lookup_insert_eq by (eapply lookup_lt_Some, Ea). rewrite Ea.
    destruct (decide (b' = b)) as [->|Hb].
    + rewrite list_lookup_insert_eq by (eapply lookup_lt_Some, Eb).
      destruct (decide _) as [_|[]]; auto.
    + rewrite list_lookup_insert_ne by auto.
      destruct (decide _) as [[_ ?]|_]; [contradiction|reflexivity].
  - rewrite list_lookup_insert_ne by auto.
    destruct (decide _) as [[? _]|_]; [contradiction|reflexivity].
Qed.

Lemma setitem_indexed (n a b : nat) (x : R) (K : mat) :
  indexed n K -> (a < n)%nat -> (b < n)%nat ->
  exists K', Hamiltonian.setitem a b x K = Some K' /\ indexed n K'.
Proof.
  intros HK Ha Hb. destruct (proj2 (HK a b) (conj Ha Hb)) as [y Hy].
  unfold get2, mat in *. destruct (K !! a) as [r|] eqn:Ea; [|discriminate].
  assert (E : Hamiltonian.setitem a b x K = Some (<[a := <[b := x]> r]> K)).
  { unfold Hamiltonian.setitem, mat. rewrite Ea. cbn. rewrite Hy. reflexivity. }
  eexists. split; [exact E|].
  intros a' b'. rewrite (setitem_get2 _ _ _ _ _ E).
  destruct (decide _) as [[-> ->]|_]; [|apply HK].
  split; [auto|]. intros _. now exists x.
Qed.

Lemma adjacent_dec (edges : list (nat * nat)) (a b : nat) :
  {adjacent edges a b} + {~ adjacent edges a b}.
Proof.
  assert (Hd : forall x y : nat * nat, {x = y} + {x <> y}) by (repeat decide equality).
  unfold adjacent.
  destruct (in_dec Hd (a, b) edges), (in_dec Hd (b, a) edges); tauto.
Qed.

Lemma hopping_fold (n : nat) (t : R) (edges : list (nat * nat)) (K : mat) :
  indexed n K ->
  (forall e, In e edges -> (fst e < n /\ snd e < n)%nat) ->
  exists K',
    fold_left (fun K tmp =>
        K ← K;
        K ← Hamiltonian.setitem (fst tmp) (snd tmp) t K;
        Hamiltonian.setitem (snd tmp) (fst tmp) t K) edges (Some K) = Some K' /\
    indexed n K' /\
    forall a b,
      (adjacent edges a b -> get2 K' a b = Some t) /\
      (~ adjacent edges a b -> get2 K' a b = get2 K a b).
Proof.
  revert K. induction edges as [|[p q] edges IH]; intros K HK He.
  - exists K. split; [reflexivity|]. split; [assumption|].
    intros a b. split; [intros [[]|[]] | reflexivity].
  - destruct (He (p, q) (or_introl eq_refl)) as [Hp Hq]. cbn [fst snd] in Hp, Hq.
    destruct (setitem_indexed n p q t K HK Hp Hq) as (K1 & E1 & HK1).
    destruct (setitem_indexed n q p t K1 HK1 Hq Hp) as (K2 & E2 & HK2).
    destruct (IH K2 HK2) as (K' & E' & HK' & H').
    { intros e Hin. apply He. now right. }
    exists K'. split; [|split; [assumption|]].
    + cbn [fold_left fst snd mbind option_bind]. rewrite E1. cbn [mbind option_bind].
      rewrite E2. exact E'.
    + intros a b.
      assert (H2 : get2 K2 a b =
                   if decide ((a = q /\ b = p) \/ (a = p /\ b = q)) then Some t
                   else get2 K a b).
      { rewrite (setitem_get2 _ _ _ _ _ E2), (setitem_get2 _ _ _ _ _ E1).
        repeat destruct (decide _); tauto. }
      destruct (adjacent_dec edges a b) as [Hadj|Hadj].
      * split; [intros _; now apply H'|]. intros Hn. exfalso. apply Hn.
        destruct Hadj; [left|right]; now right.
      * rewrite (proj2 (H' a b) Hadj), H2. unfold adjacent. cbn [In].
        destruct (decide _) as [Hd|Hd]; split; try reflexivity.
        -- intros Hn. exfalso. apply Hn. destruct Hd as [[-> ->]|[-> ->]]; auto.
        -- intros [[Heq|Hin]|[Heq|Hin]]; try (injection Heq as <- <-; tauto);
             exfalso; apply Hadj; unfold adjacent; auto.
Qed.

Lemma onsite_fold (n : nat) (d : R) (sites : list nat) (K : mat) :
  indexed n K ->
  (forall s, In s sites -> (s < n)%nat) ->
  exists K',
    fold_left (fun K tmp =>
        K ← K;
        K ← Hamiltonian.setitem tmp tmp d K;
        Hamiltonian.setitem tmp tmp d K) sites (Some K) = Some K' /\
    indexed n K' /\
    forall a b,
      (In a sites -> get2 K' a a = Some d) /\
      (~ (In a sites /\ a = b) -> get2 K' a b = get2 K a b).
Proof.
  revert K. induction sites as [|p sites IH]; intros K HK Hs.
  - exists K. split; [reflexivity|]. split; [assumption|].
    intros a b. split; [intros [] | reflexivity].
  - pose proof (Hs p (or_introl eq_refl)) as Hp.
    destruct (setitem_indexed n p p d K HK Hp Hp) as (K1 & E1 & HK1).
    destruct (setitem_indexed n p p d K1 HK1 Hp Hp) as (K2 & E2 & HK2).
    destruct (IH K2 HK2) as (K' & E' & HK' & H').
    { intros s Hin. apply Hs. now right. }
    exists K'. split; [|split; [assumption|]].
    + cbn [fold_left mbind option_bind]. rewrite E1. cbn [mbind option_bind].
      rewrite E2. exact E'.
    + intros a b.
      assert (H2 : forall a b, get2 K2 a b =
                   if decide (a = p /\ b = p) then Some d else get2 K a b).
      { intros a0 b0. rewrite (setitem_get2 _ _ _ _ _ E2), (setitem_get2 _ _ _ _ _ E1).
        repeat destruct (decide _); tauto. }
      split.
      * intros [<-|Hin].
        -- destruct (in_dec Nat.eq_dec p sites) as [Hi|Hi];
             [now apply (proj1 (H' p p))|].
           rewrite (proj2 (H' p p)) by tauto. rewrite H2.
           destruct (decide _); tauto.
        -- now apply (proj1 (H' a a)).
      * intros Hn. rewrite (proj2 (H' a b)), H2.
        -- destruct (decide _) as [[-> ->]|_]; [|reflexivity].
           exfalso. apply Hn. split; [now left|reflexivity].
        -- intros [Hin ->]. apply Hn. split; [now right|reflexivity].
Qed.

Lemma get2_entry (K : mat) (a b : nat) (x : R) : get2 K a b = Some x -> entry a b K = x.
Proof.
  unfold get2, entry, row. intros H. unfold mat in *.
  destruct (K !! a) as [r|] eqn:Ea; [|discriminate].
  rewrite (nth_lookup_Some _ _ _ _ Ea). now apply nth_lookup_Some.
Qed.

Lemma succ_mod (L a : nat) :
  (a < L)%nat -> ((a + 1) mod L)%nat = if (a + 1 =? L)%nat then O else (a + 1)%nat.
Proof.
  intros Ha. destruct (Nat.eqb_spec (a + 1) L) as [<-|Hn].
  - apply Nat.Div0.mod_same.
  - apply Nat.mod_small. lia.
Qed.

Lemma in_ring (L a b : nat) :
  (1 <= L)%nat ->
  In (a, b) (map (fun i => (i, i + 1)%nat) (seq 0 (L - 1)) ++ [((L - 1)%nat, O)]) <->
  (a < L)%nat /\ b = ((a + 1) mod L)%nat.
Proof.
  intros HL. rewrite in_app_iff, in_map_iff. cbn [In]. split.
  - intros [(i & [= <- <-] & Hi)|[[= <- <-]|[]]].
    + apply in_seq in Hi. split; [lia|]. rewrite succ_mod by lia.
      destruct (Nat.eqb_spec (i + 1) L); lia.
    + split; [lia|]. rewrite succ_mod by lia.
      destruct (Nat.eqb_spec (L - 1 + 1) L); lia.
  - intros [Ha ->]. rewrite succ_mod by lia.
    destruct (Nat.eqb_spec (a + 1) L) as [E|E].
    + right. left. f_equal. lia.
    + left. exists a. split; [reflexivity|]. apply in_seq. lia.
Qed.

(** The graph [buildGraph] returns, and when it raises. *)
Lemma buildGraph_edges (L dim : nat) :
  ((L < 3)%nat -> Hamiltonian.buildGraph L dim = None) /\
  ((3 <= L)%nat ->
   exists edges,
     Hamiltonian.buildGraph L dim = Some (edges, seq 0 L) /\
     length edges = L /\
     forall i, (i < L)%nat -> edges !! i = Some (i, ((i + 1) mod L)%nat)).
Proof.
  unfold Hamiltonian.buildGraph. split; intros HL.
  - destruct L as [|[|[|L]]]; try lia; reflexivity.
  - eexists. split; [|split].
    + assert (E : seq 0 (L - 1) ++ [(L - 1)%nat] = seq 0 L).
      { replace L with (L - 1 + 1)%nat at 3 by lia. now rewrite seq_app. }
      rewrite E.
      destruct ((map _ _ ++ _) !! 2%nat) eqn:E2; [reflexivity|].
      apply lookup_ge_None in E2. rewrite length_app, length_map, length_seq in E2.
      cbn in E2. lia.
    + rewrite length_app, length_map, length_seq. cbn. lia.
    + intros i Hi. rewrite succ_mod by assumption.
      destruct (Nat.eqb_spec (i + 1) L) as [E|E].
      * rewrite lookup_app_r by (rewrite length_map, length_seq; lia).
        rewrite length_map, length_seq. replace (i - (L - 1))%nat with O by lia.
        cbn. f_equal. f_equal. lia.
      * rewrite lookup_app_l by (rewrite length_map, length_seq; lia).
        rewrite list_lookup_fmap.
        rewrite (proj2 (lookup_seq _ _ _ _)) by (split; [reflexivity|lia]).
        reflexivity.
Qed.

(** X1.  [buildGraph] raises for fewer than three sites; for three or more
    it returns the [L] edges of the ring, the edge from [i] to its successor
    modulo [L] at position [i], with the sites [0, ..., L-1], whatever
    [dim] is. *)
Theorem buildGraph_ring (L dim : nat) :
  ((L < 3)%nat -> Hamiltonian.buildGraph L dim = None) /\
  ((3 <= L)%nat ->
   exists edges,
     Hamiltonian.buildGraph L dim = Some (edges, seq 0 L) /\
     length edges = L /\
     forall i, (i < L)%nat -> edges !! i = Some (i, ((i + 1) mod L)%nat)).
Proof. apply buildGraph_edges. Qed.

(** The ring of three sites. *)
Lemma buildGraph_ring_witness :
  exists edges,
    Hamiltonian.buildGraph 3 1 = Some (edges, seq 0 3) /\
    length edges = 3%nat /\
    forall i, (i < 3)%nat -> edges !! i = Some (i, ((i + 1) mod 3)%nat).
Proof. apply (proj2 (buildGraph_ring 3 1)). lia. Defined.

(** X2.  For a ring of three or more sites in one dimension [buildK] fills
    a symmetric array with [U/2 - mu] on the diagonal, [+t] between every
    site and its two neighbours on the ring and [0] elsewhere, and returns
    [None]; the constructor stores that [None] as [K]. *)
Theorem buildK_ring (L : nat) (U t mu : R) :
  (3 <= L)%nat ->
  exists graph K,
    Hamiltonian.buildGraph L 1 = Some graph /\
    Hamiltonian.buildK_array graph L 1 U t mu = Some K /\
    Hamiltonian.__init__ L U t mu 1
    = Some (Hamiltonian.mk L 1 U t mu graph Hamiltonian.PyNone) /\
    forall a b, (a < L)%nat -> (b < L)%nat ->
      entry a b K = entry b a K /\
      entry a b K =
        if decide (a = b) then U / 2 - mu
        else if decide (b = ((a + 1) mod L)%nat \/ a = ((b + 1) mod L)%nat) then t
        else 0.
Proof.
  intros HL.
  destruct (proj2 (buildGraph_edges L 1) HL) as (edges & Hg & _ & _).
  pose proof Hg as Hg'. unfold Hamiltonian.buildGraph in Hg'.
  destruct ((_ ++ _) !! 2%nat); [|discriminate]. cbn [mbind option_bind] in Hg'.
  injection Hg' as Hedges _.
  assert (Hadj : forall a b, adjacent edges a b <->
            ((a < L)%nat /\ b = ((a + 1) mod L)%nat) \/
            ((b < L)%nat /\ a = ((b + 1) mod L)%nat)).
  { intros a b. unfold adjacent. rewrite <- Hedges, !in_ring by lia. tauto. }
  destruct (hopping_fold L t edges (zeros L L) (indexed_zeros L)) as (K1 & E1 & HK1 & H1).
  { intros [a b] Hin. cbn [fst snd]. rewrite <- Hedges in Hin.
    apply in_ring in Hin as [Ha ->]; [|lia]. split; [assumption|].
    apply Nat.mod_upper_bound. lia. }
  destruct (onsite_fold L (U / 2 - mu) (seq 0 L) K1 HK1) as (K & E & HK & H).
  { intros s Hs. apply in_seq in Hs. lia. }
  assert (EK : Hamiltonian.buildK_array (edges, seq 0 L) L 1 U t mu = Some K).
  { unfold Hamiltonian.buildK_array. cbn [fst snd]. rewrite Nat.pow_1_r, E1.
    cbn [mbind option_bind]. exact E. }
  assert (Hentry : forall a b, (a < L)%nat -> (b < L)%nat ->
            entry a b K =
              if decide (a = b) then U / 2 - mu
              else if decide (b = ((a + 1) mod L)%nat \/ a = ((b + 1) mod L)%nat) then t
              else 0).
  { intros a b Ha Hb. apply get2_entry.
    destruct (decide (a = b)) as [<-|Hab].
    - apply (proj1 (H a a)). apply in_seq. lia.
    - rewrite (proj2 (H a b)) by tauto.
      destruct (decide _) as [Hd|Hd].
      + apply H1, Hadj. tauto.
      + rewrite (proj2 (H1 a b)) by (rewrite Hadj; tauto).
        rewrite get2_zeros.
        destruct (Nat.ltb_spec a L), (Nat.ltb_spec b L); try lia. reflexivity. }
  exists (edges, seq 0 L), K. repeat split; try assumption.
  - unfold Hamiltonian.__init__, Hamiltonian.buildK. rewrite Hg.
    cbn [mbind option_bind]. rewrite EK. reflexivity.
  - rewrite !Hentry by assumption.
    repeat destruct (decide _); try reflexivity; try tauto; congruence.
  - now apply Hentry.
Qed.

(** The ring of four sites. *)
Lemma buildK_ring_witness :
  exists graph K,
    Hamiltonian.buildGraph 4 1 = Some graph /\
    Hamiltonian.buildK_array graph 4 1 2 1 1 = Some K /\
    Hamiltonian.__init__ 4 2 1 1 1
    = Some (Hamiltonian.mk 4 1 2 1 1 graph Hamiltonian.PyNone) /\
    forall a b, (a < 4)%nat -> (b < 4)%nat ->
      entry a b K = entry b a K /\
      entry a b K =
        if decide (a = b) then 2 / 2 - 1
        else if decide (b = ((a + 1) mod 4)%nat \/ a = ((b + 1) mod 4)%nat) then 1
        else 0.
Proof. apply buildK_ring. lia. Defined.

(** ** The field array of one slice *)

Lemma fold_left_None {A B} (f : option A -> B -> option A) (xs : list B) :
  (forall x, f None x = None) -> fold_left f xs None = None.
Proof. intros Hf. induction xs as [|x xs IH]; cbn; [reflexivity|]. now rewrite Hf. Qed.

Lemma diagonal_fold (N : nat) (h : list R) (k : nat) :
  (k <= N)%nat -> (k <= length h)%nat ->
  exists V,
    fold_left (fun V_l i =>
        V_l ← V_l;
        x ← h !! i;
        Hamiltonian.setitem i i x V_l) (seq 0 k) (Some (zeros N N)) = Some V /\
    indexed N V /\
    forall a b, get2 V a b =
      if decide (a = b /\ (a < k)%nat) then h !! a else get2 (zeros N N) a b.
Proof.
  induction k as [|k IH]; intros HN Hh.
  - exists (zeros N N). split; [reflexivity|]. split; [apply indexed_zeros|].
    intros a b. destruct (decide _) as [[_ ?]|_]; [lia|reflexivity].
  - destruct IH as (V & E & HV & H); [lia|lia|].
    destruct (lookup_lt_is_Some_2 h k) as [x Hx]; [lia|].
    destruct (setitem_indexed N k k x V HV) as (V' & E' & HV'); [lia|lia|].
    exists V'. split; [|split; [assumption|]].
    + rewrite seq_S, fold_left_app, E. cbn [fold_left mbind option_bind Nat.add].
      rewrite Hx. exact E'.
    + intros a b. rewrite (setitem_get2 _ _ _ _ _ E'), H.
      repeat destruct (decide _); try reflexivity; try lia.
      match goal with Hk : _ = k /\ _ = k |- _ => destruct Hk as [-> ->] end.
      symmetry. exact Hx.
Qed.

Lemma mbind_Some {A B} (x : A) (f : A -> option B) : Some x ≫= f = f x.
Proof. reflexivity. Qed.

(** X3.  [buildV_l] returns [None]: when the array has the slice [l] and a
    row for each of the [L ** dim] sites, the array it builds has the
    field values of slice [l] on the diagonal and [0] elsewhere; without
    the slice or with fewer rows it raises. *)
Theorem buildV_l_diagonal (L dim l : nat) (config : mat) :
  ((l < ncols config)%nat -> (L ^ dim <= length config)%nat ->
   exists V_l,
     Hamiltonian.buildV_l_array L dim l config = Some V_l /\
     Hamiltonian.buildV_l L dim l config = Some Hamiltonian.PyNone /\
     forall a b, (a < L ^ dim)%nat -> (b < L ^ dim)%nat ->
       entry a b V_l = if decide (a = b) then entry a l config else 0) /\
  ((ncols config <= l)%nat \/ (length config < L ^ dim)%nat ->
   Hamiltonian.buildV_l L dim l config = None).
Proof.
  unfold Hamiltonian.buildV_l, Hamiltonian.buildV_l_array, vec. split.
  - intros Hl HN. apply Nat.ltb_lt in Hl. rewrite Hl, !mbind_Some. cbv beta.
    destruct (diagonal_fold (L ^ dim) (col l config) (L ^ dim)) as (V & E & HV & H).
    + lia.
    + unfold col. rewrite length_map. exact HN.
    + exists V. rewrite E. repeat split. intros a b Ha Hb.
      apply get2_entry. rewrite H, get2_zeros.
      destruct (Nat.ltb_spec a (L ^ dim)), (Nat.ltb_spec b (L ^ dim)); try lia.
      destruct (decide (a = b)) as [<-|Hab].
      * destruct (decide _) as [_|Hn]; [|exfalso; apply Hn; auto].
        unfold col, entry, row. rewrite list_lookup_fmap.
        destruct (lookup_lt_is_Some_2 config a) as [r Hr]; [lia|].
        unfold mat in *. rewrite Hr. cbn. f_equal.
        now rewrite (nth_lookup_Some _ _ _ _ Hr).
      * destruct (decide _) as [[? _]|_]; [contradiction|reflexivity].
  - intros [Hl|HN].
    + apply Nat.ltb_ge in Hl. rewrite Hl. reflexivity.
    + destruct (l <? ncols config)%nat; [|reflexivity]. rewrite !mbind_Some. cbv beta.
      replace (L ^ dim)%nat with (length config + S (L ^ dim - S (length config)))%nat by lia.
      rewrite seq_app, fold_left_app. cbn [seq fold_left Nat.add].
      destruct (fold_left _ (seq 0 (length config)) _) as [V|]; cbn [mbind option_bind].
      * rewrite (proj2 (lookup_ge_None _ _)) by (unfold col; now rewrite length_map).
        cbn [mbind option_bind]. now rewrite fold_left_None.
      * now rewrite fold_left_None.
Qed.

(** Two sites with the field values [+1, -1] at slice [1]. *)
Lemma buildV_l_diagonal_witness :
  exists V_l,
    Hamiltonian.buildV_l_array 2 1 1 [[1; 1]; [1; -1]] = Some V_l /\
    Hamiltonian.buildV_l 2 1 1 [[1; 1]; [1; -1]] = Some Hamiltonian.PyNone /\
    forall a b, (a < 2 ^ 1)%nat -> (b < 2 ^ 1)%nat ->
      entry a b V_l = if decide (a = b) then entry a 1 [[1; 1]; [1; -1]] else 0.
Proof. apply (proj1 (buildV_l_diagonal 2 1 1 [[1; 1]; [1; -1]])); cbn; lia. Defined.

(** ** What the computation of the matrices leaves unchanged *)

Lemma calm_ret {A} (a : A) : calm (ret a).
Proof. intros w a' w' [= _ <-]. auto. Qed.

Lemma calm_raise {A} : calm (@raise A).
Proof. intros w a w' [=]. Qed.

Lemma calm_lift {A} (o : option A) : calm (lift o).
Proof. destruct o; [apply calm_ret | apply calm_raise]. Qed.

Lemma calm_bind {A B} (c : M A) (k : A -> M B) :
  calm c -> (forall a, calm (k a)) -> calm (bind c k).
Proof.
  intros Hc Hk w b w' H. bind_inv H.
  destruct (Hc _ _ _ E) as (<- & <- & <- & <-). eapply Hk, H.
Qed.

Lemma calm_for_each {A S} (xs : list A) (body : A -> S -> M S) (s : S) :
  (forall x s, calm (body x s)) -> calm (for_each xs body s).
Proof.
  intros Hb. revert s. induction xs as [|x xs IH]; intros s; cbn [for_each].
  - apply calm_ret.
  - apply calm_bind; auto.
Qed.

Lemma calm_if {A} (b : bool) (c1 c2 : M A) :
  calm c1 -> calm c2 -> calm (if b then c1 else c2).
Proof. now destruct b. Qed.

Lemma calm_get_self {A} (f : LatticeQMC -> A) : calm (get_self f).
Proof. intros w a w' [= _ <-]. auto. Qed.

Lemma calm_set_self (f : LatticeQMC -> LatticeQMC) :
  (forall o, erased (f o) = erased o) -> calm (set_self f).
Proof. intros Hf w a w' [= _ <-]. cbn. auto. Qed.

Lemma calm_the_config : calm the_config.
Proof.
  intros w a w'. unfold the_config.
  destruct (heap w !! config (self w)); [|discriminate].
  intros [= _ <-]. auto.
Qed.

Ltac calm_tac :=
  repeat first
    [ progress intros
    | apply calm_bind
    | apply calm_for_each
    | apply calm_if
    | apply calm_set_self; reflexivity
    | apply calm_ret
    | apply calm_raise
    | apply calm_lift
    | apply calm_get_self
    | apply calm_the_config ].

Lemma calm_exp_v (l : nat) (sigma : Z) (inv : bool) : calm (_exp_v l sigma inv).
Proof. unfold _exp_v. calm_tac. Qed.

Lemma calm_times_b (sigma : Z) (l : nat) (b : mat) : calm (times_b sigma l b).
Proof. unfold times_b, read. repeat first [ apply calm_exp_v | calm_tac ]. Qed.

Lemma calm_m (sigma : Z) : calm (_m sigma).
Proof.
  unfold _m, read. repeat first [ apply calm_exp_v | apply calm_times_b | calm_tac ].
Qed.

Lemma calm_m_cyclic (sigma : Z) (l : nat) : calm (_m_cyclic sigma l).
Proof.
  unfold _m_cyclic, read.
  repeat first [ apply calm_exp_v | apply calm_times_b | calm_tac ].
Qed.

Lemma calm_gf_tau (g : mat) (sigma : Z) : calm (_gf_tau g sigma).
Proof. unfold _gf_tau, read. repeat first [ apply calm_exp_v | calm_tac ]. Qed.

(** X4.  The matrix builders and the wrapping of the Green's function only
    write the two work buffers of the solver: they leave every
    configuration, the random generator and every other attribute of the
    solver as they were. *)
Theorem matrices_only_write_buffers :
  calm _compute_m /\
  (forall l, calm (_compute_m_cyclic l)) /\
  (forall g_up g_dn, calm (_compute_gf_tau g_up g_dn)) /\
  calm weight /\
  (forall i l, calm (local_ratio i l)).
Proof.
  repeat apply conj.
  - unfold _compute_m. repeat first [ apply calm_m | calm_tac ].
  - intros l. unfold _compute_m_cyclic. repeat first [ apply calm_m_cyclic | calm_tac ].
  - intros g_up g_dn. unfold _compute_gf_tau. repeat first [ apply calm_gf_tau | calm_tac ].
  - unfold weight, _compute_m. repeat first [ apply calm_m | calm_tac ].
  - intros i l. unfold local_ratio, _compute_m. repeat first [ apply calm_m | calm_tac ].
Qed.

(** The configurations, the generator and the solver without its buffers
    are as [_compute_m] found them on one site. *)
Lemma matrices_only_write_buffers_witness :
  exists m w',
    _compute_m w1 = Some (m, w') /\
    heap w' = heap w1 /\ draws w' = draws w1 /\ drawn w' = drawn w1 /\
    erased (self w') = erased (self w1).
Proof.
  eassert (H : _compute_m w1 = Some (_, _))
    by (unfold w1, world_of, solver; ev; reflexivity).
  eexists _, _. split; [exact H|].
  exact (proj1 matrices_only_write_buffers _ _ _ H).
Defined.

(** ** The builders at their bounds *)

Lemma bind_ext {A B} (c : M A) (k1 k2 : A -> M B) (w : world) :
  (forall a w', c w = Some (a, w') -> k1 a w' = k2 a w') ->
  bind c k1 w = bind c k2 w.
Proof. unfold bind. intros H. destruct (c w) as [[a w']|]; auto. Qed.

(** [_m_cyclic] at the last slice. *)
Lemma m_cyclic_at_last_slice (sigma : Z) (w : world) (c : Configuration.t) :
  heap w !! config (self w) = Some c ->
  (1 <= Configuration.time_steps c)%nat ->
  _m_cyclic sigma (Configuration.time_steps c - 1) w = _m sigma w.
Proof.
  intros Hc Hts. unfold _m_cyclic, _m.
  apply bind_ext. intros c' w' E.
  unfold the_config in E. rewrite Hc in E. injection E as <- <-.
  apply bind_ext. intros b1 w1 _. apply bind_ext. intros e w2 _.
  apply bind_ext. intros k w3 _. apply bind_ext. intros p w4 _.
  replace (Configuration.time_steps c - (Configuration.time_steps c - 1 + 1))%nat
    with O by lia.
  reflexivity.
Qed.

(** X5.  Re-rooted at the last slice the cyclic builder is the direct
    builder: [_m_cyclic(sigma, time_steps - 1)] returns the matrix of
    [_m(sigma)] and leaves the same state. *)
Theorem m_cyclic_last_slice (sigma : Z) (w : world) (c : Configuration.t) :
  heap w !! config (self w) = Some c ->
  (1 <= Configuration.time_steps c)%nat ->
  _m_cyclic sigma (Configuration.time_steps c - 1) w = _m sigma w.
Proof. apply m_cyclic_at_last_slice. Qed.

(** One site and two slices, re-rooted at slice [1]. *)
Lemma m_cyclic_last_slice_witness : _m_cyclic 1 (2 - 1) w2 = _m 1 w2.
Proof.
  apply (m_cyclic_last_slice 1 w2 (Configuration.mk 1 2 [[1%Z; 1%Z]])).
  - reflexivity.
  - cbn. lia.
Defined.

Lemma calm_config {A} (c : M A) (w : world) (a : A) (w' : world) :
  calm c -> c w = Some (a, w') ->
  heap w' !! config (self w') = heap w !! config (self w).
Proof.
  intros Hc H. destruct (Hc _ _ _ H) as (-> & _ & _ & He).
  apply (f_equal config) in He. cbn in He. now rewrite He.
Qed.

Lemma for_each_succeeds {A S} (P : world -> Prop) (xs : list A) (body : A -> S -> M S) :
  (forall x s w, In x xs -> P w -> exists s' w', body x s w = Some (s', w') /\ P w') ->
  forall s w, P w -> exists s' w', for_each xs body s w = Some (s', w') /\ P w'.
Proof.
  induction xs as [|x xs IH]; intros Hb s w Hw; cbn [for_each].
  - now exists s, w.
  - destruct (Hb x s w (or_introl eq_refl) Hw) as (s1 & w1 & E1 & Hw1).
    destruct (IH (fun y s w Hy => Hb y s w (or_intror Hy)) s1 w1 Hw1) as (s' & w' & E & Hw').
    exists s', w'. split; [|assumption]. unfold bind. now rewrite E1.
Qed.

Lemma exp_v_succeeds (l : nat) (sigma : Z) (inv : bool) (w : world) (c : Configuration.t) :
  heap w !! config (self w) = Some c ->
  (l < Configuration.time_steps c)%nat ->
  exists b w', _exp_v l sigma inv w = Some (b, w') /\
    heap w' !! config (self w') = Some c.
Proof.
  intros Hc Hl.
  assert (E : exists b w', _exp_v l sigma inv w = Some (b, w')).
  { unfold _exp_v, bind, the_config, lift, Configuration.column. rewrite Hc.
    apply Nat.ltb_lt in Hl. rewrite Hl. cbn. destruct inv; cbn; eauto. }
  destruct E as (b & w' & E). exists b, w'. split; [assumption|].
  now rewrite (calm_config _ _ _ _ (calm_exp_v l sigma inv) E).
Qed.

Lemma exp_v_raises (l : nat) (sigma : Z) (inv : bool) (w : world) (c : Configuration.t) :
  heap w !! config (self w) = Some c ->
  (Configuration.time_steps c <= l)%nat ->
  _exp_v l sigma inv w = None.
Proof.
  intros Hc Hl. unfold _exp_v, bind, the_config, lift, Configuration.column.
  rewrite Hc. apply Nat.ltb_ge in Hl. now rewrite Hl.
Qed.

Lemma times_b_succeeds (sigma : Z) (l : nat) (b : mat) (w : world) (c : Configuration.t) :
  heap w !! config (self w) = Some c ->
  (l < Configuration.time_steps c)%nat ->
  exists b' w', times_b sigma l b w = Some (b', w') /\
    heap w' !! config (self w') = Some c.
Proof.
  intros Hc Hl.
  destruct (exp_v_succeeds l sigma inv_default w c Hc Hl) as (e & w1 & E & Hc1).
  unfold times_b, bind. rewrite E. cbn. eauto.
Qed.

(** Small arrays are square: the entries are found one by one. *)
Ltac square_tac :=
  let a := fresh "a" in
  let b := fresh "b" in
  let H := fresh "H" in
  let x := fresh "x" in
  let Hx := fresh "Hx" in
  split; [reflexivity|]; intros a b; unfold get2;
  destruct a as [|[|a]]; destruct b as [|[|b]]; cbn; split; intros H;
  try lia; try (eexists; reflexivity); try (destruct H as [x Hx]; discriminate).

Lemma well_shaped_w2 : well_shaped w2 (Configuration.mk 1 2 [[1%Z; 1%Z]]).
Proof.
  unfold well_shaped, well_formed, w2, world_of, solver.
  cbn [self heap config n_sites exp_k exp_v exp_v_inv Configuration.array
       Configuration.n_sites Configuration.time_steps zeros repeat].
  split; [reflexivity|]. split; [split; [reflexivity|repeat constructor]|].
  split; [reflexivity|]. split; [square_tac|]. split; square_tac.
Qed.

(** X6.  On a solver whose arrays have the shapes the constructor gives
    them, the only exception of the matrix builders is the slice out of
    range: [_m_cyclic(sigma, l)] returns a matrix for every slice [l]
    below the [time_steps] of the configuration and raises for every
    other, and [_m(sigma)] returns a matrix unless there is no slice at
    all. *)
Theorem builders_raise_only_out_of_range (sigma : Z) (l : nat) (w : world)
    (c : Configuration.t) :
  well_shaped w c ->
  ((l < Configuration.time_steps c)%nat ->
   exists m w', _m_cyclic sigma l w = Some (m, w')) /\
  ((Configuration.time_steps c <= l)%nat -> _m_cyclic sigma l w = None) /\
  ((1 <= Configuration.time_steps c)%nat -> exists m w', _m sigma w = Some (m, w')) /\
  (Configuration.time_steps c = O -> _m sigma w = None).
Proof.
  intros (Hc & _).
  assert (Hcyc : forall l, (l < Configuration.time_steps c)%nat ->
            exists m w', _m_cyclic sigma l w = Some (m, w')).
  { clear l. intros l Hl. unfold _m_cyclic.
    destruct (exp_v_succeeds l sigma inv_default w c Hc Hl) as (e & w1 & E & Hc1).
    destruct (for_each_succeeds (fun w => heap w !! config (self w) = Some c)
                (rev (seq 0 l)) (times_b sigma)) with (s := dot (exp_v_inv (self w1)) (exp_k (self w1))) (w := w1)
      as (p1 & w2 & E1 & Hc2); [|assumption|].
    { intros x s w0 Hx Hw0. apply times_b_succeeds; [assumption|].
      apply in_rev, in_seq in Hx. lia. }
    destruct (for_each_succeeds (fun w => heap w !! config (self w) = Some c)
                (rev (seq (l + 1) (Configuration.time_steps c - (l + 1))))
                (times_b sigma)) with (s := p1) (w := w2)
      as (p2 & w3 & E2 & Hc3); [|assumption|].
    { intros x s w0 Hx Hw0. apply times_b_succeeds; [assumption|].
      apply in_rev, in_seq in Hx. lia. }
    assert (Hb : self_exp_v_inv = e /\ True).
    { unfold _exp_v, bind, the_config, lift in E. rewrite Hc in E.
      destruct (Configuration.column c l); [|discriminate]. cbn in E.
      injection E as <- _. auto. }
    destruct Hb as [<- _].
    eexists _, _. unfold bind at 1, the_config. rewrite Hc.
    unfold bind at 1. rewrite E. unfold bind at 1, read, get_self. cbn [fst snd].
    unfold bind at 1. unfold bind at 1. rewrite E1. unfold bind at 1. rewrite E2.
    reflexivity. }
  split; [apply Hcyc|]. split; [|split].
  - intros Hl. unfold _m_cyclic, bind at 1, the_config. rewrite Hc.
    unfold bind at 1. now rewrite (exp_v_raises l sigma _ w c Hc Hl).
  - intros Hts. rewrite <- (m_cyclic_at_last_slice sigma w c Hc Hts). apply Hcyc. lia.
  - intros Hts. unfold _m, bind at 1, the_config. rewrite Hc.
    unfold bind at 1. rewrite (exp_v_raises _ sigma _ w c Hc); [reflexivity|lia].
Qed.

(** Two slices: slice [0] has a matrix and slice [2] has none. *)
Lemma builders_raise_only_out_of_range_witness :
  (exists m w', _m_cyclic 1 0 w2 = Some (m, w')) /\ _m_cyclic 1 2 w2 = None.
Proof.
  destruct (builders_raise_only_out_of_range 1 0 w2 (Configuration.mk 1 2 [[1%Z; 1%Z]])
              well_shaped_w2) as (H0 & _).
  destruct (builders_raise_only_out_of_range 1 2 w2 (Configuration.mk 1 2 [[1%Z; 1%Z]])
              well_shaped_w2) as (_ & H2 & _).
  split; [apply H0 | apply H2]; cbn; lia.
Defined.

(** ** The slices of the wrapped Green's function *)

Lemma for_each_state {A S} (P : S -> Prop) (xs : list A) (body : A -> S -> M S) :
  (forall x s w s' w', In x xs -> P s -> body x s w = Some (s', w') -> P s') ->
  forall s w s' w', P s -> for_each xs body s w = Some (s', w') -> P s'.
Proof.
  induction xs as [|x xs IH]; intros Hb s w s' w' Hs H; cbn [for_each] in H.
  - now injection H as <- <-.
  - bind_inv H. eapply (IH (fun y s w s' w' Hy => Hb y s w s' w' (or_intror Hy))); [|exact H].
    eapply Hb; [now left|exact Hs|exact E].
Qed.

Lemma lookup_rev_last {A} (g : list A) : rev g !! (length g - 1)%nat = g !! O.
Proof.
  destruct g as [|x g]; [reflexivity|]. cbn [rev length].
  rewrite lookup_app_r by (rewrite length_rev; lia).
  rewrite length_rev. replace (S (length g) - 1 - length g)%nat with O by lia.
  reflexivity.
Qed.

(** X7.  [_gf_tau] raises without time steps.  Given a [g_beta] of the
    solver's [n_sites] by [n_sites], with one time step it returns the
    single slice [g_beta] and touches nothing; and whenever it returns, it
    returns [time_steps] slices of which the last is the [g_beta] it was
    given. *)
Theorem gf_tau_slices (g_beta : mat) (sigma : Z) (w : world) :
  (time_steps (self w) = O -> _gf_tau g_beta sigma w = None) /\
  (square (n_sites (self w)) g_beta ->
   (time_steps (self w) = 1%nat -> _gf_tau g_beta sigma w = Some ([g_beta], w)) /\
   (forall g w', _gf_tau g_beta sigma w = Some (g, w') ->
      length g = time_steps (self w) /\
      g !! (time_steps (self w) - 1)%nat = Some g_beta)).
Proof.
  unfold _gf_tau. split; [|intros _; split].
  - intros Hts. unfold bind, get_self. rewrite Hts. reflexivity.
  - intros Hts. unfold bind, get_self. rewrite Hts. reflexivity.
  - intros g w' H. unfold bind at 1 2, get_self at 1 2 in H.
    destruct (Nat.eqb_spec (time_steps (self w)) 0) as [E0|E0]; [discriminate|].
    bind_inv H. injection H as <- <-.
    eapply (for_each_state
              (fun g => length g = time_steps (self w) /\ g !! O = Some g_beta)) in E.
    + destruct E as [Hlen H0]. split; [now rewrite length_rev|].
      rewrite <- Hlen, lookup_rev_last. exact H0.
    + intros l s wa s' wb Hl [Hlen H0] Hb.
      apply in_seq in Hl.
      repeat (bind_inv Hb). injection Hb as <- <-.
      split; [now rewrite length_insert|].
      rewrite list_lookup_insert_ne by lia. exact H0.
    + split.
      * rewrite length_insert, repeat_length. reflexivity.
      * apply list_lookup_insert_eq. rewrite repeat_length. lia.
Qed.

(** One site and two slices. *)
Lemma gf_tau_slices_witness :
  exists g w',
    _gf_tau [[4 / 5]] 1 w2 = Some (g, w') /\
    length g = 2%nat /\ g !! 1%nat = Some [[4 / 5]].
Proof.
  eassert (H : _gf_tau [[4 / 5]] 1 w2 = Some (_, _))
    by (unfold w2, world_of, solver; ev; reflexivity).
  assert (Hsq : square (n_sites (self w2)) [[4 / 5]]) by square_tac.
  eexists _, _. split; [exact H|].
  exact (proj2 (proj2 (gf_tau_slices [[4 / 5]] 1 w2) Hsq) _ _ H).
Defined.

(** ** The random numbers the loops draw *)

Lemma for_each_inv {A St} (I : St -> world -> Prop) (mu : St -> world -> nat) (k : nat)
    (xs : list A) (body : A -> St -> M St) :
  (forall x s w s' w', I s w -> body x s w = Some (s', w') ->
     I s' w' /\ mu s' w' = (mu s w + k)%nat) ->
  forall s w s' w', I s w -> for_each xs body s w = Some (s', w') ->
    I s' w' /\ mu s' w' = (mu s w + length xs * k)%nat.
Proof.
  intros Hb. induction xs as [|x xs IH]; intros s w s' w' Hw H; cbn [for_each] in H.
  - injection H as <- <-. split; [assumption|cbn; lia].
  - bind_inv H. destruct (Hb _ _ _ _ _ Hw E) as [Hw1 Hn].
    destruct (IH _ _ _ _ Hw1 H) as [Hw' Hn']. split; [assumption|].
    rewrite Hn', Hn. cbn [length]. lia.
Qed.

(** A loop over [loop_generator] whose passes each draw one number draws
    one number for every site and slice of every sweep. *)
Lemma loop_generator_draws {St} (I : St -> world -> Prop) (N T sweeps : nat)
    (body : nat -> nat -> nat -> St -> M St) :
  (forall s w, I s w ->
     HubbardModel.n_sites (model (self w)) = N /\
     exists c, heap w !! config (self w) = Some c /\ Configuration.time_steps c = T) ->
  (forall sweep s w, I s w ->
     I s (mkWorld (set_it sweep (self w)) (heap w) (draws w) (drawn w))) ->
  (forall sweep i l s w s' w', I s w -> body sweep i l s w = Some (s', w') ->
     I s' w' /\ drawn w' = S (drawn w)) ->
  forall s w s' w', I s w -> loop_generator sweeps body s w = Some (s', w') ->
    I s' w' /\ drawn w' = (drawn w + sweeps * (N * T))%nat.
Proof.
  intros HI Hit Hb s w s' w' Hw H. unfold loop_generator in H.
  apply (for_each_inv I (fun _ w => drawn w) (N * T)) in H; [|clear s w s' w' Hw H|exact Hw].
  - rewrite length_seq in H. exact H.
  - intros sweep s w s' w' Hw H.
    bind_inv H. injection E as <- <-.
    bind_inv H. injection E as <- <-.
    bind_inv H. unfold the_config in E.
    pose proof (Hit sweep s w Hw) as Hw1.
    destruct (HI _ _ Hw1) as (HN & c & Hc & HT).
    rewrite Hc in E. injection E as <- <-.
    apply (for_each_inv I (fun _ w => drawn w) 1) in H; [| |exact Hw1].
    + destruct H as [Hw' ->]. split; [assumption|].
      rewrite length_list_prod, !length_seq. cbn [drawn self model set_it] in *.
      rewrite HN, HT. lia.
    + intros il s0 w0 s1 w1 Hw0 H0.
      destruct (Hb _ _ _ _ _ _ _ Hw0 H0) as [? ->]. split; [assumption|lia].
Qed.

(** ** The fast loops work in place *)

Lemma abs_alter (l : nat) (r : list Z) :
  map Z.abs (alter Z.opp l r) = map Z.abs r.
Proof.
  revert l. induction r as [|h r IH]; intros [|l]; cbn; f_equal; auto using Z.abs_opp.
Qed.

Lemma shape_flipped (c : Configuration.t) (i l : nat) :
  shape (Configuration.flipped c i l) = shape c.
Proof.
  unfold shape, Configuration.flipped. cbn. f_equal.
  generalize (Configuration.array c). intros a. revert i.
  induction a as [|r a IH]; intros [|i]; cbn; f_equal; auto using abs_alter.
Qed.

Lemma in_place_refl (w : world) : in_place w w.
Proof. repeat split. Qed.

Lemma in_place_config (w0 w : world) :
  in_place w0 w -> config (self w) = config (self w0).
Proof. intros (H & _). apply (f_equal config) in H. exact H. Qed.

Lemma in_place_calm {A} (c : M A) (w0 w : world) (a : A) (w' : world) :
  calm c -> c w = Some (a, w') -> in_place w0 w ->
  in_place w0 w' /\ drawn w' = drawn w.
Proof.
  intros Hc H (Hs & Hd & Hl & Ho & Hp).
  destruct (Hc _ _ _ H) as (Eh & Ed & En & Es).
  split; [|assumption]. unfold in_place. rewrite Eh, Ed.
  repeat split; try assumption.
  rewrite <- Hs. unfold settled. now rewrite Es.
Qed.

Lemma in_place_set_self (f : LatticeQMC -> LatticeQMC) (w0 w : world) :
  (forall o, settled (f o) = settled o) -> in_place w0 w ->
  in_place w0 (mkWorld (f (self w)) (heap w) (draws w) (drawn w)).
Proof.
  intros Hf (Hs & Hd & Hl & Ho & Hp). unfold in_place. cbn [self heap draws].
  repeat split; try assumption. now rewrite Hf.
Qed.

Lemma in_place_random_rand (w0 w : world) (r : R) (w' : world) :
  random_rand w = Some (r, w') -> in_place w0 w ->
  in_place w0 w' /\ drawn w' = S (drawn w).
Proof. intros [= _ <-] H. split; [exact H|reflexivity]. Qed.

Lemma in_place_config_update (i l : nat) (w0 w : world) (u : unit) (w' : world) :
  config_update i l w = Some (u, w') -> in_place w0 w ->
  in_place w0 w' /\ drawn w' = drawn w.
Proof.
  intros [= _ <-] Hw. pose proof (in_place_config _ _ Hw) as Hc.
  destruct Hw as (Hs & Hd & Hl & Ho & Hp).
  split; [|reflexivity]. unfold in_place. cbn [self heap draws].
  rewrite Hc. repeat split; try assumption.
  - now rewrite length_alter.
  - intros j Hj. rewrite list_lookup_alter_ne by congruence. now apply Ho.
  - rewrite list_lookup_alter_eq, <- Hp.
    destruct (heap w !! config (self w0)); cbn; [|reflexivity].
    now rewrite shape_flipped.
Qed.

Lemma calm_compute_m : calm _compute_m.
Proof. unfold _compute_m. repeat first [ apply calm_m | calm_tac ]. Qed.

Lemma calm_compute_gf_tau (g_up g_dn : mat) : calm (_compute_gf_tau g_up g_dn).
Proof. unfold _compute_gf_tau. repeat first [ apply calm_gf_tau | calm_tac ]. Qed.

Lemma calm_local_ratio (i l : nat) : calm (local_ratio i l).
Proof. unfold local_ratio. repeat first [ apply calm_compute_m | calm_tac ]. Qed.

(** What the loop bounds read is the same in a world reached in place. *)
Lemma in_place_bounds (w0 w : world) (c0 : Configuration.t) :
  in_place w0 w -> heap w0 !! config (self w0) = Some c0 ->
  HubbardModel.n_sites (model (self w)) = HubbardModel.n_sites (model (self w0)) /\
  exists c, heap w !! config (self w) = Some c /\
            Configuration.time_steps c = Configuration.time_steps c0.
Proof.
  intros Hw Hc0. pose proof (in_place_config _ _ Hw) as Hc.
  destruct Hw as (Hs & _ & _ & _ & Hp). split.
  - apply (f_equal model) in Hs. cbn in Hs. now rewrite Hs.
  - rewrite Hc, Hc0 in *. destruct (heap w !! config (self w0)) as [c|]; [|discriminate].
    exists c. split; [reflexivity|]. cbn in Hp. injection Hp as _ Ht _. exact Ht.
Qed.

(** One pass of the warm-up loop: one draw, and at most a flip. *)
Lemma warmup_pass_in_place (i l : nat) (w0 w : world) (u : unit) (w' : world) :
  in_place w0 w ->
  (ar <- local_ratio i l ;;
   r <- random_rand ;;
   if Rlt_dec r (snd ar) then config_update i l else ret tt) w = Some (u, w') ->
  in_place w0 w' /\ drawn w' = S (drawn w).
Proof.
  intros Hw H. bind_inv H.
  destruct (in_place_calm _ _ _ _ _ (calm_local_ratio i l) E Hw) as [Hw1 <-].
  bind_inv H. destruct (in_place_random_rand _ _ _ _ E0 Hw1) as [Hw2 <-].
  destruct (Rlt_dec _ _).
  - apply (in_place_config_update _ _ _ _ _ _ H) in Hw2 as [? ->]. now split.
  - injection H as _ <-. now split.
Qed.

(** One pass of the measurement loop: one draw, and at most a flip. *)
Lemma measure_step_in_place (n i l : nat) (v : fast_vars) (w0 w : world)
    (v' : fast_vars) (w' : world) :
  in_place w0 w -> measure_step n i l v w = Some (v', w') ->
  in_place w0 w' /\ drawn w' = S (drawn w).
Proof.
  intros Hw H. unfold measure_step in H. bind_inv H.
  destruct (in_place_calm _ _ _ _ _ (calm_local_ratio i l) E Hw) as [Hw1 <-].
  bind_inv H. destruct (in_place_random_rand _ _ _ _ E0 Hw1) as [Hw2 <-].
  bind_inv H. injection H as _ <-.
  destruct (Rlt_dec _ _).
  - bind_inv E1.
    match goal with
    | Hg : _compute_gf_tau _ _ _ = Some _ |- _ =>
        destruct (in_place_calm _ _ _ _ _ (calm_compute_gf_tau _ _) Hg Hw2) as [Hw3 <-]
    end.
    bind_inv E1. injection E1 as _ <-.
    match goal with
    | Hu : config_update _ _ _ = Some _ |- _ =>
        apply (in_place_config_update _ _ _ _ _ _ Hu) in Hw3 as [? ->]
    end.
    now split.
  - injection E1 as _ <-. now split.
Qed.

(** [warmup_loop] from a world reached in place. *)
Lemma warmup_loop_from (w0 w : world) (c0 : Configuration.t) (w' : world) :
  in_place w0 w ->
  heap w0 !! config (self w0) = Some c0 ->
  warmup_loop w = Some (tt, w') ->
  in_place w0 w' /\
  drawn w' = (drawn w + warm_sweeps (self w0) *
               (HubbardModel.n_sites (model (self w0)) * Configuration.time_steps c0))%nat.
Proof.
  intros Hw Hc H. unfold warmup_loop in H.
  bind_inv H. injection E as _ <-.
  bind_inv H. injection E as <- <-.
  apply (in_place_set_self (set_status "Warmup") _ _ (fun _ => eq_refl)) in Hw.
  match type of H with
  | loop_generator ?m _ _ _ = _ =>
      assert (Hm : m = warm_sweeps (self w0));
      [ destruct Hw as (Hs & _); apply (f_equal warm_sweeps) in Hs; exact Hs
      | rewrite Hm in H ]
  end.
  apply (loop_generator_draws (fun _ w1 => in_place w0 w1)
           (HubbardModel.n_sites (model (self w0))) (Configuration.time_steps c0))
    in H; [exact H| | | |exact Hw].
  - intros _ w1 H1. apply (in_place_bounds _ _ _ H1 Hc).
  - intros sweep _ w1 H1. now apply in_place_set_self.
  - intros sweep i l [] w1 [] w2 H1 H2. apply (warmup_pass_in_place _ _ _ _ _ _ H1 H2).
Qed.

(** X8.  The fast warm-up works in place.  When [warmup_loop] returns,
    it has drawn one random number for every site and slice of every
    warm-up sweep, [warm_sweeps * n_sites * time_steps] in all, and the
    world differs from the one it started in by flips of the configuration
    [self.config] names only: nothing was allocated, no other
    configuration was written, [self.config] was not assigned, and the
    configuration has its sizes and the magnitudes of its values. *)
Theorem warmup_loop_in_place (w : world) (c : Configuration.t) (w' : world) :
  heap w !! config (self w) = Some c ->
  warmup_loop w = Some (tt, w') ->
  in_place w w' /\
  drawn w' = (drawn w + warm_sweeps (self w) *
               (HubbardModel.n_sites (model (self w)) * Configuration.time_steps c))%nat.
Proof. apply warmup_loop_from, in_place_refl. Qed.

(** The warm-up of one sweep over one site and two slices draws twice and
    ends in a world reached in place. *)
Lemma warmup_loop_in_place_witness :
  exists w',
    warmup_loop w2 = Some (tt, w') /\
    in_place w2 w' /\
    drawn w' = (drawn w2 + warm_sweeps (self w2) *
                 (HubbardModel.n_sites (model (self w2)) * 2))%nat.
Proof.
  eassert (H : warmup_loop w2 = Some (tt, _)).
  { unfold warmup_loop, loop_generator, w2, world_of, solver. drive. reflexivity. }
  eexists. split; [exact H|].
  exact (warmup_loop_in_place w2 _ _ eq_refl H).
Defined.

(** From a run [H] of [bind c k] with [c] calm, in a world [Hw] reached in
    place, the run of [k]; [D] records that [c] drew nothing. *)
Ltac calm_step H Hw D :=
  let a := fresh "a" in
  let w := fresh "w" in
  let E := fresh "E" in
  let Hc := fresh "Hc" in
  let Hw' := fresh "Hw" in
  apply bind_Some in H as (a & w & E & H);
  match type of E with
  | ?c _ = _ =>
      assert (Hc : calm c)
        by first [ apply calm_compute_m | apply calm_compute_gf_tau
                 | apply calm_local_ratio | solve [calm_tac] ]
  end;
  destruct (in_place_calm _ _ _ _ _ Hc E Hw) as [Hw' D];
  clear Hc Hw; rename Hw' into Hw.

(** [measure_loop] from a world reached in place. *)
Lemma measure_loop_from (w0 w : world) (c0 : Configuration.t)
    (res : ndarray * ndarray) (w' : world) :
  in_place w0 w ->
  heap w0 !! config (self w0) = Some c0 ->
  measure_loop w = Some (res, w') ->
  in_place w0 w' /\
  drawn w' = (drawn w + meas_sweeps (self w0) *
               (HubbardModel.n_sites (model (self w0)) * Configuration.time_steps c0))%nat.
Proof.
  intros Hw Hc H. unfold measure_loop in H.
  bind_inv H. injection H as _ <-. rename E into H. unfold measure_sweeps in H.
  bind_inv H. injection E as _ <-.
  apply (in_place_set_self (set_status "Measurement") _ _ (fun _ => eq_refl)) in Hw.
  calm_step H Hw D1. calm_step H Hw D2. calm_step H Hw D3.
  calm_step H Hw D4. calm_step H Hw D5. calm_step H Hw D6.
  match type of H with
  | loop_generator ?m _ _ _ = _ =>
      assert (Hm : m = meas_sweeps (self w0));
      [ match goal with E : get_self meas_sweeps _ = _ |- _ => injection E as <- <- end;
        destruct Hw as (Hs & _); apply (f_equal meas_sweeps) in Hs; exact Hs
      | rewrite Hm in H ]
  end.
  apply (loop_generator_draws (fun _ w1 => in_place w0 w1)
           (HubbardModel.n_sites (model (self w0))) (Configuration.time_steps c0))
    in H; [| | | |exact Hw].
  - destruct H as [H ->]. split; [exact H|]. f_equal. cbn [drawn] in *. congruence.
  - intros _ w1' H1. apply (in_place_bounds _ _ _ H1 Hc).
  - intros sweep _ w1' H1. now apply in_place_set_self.
  - intros sweep i l v1 w1' v2 w2' H1 H2. apply (measure_step_in_place _ _ _ _ _ _ _ _ H1 H2).
Qed.

(** X9.  The fast measurement works in place.  When [measure_loop]
    returns, it has drawn one random number for every site and slice of
    every measurement sweep, [meas_sweeps * n_sites * time_steps] in all,
    and the world differs from the one it started in by flips of the
    configuration [self.config] names only. *)
Theorem measure_loop_in_place (w : world) (c : Configuration.t)
    (res : ndarray * ndarray) (w' : world) :
  heap w !! config (self w) = Some c ->
  measure_loop w = Some (res, w') ->
  in_place w w' /\
  drawn w' = (drawn w + meas_sweeps (self w) *
               (HubbardModel.n_sites (model (self w)) * Configuration.time_steps c))%nat.
Proof. apply measure_loop_from, in_place_refl. Qed.

(** The measurement of one sweep over one site and one slice draws once
    and ends in a world reached in place. *)
Lemma measure_loop_in_place_witness :
  exists res w',
    measure_loop w1 = Some (res, w') /\
    in_place w1 w' /\
    drawn w' = (drawn w1 + meas_sweeps (self w1) *
                 (HubbardModel.n_sites (model (self w1)) * 1))%nat.
Proof.
  eassert (H : measure_loop w1 = Some (_, _)).
  { unfold measure_loop, measure_sweeps, loop_generator, w1, world_of, solver.
    drive. ev. reflexivity. }
  eexists _, _. split; [exact H|].
  exact (measure_loop_in_place w1 _ _ _ eq_refl H).
Defined.

(** ** The slow measurement loop copies and flips *)

Lemma grown_refl (w : world) : grown w w.
Proof. repeat split; auto. Qed.

Lemma grown_config (w0 w : world) :
  grown w0 w -> config (self w) = config (self w0).
Proof. intros (H & _). apply (f_equal config) in H. exact H. Qed.

Lemma grown_calm {A} (c : M A) (w0 w : world) (a : A) (w' : world) :
  calm c -> c w = Some (a, w') -> grown w0 w ->
  grown w0 w' /\ drawn w' = drawn w.
Proof.
  intros Hc H (Hs & Hd & Hl & Ho & Hp).
  destruct (Hc _ _ _ H) as (Eh & Ed & En & Es).
  split; [|assumption]. unfold grown. rewrite Eh, Ed.
  repeat split; try assumption.
  rewrite <- Hs. unfold settled. now rewrite Es.
Qed.

Lemma grown_set_self (f : LatticeQMC -> LatticeQMC) (w0 w : world) :
  (forall o, settled (f o) = settled o) -> grown w0 w ->
  grown w0 (mkWorld (f (self w)) (heap w) (draws w) (drawn w)).
Proof.
  intros Hf (Hs & Hd & Hl & Ho & Hp). unfold grown. cbn [self heap draws].
  repeat split; try assumption. now rewrite Hf.
Qed.

Lemma grown_random_rand (w0 w : world) (r : R) (w' : world) :
  random_rand w = Some (r, w') -> grown w0 w ->
  grown w0 w' /\ drawn w' = S (drawn w).
Proof. intros [= _ <-] H. split; [exact H|reflexivity]. Qed.

Lemma grown_config_update (i l : nat) (w0 w : world) (u : unit) (w' : world) :
  config_update i l w = Some (u, w') -> grown w0 w ->
  grown w0 w' /\ drawn w' = drawn w.
Proof.
  intros [= _ <-] Hw. pose proof (grown_config _ _ Hw) as Hc.
  destruct Hw as (Hs & Hd & Hl & Ho & Hp).
  split; [|reflexivity]. unfold grown. cbn [self heap draws].
  rewrite Hc. repeat split; try assumption.
  - now rewrite length_alter.
  - intros j Hj Hlt. rewrite list_lookup_alter_ne by congruence. now apply Ho.
  - rewrite list_lookup_alter_eq, <- Hp.
    destruct (heap w !! config (self w0)); cbn; [|reflexivity].
    now rewrite shape_flipped.
Qed.

Lemma grown_config_copy (w0 w : world) (r : nat) (w' : world) :
  config_copy w = Some (r, w') -> grown w0 w ->
  grown w0 w' /\ drawn w' = drawn w /\ length (heap w') = S (length (heap w)).
Proof.
  intros H Hw. pose proof (grown_config _ _ Hw) as Hc.
  destruct Hw as (Hs & Hd & Hl & Ho & Hp).
  unfold config_copy in H. rewrite Hc in H.
  destruct (heap w !! config (self w0)) as [c|] eqn:E; [|discriminate].
  injection H as _ <-. cbn [self heap draws drawn].
  split; [|split; [reflexivity|rewrite length_app; cbn; lia]].
  unfold grown. cbn [self heap draws].
  repeat split; try assumption.
  - rewrite length_app. lia.
  - intros j Hj Hlt. rewrite lookup_app_l by lia. now apply Ho.
  - rewrite lookup_app_l by (apply lookup_lt_Some in E; exact E).
    now rewrite E.
Qed.

(** From a run [H] of [bind c k] with [c] calm, in a world [Hw] grown from
    the first, the run of [k]; [D] records that [c] drew nothing. *)
Ltac grown_step H Hw D :=
  let a := fresh "a" in
  let w := fresh "w" in
  let E := fresh "E" in
  let Hc := fresh "Hc" in
  let Hw' := fresh "Hw" in
  apply bind_Some in H as (a & w & E & H);
  match type of E with
  | ?c _ = _ =>
      assert (Hc : calm c)
        by first [ apply calm_compute_m | apply calm_compute_gf_tau
                 | apply calm_local_ratio
                 | unfold _compute_m_cyclic;
                   solve [repeat first [ apply calm_m_cyclic | calm_tac ]]
                 | solve [calm_tac] ]
  end;
  destruct (grown_calm _ _ _ _ _ Hc E Hw) as [Hw' D];
  let Eh := fresh "Eh" in
  pose proof (proj1 (Hc _ _ _ E)) as Eh;
  clear Hc Hw; rename Hw' into Hw.

(** One pass of the slow measurement loop: one draw, flips of the
    configuration [self.config] names and at most one copy. *)
Lemma measure_det_step_grown (l i : nat) (v : det_vars) (w0 w : world)
    (v' : det_vars) (w' : world) :
  grown w0 w -> measure_det_step l i v w = Some (v', w') ->
  grown w0 w' /\ drawn w' = S (drawn w).
Proof.
  intros Hw H. unfold measure_det_step in H.
  bind_inv H. apply (grown_config_update _ _ _ _ _ _ E) in Hw as [Hw D0].
  grown_step H Hw D1.
  bind_inv H. apply (grown_random_rand _ _ _ _ E1) in Hw as [Hw D2].
  bind_inv H. injection H as _ <-.
  match goal with
  | Hb : (if Rlt_dec _ _ then _ else _) _ = Some _ |- _ => rename Hb into H
  end.
  destruct (Rlt_dec _ _).
  - grown_step H Hw D3. grown_step H Hw D4.
    bind_inv H. injection H as _ <-.
    match goal with
    | Hu : config_copy _ = Some _ |- _ =>
        apply (grown_config_copy _ _ _ _ Hu) in Hw as (Hw & D5 & _)
    end.
    split; [exact Hw|]. congruence.
  - bind_inv H. injection H as _ <-.
    match goal with
    | Hu : config_update _ _ _ = Some _ |- _ =>
        apply (grown_config_update _ _ _ _ _ _ Hu) in Hw as [Hw D5]
    end.
    split; [exact Hw|]. congruence.
Qed.

(** The runs of [get_self] among the hypotheses are replaced by what they
    read. *)
Ltac reads :=
  repeat match goal with
         | E : get_self _ _ = Some _ |- _ => cbv [get_self] in E; injection E as <- <-
         end.

(** [measure_loop_det], run to its end. *)
Lemma measure_loop_det_run (w : world) (res : ndarray * ndarray) (w' : world) :
  measure_loop_det w = Some (res, w') ->
  grown w w' /\
  (length (heap w) < length (heap w'))%nat /\
  drawn w' = (drawn w + meas_sweeps (self w) *
               (time_steps (self w) * n_sites (self w)))%nat.
Proof.
  intros H. unfold measure_loop_det in H.
  bind_inv H. bind_inv H. cbv [get_self ret] in E0, H.
  injection E0 as _ <-. injection H as _ <-.
  rename E into H. unfold measure_det_sweeps in H.
  bind_inv H. injection E as _ <-.
  pose proof (grown_set_self (set_status "Measurement") w w (fun _ => eq_refl)
                (grown_refl w)) as Hw.
  grown_step H Hw D1.
  bind_inv H. apply (grown_config_copy _ _ _ _ E0) in Hw as (Hw & D2 & L2).
  grown_step H Hw D3. grown_step H Hw D4. grown_step H Hw D5.
  destruct (_ =? 0)%nat; [discriminate|].
  grown_step H Hw D6. grown_step H Hw D7.
  repeat match goal with
         | E : get_self _ _ = Some _ |- _ => injection E as <- <-
         | E : lift _ _ = Some _ |- _ =>
             apply (calm_lift _ _ _ _) in E as (_ & _ & _ & E)
         end.
  assert (Hf : forall w1, grown w w1 ->
            meas_sweeps (self w1) = meas_sweeps (self w) /\
            time_steps (self w1) = time_steps (self w) /\
            n_sites (self w1) = n_sites (self w)).
  { intros w1 (Hs & _). repeat split;
      [ apply (f_equal meas_sweeps) in Hs | apply (f_equal time_steps) in Hs
      | apply (f_equal n_sites) in Hs ]; exact Hs. }
  apply (for_each_inv (fun _ w1 => grown w w1 /\ (length (heap w) < length (heap w1))%nat)
           (fun _ w1 => drawn w1) (time_steps (self w) * n_sites (self w)))
    in H.
  - destruct H as [[Hg Hl] Hd]. split; [exact Hg|]. split; [exact Hl|].
    rewrite Hd, length_seq. cbn [drawn] in *.
    match goal with
    | |- (_ + ?m * _ = _)%nat =>
        replace m with (meas_sweeps (self w)) by (symmetry; apply Hf; assumption)
    end.
    f_equal. congruence.
  - intros sweep v1 wa v2 wb [Ha La] Hb.
    bind_inv Hb. reads.
    apply (for_each_inv (fun _ w1 => grown w w1 /\ (length (heap w) < length (heap w1))%nat)
             (fun _ w1 => drawn w1) (n_sites (self w))) in Hb.
    + destruct Hb as [Hg ->]. split; [exact Hg|].
      rewrite length_rev, length_seq. destruct (Hf _ Ha) as (_ & -> & _). reflexivity.
    + intros l v3 wc v4 wd [Hc Lc] Hd.
      bind_inv Hd. reads.
      apply (for_each_inv (fun _ w1 => grown w w1 /\ (length (heap w) < length (heap w1))%nat)
               (fun _ w1 => drawn w1) 1) in Hd.
      * destruct Hd as [Hg ->]. split; [exact Hg|].
        rewrite length_seq. destruct (Hf _ Hc) as (_ & _ & ->). lia.
      * intros i v5 we v6 wf [He Le] Hf'.
        pose proof (measure_det_step_grown _ _ _ _ _ _ _ He Hf') as [Hg ->].
        split; [|lia]. split; [exact Hg|].
        assert (length (heap we) <= length (heap wf))%nat; [|lia].
        apply (measure_det_step_grown _ _ _ we we _ _ (grown_refl we)) in Hf' as [(_ & _ & Hl & _) _].
        exact Hl.
      * split; assumption.
    + split; assumption.
  - split; [exact Hw|]. cbn [heap] in *.
    match goal with
    | L : length (heap ?x) = S (length (heap ?y)) |- (_ < length (heap ?z))%nat =>
        assert (length (heap z) = length (heap x)) by congruence;
        assert (length (heap y) = length (heap w)) by congruence
    end.
    lia.
Qed.

(** X10.  The slow measurement copies and flips.  When
    [measure_loop_det] returns, it has drawn one random number for every
    site of every slice of every measurement sweep,
    [meas_sweeps * time_steps * n_sites] in all with the sizes the solver
    holds; it has allocated at least the snapshot it starts with; the
    objects that existed before are where they were, and of these only
    the configuration [self.config] names may have been written, by
    flips; [self.config] was not assigned. *)
Theorem measure_loop_det_grown (w : world) (res : ndarray * ndarray) (w' : world) :
  measure_loop_det w = Some (res, w') ->
  grown w w' /\
  (length (heap w) < length (heap w'))%nat /\
  drawn w' = (drawn w + meas_sweeps (self w) *
               (time_steps (self w) * n_sites (self w)))%nat.
Proof. apply measure_loop_det_run. Qed.

(** The slow measurement of one sweep over one site and two slices draws
    twice and leaves more objects than it found. *)
Lemma measure_loop_det_grown_witness :
  exists res w',
    measure_loop_det w2 = Some (res, w') /\
    grown w2 w' /\
    (length (heap w2) < length (heap w'))%nat /\
    drawn w' = (drawn w2 + meas_sweeps (self w2) *
                 (time_steps (self w2) * n_sites (self w2)))%nat.
Proof.
  eassert (H : measure_loop_det w2 = Some (_, _)).
  { unfold measure_loop_det, measure_det_sweeps, w2, world_of, solver.
    drive. ev. reflexivity. }
  eexists _, _. split; [exact H|].
  exact (measure_loop_det_grown w2 _ _ H).
Defined.

(** ** The run *)

(** [run_lqmc] with [det_mode] off, run to its end. *)
Lemma run_fast (w : world) (c : Configuration.t)
    (res : ndarray * ndarray) (w' : world) :
  det_mode (self w) = false ->
  heap w !! config (self w) = Some c ->
  run_lqmc w = Some (res, w') ->
  in_place w w' /\
  drawn w' = (drawn w + (warm_sweeps (self w) + meas_sweeps (self w)) *
               (HubbardModel.n_sites (model (self w)) * Configuration.time_steps c))%nat.
Proof.
  intros Hm Hc H. unfold run_lqmc in H.
  bind_inv H. cbv [get_self] in E. injection E as <- <-. rewrite Hm in H.
  bind_inv H. destruct a.
  destruct (warmup_loop_from w w c _ (in_place_refl w) Hc E) as [Hw1 D1].
  destruct (measure_loop_from w _ c _ _ Hw1 Hc H) as [Hw2 D2].
  split; [exact Hw2|]. rewrite D2, D1. lia.
Qed.



(** ** The slow warm-up loop copies, flips and re-roots *)

Lemma rerooted_refl (w : world) (c : Configuration.t) :
  heap w !! config (self w) = Some c -> rerooted w w.
Proof.
  intros Hc. unfold rerooted. repeat split; auto.
  - now apply lookup_lt_Some in Hc.
  - intros j [->|Hj] Hlt; [reflexivity|lia].
Qed.

Lemma rerooted_calm {A} (c : M A) (w0 w : world) (a : A) (w' : world) :
  calm c -> c w = Some (a, w') -> rerooted w0 w ->
  rerooted w0 w' /\ drawn w' = drawn w /\ heap w' = heap w.
Proof.
  intros Hc H (Hs & Hd & Hl & Ho & Hp & Hv & Hsh).
  destruct (Hc _ _ _ H) as (Eh & Ed & En & Es).
  split; [|split; assumption].
  assert (Ec : config (self w') = config (self w)).
  { apply (f_equal config) in Es. exact Es. }
  unfold rerooted. rewrite Eh, Ed, Ec.
  repeat split; try assumption.
  rewrite <- Hs. unfold settled. now rewrite Es.
Qed.

Lemma rerooted_set_self (f : LatticeQMC -> LatticeQMC) (w0 w : world) :
  (forall o, settled (f o) = settled o) -> rerooted w0 w ->
  rerooted w0 (mkWorld (f (self w)) (heap w) (draws w) (drawn w)).
Proof.
  intros Hf (Hs & Hd & Hl & Ho & Hp & Hv & Hsh).
  assert (Ec : config (f (self w)) = config (self w)).
  { specialize (Hf (self w)). apply (f_equal config) in Hf. exact Hf. }
  unfold rerooted. cbn [self heap draws]. rewrite Ec.
  repeat split; try assumption. now rewrite Hf.
Qed.

Lemma rerooted_random_rand (w0 w : world) (r : R) (w' : world) :
  random_rand w = Some (r, w') -> rerooted w0 w ->
  rerooted w0 w' /\ drawn w' = S (drawn w) /\ heap w' = heap w.
Proof. intros [= _ <-] H. repeat split; apply H. Qed.

Lemma rerooted_config_update (i l : nat) (w0 w : world) (u : unit) (w' : world) :
  config_update i l w = Some (u, w') -> rerooted w0 w ->
  rerooted w0 w' /\ drawn w' = drawn w /\ length (heap w') = length (heap w).
Proof.
  intros [= _ <-] (Hs & Hd & Hl & Ho & Hp & Hv & Hsh).
  cbn [self heap draws drawn]. rewrite length_alter.
  split; [|split; reflexivity].
  unfold rerooted. cbn [self heap draws]. rewrite length_alter.
  repeat split; try assumption.
  - intros j Hj Hlt. rewrite list_lookup_alter_ne by (destruct Hp; lia). now apply Ho.
  - intros j Hj Hlt. destruct (decide (j = config (self w))) as [->|Hne].
    + rewrite list_lookup_alter_eq, <- (Hsh _ Hj Hlt).
      destruct (heap w !! config (self w)); cbn; [|reflexivity].
      now rewrite shape_flipped.
    + rewrite list_lookup_alter_ne by congruence. now apply Hsh.
Qed.

Lemma rerooted_config_copy (w0 w : world) (r : nat) (w' : world) :
  config_copy w = Some (r, w') -> rerooted w0 w ->
  rerooted w0 w' /\ drawn w' = drawn w /\
  r = length (heap w) /\ length (heap w') = S (length (heap w)).
Proof.
  intros H (Hs & Hd & Hl & Ho & Hp & Hv & Hsh).
  unfold config_copy in H.
  destruct (heap w !! config (self w)) as [c|] eqn:E; [|discriminate].
  injection H as <- <-. cbn [self heap draws drawn].
  rewrite length_app. cbn [length].
  split; [|repeat split; lia].
  unfold rerooted. cbn [self heap draws]. rewrite length_app. cbn [length].
  repeat split; try assumption; try lia.
  - intros j Hj Hlt. rewrite lookup_app_l by lia. now apply Ho.
  - intros j Hj Hlt. destruct (decide (j = length (heap w))) as [->|Hne].
    + rewrite lookup_app_r by lia. rewrite Nat.sub_diag. cbn.
      assert (Hq : config (self w) = config (self w0) \/
                   (length (heap w0) <= config (self w))%nat) by assumption.
      rewrite <- (Hsh _ Hq Hv), E. reflexivity.
    + rewrite lookup_app_l by lia. apply Hsh; [assumption|lia].
Qed.

Lemma rerooted_set_config (w0 w : world) (r : nat) :
  (length (heap w0) <= r)%nat -> (r < length (heap w))%nat -> rerooted w0 w ->
  rerooted w0 (mkWorld (set_config r (self w)) (heap w) (draws w) (drawn w)).
Proof.
  intros Hr1 Hr2 (Hs & Hd & Hl & Ho & Hp & Hv & Hsh).
  unfold rerooted. cbn [self heap draws].
  repeat split; try assumption.
  right. exact Hr1.
Qed.

(** What the loop bounds read is the same in a re-rooted world. *)
Lemma rerooted_bounds (w0 w : world) (c0 : Configuration.t) :
  rerooted w0 w -> heap w0 !! config (self w0) = Some c0 ->
  HubbardModel.n_sites (model (self w)) = HubbardModel.n_sites (model (self w0)) /\
  warm_sweeps (self w) = warm_sweeps (self w0) /\
  exists c, heap w !! config (self w) = Some c /\
            Configuration.time_steps c = Configuration.time_steps c0.
Proof.
  intros (Hs & Hd & Hl & Ho & Hp & Hv & Hsh) Hc0. split; [|split].
  - apply (f_equal model) in Hs. cbn in Hs. now rewrite Hs.
  - apply (f_equal warm_sweeps) in Hs. exact Hs.
  - specialize (Hsh _ Hp Hv). rewrite Hc0 in Hsh.
    destruct (heap w !! config (self w)) as [c|]; [|discriminate].
    exists c. split; [reflexivity|]. cbn in Hsh. injection Hsh as _ Ht _. exact Ht.
Qed.

Lemma calm_weight : calm weight.
Proof. unfold weight. repeat first [ apply calm_compute_m | calm_tac ]. Qed.

(** One pass of the slow warm-up loop: one draw; [old_config] names a
    copy made since the loop was entered. *)
Lemma warmup_det_step_rerooted (i l : nat) (vars : R * nat) (w0 w : world)
    (vars' : R * nat) (w' : world) :
  rerooted w0 w ->
  (length (heap w0) <= snd vars)%nat -> (snd vars < length (heap w))%nat ->
  warmup_det_step i l vars w = Some (vars', w') ->
  (rerooted w0 w' /\
   (length (heap w0) <= snd vars')%nat /\ (snd vars' < length (heap w'))%nat) /\
  drawn w' = S (drawn w).
Proof.
  intros Hw Hlo Hhi H. unfold warmup_det_step in H.
  bind_inv H. apply (rerooted_config_update _ _ _ _ _ _ E) in Hw as (Hw & D0 & L0).
  bind_inv H. apply (rerooted_calm _ _ _ _ _ calm_weight E0) in Hw as (Hw & D1 & L1).
  bind_inv H. apply (rerooted_random_rand _ _ _ _ E1) in Hw as (Hw & D2 & L2).
  assert (L : length (heap w6) = length (heap w)) by congruence.
  assert (D : drawn w6 = S (drawn w)) by congruence.
  destruct (Rlt_dec _ _).
  - bind_inv H. injection H as <- <-.
    apply (rerooted_config_copy _ _ _ _ E2) in Hw as (Hw & D3 & -> & L3).
    cbn [snd]. split; [split; [exact Hw|split; lia]|lia].
  - bind_inv H. injection H as <- <-. cbv [set_self] in E2. injection E2 as _ <-.
    cbn [snd heap drawn]. split; [split; [|split; lia]|lia].
    apply rerooted_set_config; [assumption|lia|assumption].
Qed.

(** [warmup_loop_det], run to its end. *)
Lemma warmup_loop_det_run (w : world) (c : Configuration.t) (w' : world) :
  heap w !! config (self w) = Some c ->
  warmup_loop_det w = Some (tt, w') ->
  rerooted w w' /\
  (length (heap w) < length (heap w'))%nat /\
  drawn w' = (drawn w + warm_sweeps (self w) *
               (HubbardModel.n_sites (model (self w)) * Configuration.time_steps c))%nat.
Proof.
  intros Hc H. unfold warmup_loop_det in H.
  bind_inv H. cbv [set_self] in E. injection E as _ <-.
  pose proof (rerooted_set_self (set_status "Warmup") w w (fun _ => eq_refl)
                (rerooted_refl w c Hc)) as Hw.
  bind_inv H. apply (rerooted_calm _ _ _ _ _ calm_weight E) in Hw as (Hw & D1 & L1).
  bind_inv H. apply (rerooted_config_copy _ _ _ _ E0) in Hw as (Hw & D2 & -> & L2).
  bind_inv H. cbv [get_self] in E1. injection E1 as <- <-.
  bind_inv H. injection H as <-.
  match goal with
  | Hg : loop_generator _ _ _ _ = Some _ |- _ => rename Hg into E2
  end.
  cbn [heap drawn] in *.
  destruct (rerooted_bounds _ _ _ Hw Hc) as (_ & Hm & _).
  rewrite Hm in E2.
  apply (loop_generator_draws
           (fun vars w1 => rerooted w w1 /\
              (length (heap w) <= snd vars)%nat /\ (snd vars < length (heap w1))%nat)
           (HubbardModel.n_sites (model (self w))) (Configuration.time_steps c))
    in E2.
  - destruct E2 as [(Hw' & Hlo & Hhi) ->]. cbn [snd] in *. rewrite L1 in *.
    split; [exact Hw'|]. split; lia.
  - intros vars w1 (H1 & _). destruct (rerooted_bounds _ _ _ H1 Hc) as (? & _ & ?).
    split; assumption.
  - intros sweep vars w1 (H1 & Hlo & Hhi). split; [|split; assumption].
    now apply rerooted_set_self.
  - intros sweep i l vars w1 vars' w2 (H1 & Hlo & Hhi) H2.
    apply (warmup_det_step_rerooted _ _ _ _ _ _ _ H1 Hlo Hhi H2).
  - cbn [snd]. split; [exact Hw|]. rewrite L2, L1. split; lia.
Qed.

(** X12.  The slow warm-up copies, flips and re-roots.  When
    [warmup_loop_det] returns, it has drawn one random number for every
    site and slice of every warm-up sweep,
    [warm_sweeps * n_sites * time_steps] in all; it has allocated at least
    the snapshot it starts with; the objects that existed before are where
    they were, and of these only the configuration [self.config] named may
    have been written; [self.config] names that configuration or one of
    the copies, which all have its sizes and the magnitudes of its
    values. *)
Theorem warmup_loop_det_rerooted (w : world) (c : Configuration.t) (w' : world) :
  heap w !! config (self w) = Some c ->
  warmup_loop_det w = Some (tt, w') ->
  rerooted w w' /\
  (length (heap w) < length (heap w'))%nat /\
  drawn w' = (drawn w + warm_sweeps (self w) *
               (HubbardModel.n_sites (model (self w)) * Configuration.time_steps c))%nat.
Proof. apply warmup_loop_det_run. Qed.

(** The slow warm-up of one sweep over one site and two slices draws
    twice and leaves more objects than it found. *)
Lemma warmup_loop_det_rerooted_witness :
  exists w',
    warmup_loop_det w2 = Some (tt, w') /\
    rerooted w2 w' /\
    (length (heap w2) < length (heap w'))%nat /\
    drawn w' = (drawn w2 + warm_sweeps (self w2) *
                 (HubbardModel.n_sites (model (self w2)) * 2))%nat.
Proof.
  eassert (H : warmup_loop_det w2 = Some (tt, _)).
  { unfold warmup_loop_det, loop_generator, w2, world_of, solver. drive. reflexivity. }
  eexists. split; [exact H|].
  exact (warmup_loop_det_rerooted w2 _ _ eq_refl H).
Defined.

(** [run_lqmc] with [det_mode] on, run to its end. *)
Lemma run_slow (w : world) (c : Configuration.t)
    (res : ndarray * ndarray) (w' : world) :
  det_mode (self w) = true ->
  heap w !! config (self w) = Some c ->
  run_lqmc w = Some (res, w') ->
  drawn w' = (drawn w
              + warm_sweeps (self w) *
                  (HubbardModel.n_sites (model (self w)) * Configuration.time_steps c)
              + meas_sweeps (self w) * (time_steps (self w) * n_sites (self w)))%nat /\
  draws w' = draws w /\
  (length (heap w) + 2 <= length (heap w'))%nat /\
  (forall j, j <> config (self w) -> (j < length (heap w))%nat ->
     heap w' !! j = heap w !! j).
Proof.
  intros Hm Hc H. unfold run_lqmc in H.
  bind_inv H. cbv [get_self] in E. injection E as <- <-. rewrite Hm in H.
  bind_inv H. destruct a.
  destruct (warmup_loop_det_run _ _ _ Hc E) as (Hr & L1 & D1).
  destruct (measure_loop_det_run _ _ _ H) as (Hg & L2 & D2).
  destruct Hr as (Hs & Hd & Hl & Ho & Hp & Hv & Hsh).
  destruct Hg as (Hs' & Hd' & Hl' & Ho' & _).
  assert (Hb : set_config 0 (settled (self w0)) = set_config 0 (settled (self w))) by exact Hs.
  repeat apply conj.
  - rewrite D2, D1. f_equal.
    apply (f_equal meas_sweeps) in Hb as E1. apply (f_equal time_steps) in Hb as E2.
    apply (f_equal n_sites) in Hb as E3. cbn in E1, E2, E3. now rewrite E1, E2, E3.
  - congruence.
  - lia.
  - intros j Hj Hlt. rewrite Ho' by (destruct Hp; lia). now apply Ho.
Qed.

(** X13.  A run in slow mode.  With [det_mode] on, [run_lqmc] is the
    slow warm-up followed by the slow measurement.  When it returns, the
    warm-up has drawn [warm_sweeps * n_sites * time_steps] random numbers
    with the sizes of the model and of the configuration, and the
    measurement [meas_sweeps * time_steps * n_sites] with the sizes the
    solver holds; at least two snapshots were allocated; the objects that
    existed before are where they were, and of these only the
    configuration [self.config] named may have been written. *)
Theorem run_lqmc_slow (w : world) (c : Configuration.t)
    (res : ndarray * ndarray) (w' : world) :
  det_mode (self w) = true ->
  heap w !! config (self w) = Some c ->
  run_lqmc w = Some (res, w') ->
  drawn w' = (drawn w
              + warm_sweeps (self w) *
                  (HubbardModel.n_sites (model (self w)) * Configuration.time_steps c)
              + meas_sweeps (self w) * (time_steps (self w) * n_sites (self w)))%nat /\
  draws w' = draws w /\
  (length (heap w) + 2 <= length (heap w'))%nat /\
  (forall j, j <> config (self w) -> (j < length (heap w))%nat ->
     heap w' !! j = heap w !! j).
Proof. apply run_slow. Qed.

(** One slow warm-up sweep and one slow measurement sweep over one site
    and two slices draw four numbers. *)
Lemma run_lqmc_slow_witness :
  exists res w',
    run_lqmc w2_det = Some (res, w') /\
    drawn w' = 4%nat /\ (3 <= length (heap w'))%nat.
Proof.
  eassert (H : run_lqmc w2_det = Some (_, _)).
  { unfold run_lqmc, warmup_loop_det, measure_loop_det, measure_det_sweeps,
      loop_generator, w2_det, world_of.
    drive. ev. reflexivity. }
  eexists _, _. split; [exact H|].
  destruct (run_lqmc_slow w2_det _ _ _ eq_refl eq_refl H) as (D & _ & L & _).
  split; [exact D|exact L].
Defined.

(** ** [mc_fast.py]: where [compute_m] is defined, and what the loops keep *)

Lemma times_b_fold_succeeds (expm : mat -> mat) (exp_k : mat) (c : Configuration.t)
    (lamb : R) (sigma : Z) (ls : list nat) (vb : mat * mat) :
  (forall l, In l ls -> (l < Configuration.time_steps c)%nat) ->
  is_Some (fold_left (fun acc l => mc_fast.times_b expm exp_k c lamb sigma l acc)
             ls (Some vb)).
Proof.
  revert vb. induction ls as [|l ls IH]; intros vb Hls; cbn [fold_left].
  - now exists vb.
  - unfold mc_fast.times_b at 2. cbn [mbind option_bind].
    unfold Configuration.column.
    assert (Hl : (l <? Configuration.time_steps c)%nat = true)
      by (apply Nat.ltb_lt, Hls; now left).
    rewrite Hl. cbn [mbind option_bind].
    apply IH. intros l' Hl'. apply Hls. now right.
Qed.

Lemma square_expm_diag (n : nat) (m : mat) : square n m -> square n (expm_diag m).
Proof.
  intros [Hl Hm]. unfold expm_diag. split; [now rewrite length_imap|].
  intros a b. rewrite <- (Hm a b). unfold get2, mat in *.
  rewrite list_lookup_imap. destruct (m !! a) as [r|]; cbn; [|reflexivity].
  rewrite list_lookup_imap. destruct (r !! b); cbn; split; intros [x Hx]; eauto; discriminate.
Qed.

(** X14.  [mc_fast.compute_m] and the slices.  On a configuration
    without a slice the read of the last column raises.  With one or more
    slices, a square [ham_kin], a configuration of as many sites and a
    matrix exponential that keeps the shape, every column it reads exists
    and it returns a matrix. *)
Theorem compute_m_defined (expm : mat -> mat) (ham_kin : mat) (c : Configuration.t)
    (lamb dtau : R) (sigma : Z) :
  (Configuration.n_t c = O -> mc_fast.compute_m expm ham_kin c lamb dtau sigma = None) /\
  ((1 <= Configuration.n_t c)%nat ->
   square (length ham_kin) ham_kin ->
   well_formed c -> Configuration.n_sites c = length ham_kin ->
   (forall m, square (length ham_kin) m -> square (length ham_kin) (expm m)) ->
   is_Some (mc_fast.compute_m expm ham_kin c lamb dtau sigma)).
Proof.
  unfold mc_fast.compute_m, Configuration.n_t, Configuration.column.
  destruct (Nat.ltb_spec (Configuration.time_steps c - 1) (Configuration.time_steps c))
    as [Hlt|Hge]; cbn [mbind option_bind].
  - split; [lia|]. intros _ _ _ _ _.
    match goal with
    | |- is_Some (mbind _ (fold_left ?f ?ls (Some ?vb))) =>
        destruct (times_b_fold_succeeds expm (expm (scale dtau ham_kin)) c lamb sigma ls vb)
          as [r Hr]
    end.
    + intros l Hl. apply in_rev, in_seq in Hl. lia.
    + unfold vec, mat in *. rewrite Hr. cbn [mbind option_bind]. eauto.
  - split; [reflexivity|lia].
Qed.

(** One site and one slice, with the exponential of diagonal matrices. *)
Lemma compute_m_defined_witness :
  is_Some (mc_fast.compute_m expm_diag [[ln 2]] (Configuration.mk 1 1 [[1%Z]])
             (ln 2) 1 1).
Proof.
  apply (proj2 (compute_m_defined expm_diag [[ln 2]] (Configuration.mk 1 1 [[1%Z]])
                  (ln 2) 1 1)).
  - cbn. lia.
  - square_tac.
  - split; [reflexivity|repeat constructor].
  - reflexivity.
  - intros m. apply square_expm_diag.
Defined.

(** The counterpart of [for_each_inv] for the loops of [mc_fast.py]. *)
Lemma fold_left_inv {A St} (I : St -> Prop) (mu : St -> nat) (k : nat) (xs : list A)
    (body : option St -> A -> option St) :
  (forall x, body None x = None) ->
  (forall x s s', I s -> body (Some s) x = Some s' -> I s' /\ mu s' = (mu s + k)%nat) ->
  forall s s', I s -> fold_left body xs (Some s) = Some s' ->
    I s' /\ mu s' = (mu s + length xs * k)%nat.
Proof.
  intros Hn Hb. induction xs as [|x xs IH]; intros s s' Hs H; cbn [fold_left] in H.
  - injection H as <-. split; [assumption|cbn; lia].
  - destruct (body (Some s) x) as [s1|] eqn:E.
    + destruct (Hb _ _ _ Hs E) as [Hs1 Hm]. destruct (IH _ _ Hs1 H) as [Hs' Hm'].
      split; [assumption|]. rewrite Hm', Hm. cbn [length]. lia.
    + exfalso. clear -Hn H. induction xs as [|y ys IH]; cbn in H; [discriminate|].
      rewrite Hn in H. auto.
Qed.

(** One pass of the loop of [warmup]: one draw, and at most a flip. *)
Lemma warmup_step_keeps (expm : mat -> mat) (ham_kin : mat) (lamb dtau : R)
    (draws : nat -> R) (il : nat * nat) (v v' : mc_fast.warm_vars) :
  mc_fast.warmup_step expm ham_kin lamb dtau draws il (Some v) = Some v' ->
  shape (mc_fast.wv_config v') = shape (mc_fast.wv_config v) /\
  mc_fast.wv_drawn v' = S (mc_fast.wv_drawn v).
Proof.
  unfold mc_fast.warmup_step. cbn [mbind option_bind].
  destruct (mc_fast.compute_m _ _ _ _ _ 1) as [m_up|]; [|discriminate].
  cbn [mbind option_bind].
  destruct (mc_fast.compute_m _ _ _ _ _ (-1)) as [m_dn|]; [|discriminate].
  cbn [mbind option_bind].
  destruct (inv m_up) as [inv_up|]; [|discriminate]. cbn [mbind option_bind].
  destruct (Configuration.get _ _ _) as [h|]; [|discriminate]. cbn [mbind option_bind].
  destruct (inv m_dn) as [inv_dn|]; [|discriminate]. cbn [mbind option_bind].
  destruct (Rlt_dec _ _); intros [= <-]; cbn; [rewrite shape_flipped|]; auto.
Qed.

(** X15.  [mc_fast.warmup] flips and draws.  When it returns, the
    configuration it hands back has the sizes of the one it was given and
    the magnitudes of its values, and the generator has advanced by one
    draw for every site and slice of every sweep,
    [sweeps * n_sites * n_t] in all. *)
Theorem warmup_flips_and_draws (expm : mat -> mat) (model : HubbardModel.t)
    (config : Configuration.t) (dtau lamb : R) (sweeps : nat)
    (draws : nat -> R) (drawn : nat) (config' : Configuration.t) (drawn' : nat) :
  mc_fast.warmup expm model config dtau lamb sweeps draws drawn = Some (config', drawn') ->
  shape config' = shape config /\
  drawn' = (drawn + sweeps * (HubbardModel.n_sites model * Configuration.n_t config))%nat.
Proof.
  unfold mc_fast.warmup. intros H.
  match type of H with
  | mbind _ ?o = _ => destruct o as [v|] eqn:E; [|discriminate]
  end.
  cbn [mbind option_bind] in H. injection H as <- <-.
  apply (fold_left_inv (fun s => shape (mc_fast.wv_config s) = shape config)
           mc_fast.wv_drawn
           (HubbardModel.n_sites model * Configuration.n_t config)) in E.
  - rewrite length_seq in E. exact E.
  - intros sweep. generalize (list_prod (seq 0 (HubbardModel.n_sites model))
                                (seq 0 (Configuration.n_t config))).
    induction l as [|il ils IH]; cbn; auto.
  - intros sweep s s' Hs Hs'.
    apply (fold_left_inv (fun s => shape (mc_fast.wv_config s) = shape config)
             mc_fast.wv_drawn 1) in Hs'.
    + rewrite length_list_prod, !length_seq in Hs'. destruct Hs' as [? ->].
      split; [assumption|lia].
    + reflexivity.
    + intros il s1 s2 H1 H2. apply warmup_step_keeps in H2 as [H2 ->].
      split; [congruence|lia].
    + exact Hs.
  - reflexivity.
Qed.

Lemma compute_m_one_slice_up :
  mc_fast.compute_m expm_diag [[ln 2]] (Configuration.mk 1 1 [[1%Z]]) (ln 2) 1 1
  = Some [[5]].
Proof. ev. by_entries. Qed.

Lemma compute_m_one_slice_dn :
  mc_fast.compute_m expm_diag [[ln 2]] (Configuration.mk 1 1 [[1%Z]]) (ln 2) 1 (-1)
  = Some [[2]].
Proof. ev. by_entries. Qed.

(** One sweep over one site and one slice with hopping [ln 2]: the ratio
    is [2/5 * 5/2 = 1], the draw [0.9] accepts, and one number is drawn. *)
Lemma warmup_flips_and_draws_witness :
  exists config' drawn',
    mc_fast.warmup expm_diag (HubbardModel.mk (2 * ln (5 / 4)) 1 [[ln 2]])
      (Configuration.mk 1 1 [[1%Z]]) 1 (ln 2) 1 (fun _ => 9 / 10) 0
    = Some (config', drawn') /\
    shape config' = shape (Configuration.mk 1 1 [[1%Z]]) /\
    drawn' = 1%nat.
Proof.
  eassert (H : mc_fast.warmup expm_diag (HubbardModel.mk (2 * ln (5 / 4)) 1 [[ln 2]])
                 (Configuration.mk 1 1 [[1%Z]]) 1 (ln 2) 1 (fun _ => 9 / 10) 0
               = Some (_, _)).
  { unfold mc_fast.warmup.
    cbn [fold_left seq list_prod map app HubbardModel.n_sites Configuration.n_t
         Configuration.time_steps HubbardModel.ham_kinetic].
    unfold mc_fast.warmup_step.
    cbn [mbind option_bind mc_fast.wv_config mc_fast.wv_drawn fst snd].
    rewrite compute_m_one_slice_up, compute_m_one_slice_dn. cbn [mbind option_bind].
    rewrite !inv_1x1 by lra. cbn [mbind option_bind].
    change (Configuration.get _ 0 0) with (Some 1%Z). cbn [mbind option_bind].
    decide_draw. cbn [mbind option_bind mc_fast.wv_config mc_fast.wv_drawn].
    reflexivity. }
  eexists _, _. split; [exact H|].
  exact (warmup_flips_and_draws _ _ _ _ _ _ _ _ _ _ H).
Defined.

(** One pass of the loop of [measure_gf]: one draw, and at most a flip. *)
Lemma measure_gf_step_keeps (expm : mat -> mat) (ham_kin : mat) (n : nat)
    (lamb dtau : R) (draws : nat -> R) (il : nat * nat) (v v' : mc_fast.gf_vars) :
  mc_fast.measure_gf_step expm ham_kin n lamb dtau draws il (Some v) = Some v' ->
  shape (mc_fast.config v') = shape (mc_fast.config v) /\
  mc_fast.drawn v' = S (mc_fast.drawn v).
Proof.
  unfold mc_fast.measure_gf_step. cbn [mbind option_bind].
  destruct (mc_fast.compute_m _ _ _ _ _ 1) as [m_up|]; [|discriminate].
  cbn [mbind option_bind].
  destruct (mc_fast.compute_m _ _ _ _ _ (-1)) as [m_dn|]; [|discriminate].
  cbn [mbind option_bind].
  destruct (inv m_up) as [inv_up|]; [|discriminate]. cbn [mbind option_bind].
  destruct (Configuration.get _ _ _) as [h|]; [|discriminate]. cbn [mbind option_bind].
  destruct (inv m_dn) as [inv_dn|]; [|discriminate]. cbn [mbind option_bind].
  destruct (Rlt_dec _ _); intros [= <-]; cbn; [rewrite shape_flipped|]; auto.
Qed.

(** X16.  [mc_fast.measure_gf] flips and draws.  When its loops end, the
    configuration has the sizes it had and the magnitudes of its values,
    and the generator has advanced by one draw for every pass, which is
    the count [number] the sums are divided by:
    [sweeps * n_sites * n_t]. *)
Theorem measure_gf_flips_and_draws (expm : mat -> mat) (model : HubbardModel.t)
    (config : Configuration.t) (dtau lamb : R) (sweeps : nat)
    (draws : nat -> R) (drawn : nat) (v : mc_fast.gf_vars) :
  mc_fast.measure_gf_sweeps expm model config dtau lamb sweeps draws drawn = Some v ->
  shape (mc_fast.config v) = shape config /\
  mc_fast.drawn v = (drawn + mc_fast.number v)%nat /\
  mc_fast.number v = (sweeps * (HubbardModel.n_sites model * Configuration.n_t config))%nat.
Proof.
  intros H. pose proof (measure_gf_sweeps_number _ _ _ _ _ _ _ _ _ H) as Hn.
  rewrite Hn. revert H. unfold mc_fast.measure_gf_sweeps.
  destruct (mc_fast.compute_m _ _ _ _ _ 1) as [m_up|]; [|discriminate].
  cbn [mbind option_bind].
  destruct (mc_fast.compute_m _ _ _ _ _ (-1)) as [m_dn|]; [|discriminate].
  cbn [mbind option_bind].
  destruct (inv m_up); [|discriminate]. cbn [mbind option_bind].
  destruct (inv m_dn); [|discriminate]. cbn [mbind option_bind].
  intros H.
  apply (fold_left_inv (fun s => shape (mc_fast.config s) = shape config)
           mc_fast.drawn
           (HubbardModel.n_sites model * Configuration.n_t config)) in H.
  - rewrite length_seq in H. destruct H as [Hs Hd]. cbn in Hd. auto.
  - intros sweep. generalize (list_prod (seq 0 (HubbardModel.n_sites model))
                                (seq 0 (Configuration.n_t config))).
    induction l as [|il ils IH]; cbn; auto.
  - intros sweep s s' Hs Hs'.
    apply (fold_left_inv (fun s => shape (mc_fast.config s) = shape config)
             mc_fast.drawn 1) in Hs'.
    + rewrite length_list_prod, !length_seq in Hs'. destruct Hs' as [? ->].
      split; [assumption|lia].
    + reflexivity.
    + intros il s1 s2 H1 H2. apply measure_gf_step_keeps in H2 as [H2 ->].
      split; [congruence|lia].
    + exact Hs.
  - reflexivity.
Qed.

(** One measurement sweep over one site and one slice with hopping [ln 2]:
    one number is drawn and [number] is one. *)
Lemma measure_gf_flips_and_draws_witness :
  exists v,
    mc_fast.measure_gf_sweeps expm_diag (HubbardModel.mk (2 * ln (5 / 4)) 1 [[ln 2]])
      (Configuration.mk 1 1 [[1%Z]]) 1 (ln 2) 1 (fun _ => 9 / 10) 0
    = Some v /\
    shape (mc_fast.config v) = shape (Configuration.mk 1 1 [[1%Z]]) /\
    mc_fast.drawn v = (0 + mc_fast.number v)%nat /\
    mc_fast.number v = 1%nat.
Proof.
  eassert (H : mc_fast.measure_gf_sweeps expm_diag
                 (HubbardModel.mk (2 * ln (5 / 4)) 1 [[ln 2]])
                 (Configuration.mk 1 1 [[1%Z]]) 1 (ln 2) 1 (fun _ => 9 / 10) 0
               = Some _).
  { unfold mc_fast.measure_gf_sweeps.
    cbn [HubbardModel.n_sites Configuration.n_t Configuration.time_steps
         HubbardModel.ham_kinetic].
    rewrite compute_m_one_slice_up, compute_m_one_slice_dn. cbn [mbind option_bind].
    rewrite !inv_1x1 by lra. cbn [mbind option_bind].
    cbn [fold_left seq list_prod map app].
    unfold mc_fast.measure_gf_step.
    cbn [mbind option_bind mc_fast.config mc_fast.drawn fst snd].
    rewrite compute_m_one_slice_up, compute_m_one_slice_dn. cbn [mbind option_bind].
    rewrite !inv_1x1 by lra. cbn [mbind option_bind].
    change (Configuration.get _ 0 0) with (Some 1%Z). cbn [mbind option_bind].
    decide_draw. reflexivity. }
  eexists. split; [exact H|].
  exact (measure_gf_flips_and_draws _ _ _ _ _ _ _ _ _ H).
Defined.

(** ** The rank-one update, entry by entry *)

Lemma nth_vscale (a : R) (u : vec) (j : nat) :
  nth j (vscale a u) 0 = a * nth j u 0.
Proof.
  unfold vscale. revert j. induction u as [|x u IH]; intros [|j]; cbn; try ring.
  apply IH.
Qed.

Lemma nth_vdiv (u : vec) (a : R) (j : nat) :
  nth j (vdiv u a) 0 = nth j u 0 / a.
Proof.
  unfold vdiv. revert j.
  induction u as [|x u IH]; intros [|j]; cbn; try (unfold Rdiv; ring).
  apply IH.
Qed.

Lemma nth_vadd (u v : vec) (j : nat) :
  (j < length u)%nat -> (j < length v)%nat ->
  nth j (vadd u v) 0 = nth j u 0 + nth j v 0.
Proof.
  unfold vadd. revert v j.
  induction u as [|x u IH]; intros [|y v] [|j] Hu Hv; cbn in *; try lia; try reflexivity.
  apply IH; lia.
Qed.

Lemma nth_vsub (u v : vec) (j : nat) :
  (j < length u)%nat -> (j < length v)%nat ->
  nth j (vsub u v) 0 = nth j u 0 - nth j v 0.
Proof.
  unfold vsub. revert v j.
  induction u as [|x u IH]; intros [|y v] [|j] Hu Hv; cbn in *; try lia; try reflexivity.
  apply IH; lia.
Qed.

Lemma length_vadd (u v : vec) : length (vadd u v) = Nat.min (length u) (length v).
Proof. unfold vadd. now rewrite length_map, length_combine. Qed.

Lemma nth_insert_repeat (n i j : nat) (x : R) :
  (i < n)%nat ->
  nth j (<[i := x]> (repeat 0 n)) 0 = if (i =? j)%nat then x else 0.
Proof.
  revert i j. induction n as [|n IH]; intros [|i] [|j] Hi; cbn; try lia; try reflexivity.
  - clear. revert j. induction n as [|n IH]; intros [|j]; cbn; auto.
  - apply IH. lia.
Qed.

Lemma nth_col (i k : nat) (A : mat) : nth k (col i A) 0 = entry k i A.
Proof.
  unfold col, entry, row. revert k.
  induction A as [|r A IH]; intros [|k]; cbn; try (destruct i; reflexivity).
  apply IH.
Qed.

Lemma entry_outer (b c : vec) (k j : nat) :
  entry k j (outer b c) = nth k b 0 * nth j c 0.
Proof.
  unfold entry, row, outer. revert k.
  induction b as [|x b IH]; intros [|k]; cbn.
  - destruct j; cbn; ring.
  - destruct j; cbn; ring.
  - clear. revert j. induction c as [|y c IH]; intros [|j]; cbn; try ring. apply IH.
  - apply IH.
Qed.

Lemma row_outer (b c : vec) (k : nat) :
  (k < length b)%nat -> length (row k (outer b c)) = length c.
Proof.
  unfold row, outer. revert k.
  induction b as [|x b IH]; intros [|k] Hk; cbn in *; try lia.
  - apply length_map.
  - apply IH. lia.
Qed.

Lemma entry_sub (A B : mat) (k j : nat) :
  (k < length A)%nat -> (k < length B)%nat ->
  (j < length (row k A))%nat -> (j < length (row k B))%nat ->
  entry k j (sub A B) = entry k j A - entry k j B.
Proof.
  unfold entry, row, sub. revert B k.
  induction A as [|r A IH]; intros [|s B] [|k] HA HB Hr Hs; cbn in *; try lia.
  - now apply nth_vsub.
  - apply IH; lia.
Qed.

(** The rows a square array has. *)
Lemma square_row (n : nat) (g : mat) (a : nat) :
  square n g -> (a < n)%nat ->
  (a < length g)%nat /\ length (row a g) = n.
Proof.
  intros [_ Hg] Ha. unfold indexed, get2 in Hg. unfold mat in *.
  pose proof (proj2 (Hg a a) (conj Ha Ha)) as Hx.
  destruct (g !! a) as [r|] eqn:Hr; [clear Hx|destruct Hx; discriminate].
  split; [now apply lookup_lt_Some in Hr|].
  unfold row. rewrite (nth_lookup_Some _ _ _ _ Hr).
  assert (Hb : forall b, is_Some (r !! b) <-> (b < n)%nat).
  { intros b. specialize (Hg a b). rewrite Hr in Hg. tauto. }
  destruct (Nat.lt_trichotomy (length r) n) as [H|[H|H]]; [|exact H|].
  - exfalso. assert (Hs : is_Some (r !! length r)) by (apply Hb; lia).
    apply lookup_lt_is_Some in Hs. lia.
  - exfalso. assert (Hs : is_Some (r !! n)) by (apply lookup_lt_is_Some; lia).
    apply Hb in Hs. lia.
Qed.

(** X17.  The rank-one update, entry by entry.  For an [n] by [n] array
    [g] and a site [i] below [n], the update that [measure_loop] and
    [measure_gf] apply to [g] on acceptance gives

      [g'[k,j] = g[k,j] - g[k,i] * delta * (1[i = j] - g[i,j]) / d]

    with the denominator [d = 1 + delta * (1 - g[i,i])], computed from the
    array [g] that is updated; on the diagonal at [i] this is [g[i,i] / d]
    when [d] is not zero. *)
Theorem rank_one_update_entries (n i : nat) (delta : R) (g : mat) :
  square n g -> (i < n)%nat ->
  let d := 1 + delta * (1 - entry i i g) in
  (forall k j, (k < n)%nat -> (j < n)%nat ->
     entry k j (rank_one_update n i delta g)
     = entry k j g
       - entry k i g * (delta * ((if (i =? j)%nat then 1 else 0) - entry i j g)) / d) /\
  (d <> 0 -> entry i i (rank_one_update n i delta g) = entry i i g / d).
Proof.
  intros Hg Hi d.
  assert (He : forall k j, (k < n)%nat -> (j < n)%nat ->
     entry k j (rank_one_update n i delta g)
     = entry k j g
       - entry k i g * (delta * ((if (i =? j)%nat then 1 else 0) - entry i j g)) / d).
  { intros k j Hk Hj. unfold rank_one_update.
    destruct (square_row _ _ _ Hg Hk) as [Hk1 Hk2].
    destruct (square_row _ _ _ Hg Hi) as [Hi1 Hi2].
    assert (Hc : length (vadd (vscale (-1 * delta) (row i g))
                           (<[i := delta]> (repeat 0 n))) = n).
    { rewrite length_vadd. unfold vscale. rewrite length_map, Hi2.
      rewrite length_insert, repeat_length. lia. }
    assert (Hn : forall j', (j' < n)%nat ->
              nth j' (vadd (vscale (-1 * delta) (row i g))
                        (<[i := delta]> (repeat 0 n))) 0
              = delta * ((if (i =? j')%nat then 1 else 0) - entry i j' g)).
    { intros j' Hj'. rewrite nth_vadd.
      - rewrite nth_vscale, nth_insert_repeat by exact Hi. unfold entry.
        destruct (i =? j')%nat; ring.
      - unfold vscale. rewrite length_map. lia.
      - rewrite length_insert, repeat_length. lia. }
    rewrite entry_sub.
    - rewrite entry_outer, nth_vdiv, nth_col, !Hn by assumption.
      rewrite Nat.eqb_refl. unfold d, Rdiv. ring.
    - exact Hk1.
    - unfold outer, vdiv, col. rewrite !length_map. exact Hk1.
    - lia.
    - rewrite row_outer; [lia|]. unfold vdiv, col. rewrite !length_map. exact Hk1. }
  split; [exact He|].
  intros Hd. rewrite He by exact Hi. rewrite Nat.eqb_refl. fold d. unfold d in *. field.
  exact Hd.
Qed.

(** On two sites with [g = 1/2] on the diagonal and [delta = 1] the
    denominator is [3/2] and the updated entry at the site is [1/3]. *)
Lemma rank_one_update_entries_witness :
  entry 0 0 (rank_one_update 2 0 1 [[1 / 2; 0]; [0; 1 / 2]])
  = (1 / 2) / (1 + 1 * (1 - 1 / 2)).
Proof.
  assert (Hsq : square 2 [[1 / 2; 0]; [0; 1 / 2]]) by square_tac.
  assert (Hlt : (0 < 2)%nat) by lia.
  apply (proj2 (rank_one_update_entries 2 0 1 [[1 / 2; 0]; [0; 1 / 2]] Hsq Hlt)).
  cbn. lra.
Defined.

(** ** The generator of [mc_fast.py] *)

Lemma flat_map_pairs (xs : list nat) (ys : list nat) :
  flat_map (fun i => map (fun l => (i, l)) ys) xs = list_prod xs ys.
Proof. induction xs as [|x xs IH]; cbn; [reflexivity|now rewrite IH]. Qed.

Lemma lookup_list_prod_seq (a n m i l : nat) :
  (i < n)%nat -> (l < m)%nat ->
  list_prod (seq a n) (seq 0 m) !! (i * m + l)%nat = Some ((a + i)%nat, l).
Proof.
  revert a i. induction n as [|n IH]; intros a [|i] Hi Hl; cbn [seq list_prod]; try lia.
  - rewrite lookup_app_l by (rewrite length_map, length_seq; cbn; lia).
    cbn [Nat.mul Nat.add]. rewrite list_lookup_fmap, lookup_seq_lt by lia.
    cbn. now rewrite Nat.add_0_r.
  - rewrite lookup_app_r by (rewrite length_map, length_seq; cbn; lia).
    rewrite length_map, length_seq.
    replace (S i * m + l - m)%nat with (i * m + l)%nat by (cbn; lia).
    rewrite IH by lia. f_equal. f_equal. lia.
Qed.

Lemma NoDup_list_prod {A B} (xs : list A) (ys : list B) :
  NoDup xs -> NoDup ys -> NoDup (list_prod xs ys).
Proof.
  intros Hx Hy. induction Hx as [|x xs Hin Hx IH]; cbn [list_prod]; [constructor|].
  apply NoDup_app. split; [|split; [|exact IH]].
  - apply (NoDup_fmap_2 _). exact Hy.
  - intros [a b] H1 H2. apply list_elem_of_fmap in H1 as (y & [= -> ->] & _).
    apply list_elem_of_In, in_prod_iff in H2 as [H2 _].
    apply Hin, list_elem_of_In, H2.
Qed.

(** X18.  [mc_loop] yields the pairs of [itertools.product] in its
    order, the one the loops of [warmup] and [measure_gf] run through:
    [n_sites * n_t] pairs, the pair [(i, l)] at position [i * n_t + l],
    none of them twice. *)
Theorem mc_loop_order (n_sites n_t : nat) :
  mc_fast.mc_loop n_sites n_t = list_prod (seq 0 n_sites) (seq 0 n_t) /\
  length (mc_fast.mc_loop n_sites n_t) = (n_sites * n_t)%nat /\
  NoDup (mc_fast.mc_loop n_sites n_t) /\
  forall i l, (i < n_sites)%nat -> (l < n_t)%nat ->
    mc_fast.mc_loop n_sites n_t !! (i * n_t + l)%nat = Some (i, l).
Proof.
  unfold mc_fast.mc_loop. rewrite flat_map_pairs. repeat apply conj.
  - reflexivity.
  - now rewrite length_list_prod, !length_seq.
  - apply NoDup_list_prod; apply NoDup_seq.
  - intros i l Hi Hl. now rewrite lookup_list_prod_seq.
Qed.

(** Two sites and three slices: the fifth pair is [(1, 1)]. *)
Lemma mc_loop_order_witness :
  mc_fast.mc_loop 2 3 !! (1 * 3 + 1)%nat = Some (1%nat, 1%nat).
Proof.
  apply (proj2 (proj2 (proj2 (mc_loop_order 2 3)))); lia.
Defined.

(** ** A run of a new solver *)

(** X19.  A run of a new solver.  Started on the solver that [__init__]
    builds, [run_lqmc] draws, when it returns,
    [(warmup + sweeps) * n_sites * time_steps] random numbers in either
    mode, with the number of sites of the model and the number of time
    steps the constructor was given; and the constructor has refused zero
    time steps. *)
Theorem fresh_run_draws (expm : mat -> mat) (model : HubbardModel.t) (beta : R)
    (time_steps warmup sweeps : nat) (det_mode : bool)
    (array : list (list Z)) (draws : nat -> R) (w : world)
    (res : ndarray * ndarray) (w' : world) :
  __init__ expm model beta time_steps warmup sweeps det_mode array draws = Built w ->
  run_lqmc w = Some (res, w') ->
  time_steps <> O /\
  drawn w' = ((warmup + sweeps) * (HubbardModel.n_sites model * time_steps))%nat.
Proof.
  unfold __init__. intros Hi Hr.
  destruct (Nat.eqb_spec time_steps 0) as [|Hts]; [discriminate|].
  destruct (coupling _ _); [|discriminate].
  split; [exact Hts|]. injection Hi as <-.
  destruct det_mode.
  - eapply run_slow in Hr as (Hd & _); [| reflexivity | reflexivity].
    rewrite Hd. cbn. lia.
  - eapply run_fast in Hr as (_ & Hd); [| reflexivity | reflexivity].
    rewrite Hd. cbn. lia.
Qed.

(** The solver of one site and two slices, built and run for one warm-up
    and one measurement sweep in fast mode, draws four numbers. *)
Lemma fresh_run_draws_witness :
  exists res w',
    run_lqmc w2 = Some (res, w') /\
    (2 <> 0)%nat /\
    drawn w' = ((1 + 1) * (1 * 2))%nat.
Proof.
  eassert (H : run_lqmc w2 = Some (_, _)).
  { unfold run_lqmc, warmup_loop, measure_loop, measure_sweeps, loop_generator,
      w2, world_of, solver.
    drive. ev. reflexivity. }
  eexists _, _. split; [exact H|].
  exact (fresh_run_draws _ _ _ _ _ _ _ _ _ _ _ _ init_w2 H).
Defined.

(** ** The rollback of the slow measurement loop *)

Lemma calm_compute_m_cyclic (l : nat) : calm (_compute_m_cyclic l).
Proof. unfold _compute_m_cyclic. repeat first [ apply calm_m_cyclic | calm_tac ]. Qed.

(** X20.  A pass of the loop of [measure_loop_det] rolls a rejected flip
    back.  The pass flips the field at [(i, l)], computes the matrices
    [m] of [_compute_m_cyclic(l)] for the flipped configuration and from
    them [new = det(m_up) * det(m_dn)], and draws [r].  When [r] is not
    below [new / old], the second [config.update(i, l)] undoes the first:
    every configuration is as the pass found it, and [old], [old_config]
    and the Green's functions are unchanged.  When [r] is below
    [new / old], the flip stays, [old] becomes [new], the slices [l] of
    the Green's functions become the inverses of [m], and the snapshot
    [old_config] is a new last object holding the flipped configuration.
    In both cases [self.config] is not assigned, one number is drawn and
    [number] grows by one. *)
Theorem measure_det_step_rollback (l i : nat) (v : det_vars) (w : world)
    (c : Configuration.t) (v' : det_vars) (w' : world) :
  heap w !! config (self w) = Some c ->
  measure_det_step l i v w = Some (v', w') ->
  exists m w1,
    (_ <- config_update i l ;; _compute_m_cyclic l) w = Some (m, w1) /\
    let new := det (fst m) * det (snd m) in
    let r := draws w (drawn w) in
    config (self w') = config (self w) /\
    drawn w' = S (drawn w) /\
    dv_number v' = S (dv_number v) /\
    (~ r < new / dv_old v ->
       heap w' = heap w /\
       dv_old v' = dv_old v /\ dv_old_config v' = dv_old_config v /\
       dv_g_up v' = dv_g_up v /\ dv_g_dn v' = dv_g_dn v) /\
    (r < new / dv_old v ->
       heap w' = alter (fun c => Configuration.flipped c i l) (config (self w)) (heap w)
                 ++ [Configuration.flipped c i l] /\
       dv_old v' = new /\ dv_old_config v' = length (heap w) /\
       exists inv_up inv_dn,
         inv (fst m) = Some inv_up /\ inv (snd m) = Some inv_dn /\
         dv_g_up v' = <[l := inv_up]> (dv_g_up v) /\
         dv_g_dn v' = <[l := inv_dn]> (dv_g_dn v)).
Proof.
  unfold measure_det_step. intros Hc H.
  bind_inv H. injection E as <- <-.
  bind_inv H.
  match goal with
  | Hm : _compute_m_cyclic _ _ = Some (?m0, ?w0) |- _ =>
      rename Hm into Em; rename m0 into m; rename w0 into w1
  end.
  destruct (calm_compute_m_cyclic l _ _ _ Em) as (Hh & Hd & Hn & He).
  assert (Hp : config (self w1) = config (self w)).
  { apply (f_equal config) in He. exact He. }
  cbn [heap draws drawn self] in Hh, Hd, Hn.
  exists m, w1. split; [exact Em|]. cbv zeta.
  bind_inv H. injection E as <- <-.
  bind_inv H. injection H as <- <-.
  rewrite Hd, Hn in E.
  destruct (Rlt_dec _ _) as [Hr|Hr].
  - bind_inv E. bind_inv E.
    destruct (inv (fst m)) as [inv_up|] eqn:Eup; [|discriminate].
    destruct (inv (snd m)) as [inv_dn|] eqn:Edn; [|discriminate].
    injection E0 as <- <-. injection E1 as <- <-.
    bind_inv E. injection E as <- <-.
    match goal with Hcopy : config_copy ?w = Some _ |- _ =>
      unfold config_copy in Hcopy;
      assert (Hl : heap w !! config (self w) = Some (Configuration.flipped c i l))
        by (cbn [heap self]; rewrite Hh, Hp, list_lookup_alter_eq, Hc; reflexivity);
      rewrite Hl in Hcopy; injection Hcopy as <- <-
    end.
    cbn [heap self drawn dv_number dv_old dv_old_config dv_g_up dv_g_dn].
    split; [exact Hp|]. split; [first [reflexivity | now rewrite Hn]|]. split; [reflexivity|].
    split; [intros Hn'; contradiction|]. intros _.
    rewrite Hh, length_alter. repeat split. exists inv_up, inv_dn. repeat split.
  - bind_inv E. injection E as <- <-. injection E0 as <- <-.
    cbn [heap self drawn dv_number dv_old dv_old_config dv_g_up dv_g_dn].
    split; [exact Hp|]. split; [first [reflexivity | now rewrite Hn]|]. split; [reflexivity|].
    split; [|intros Hr'; contradiction]. intros _.
    split; [|repeat split].
    rewrite Hp, Hh, alter_alter. apply list_alter_id.
    intros c0. apply flipped_flipped.
Qed.

(** One site and two slices with fields [+1, +1], [old = 25/4]: the flip
    at slice 1 gives [new = 4], the draw [0.9] is not below [16/25], and
    the pass leaves the configurations as it found them. *)
Lemma measure_det_step_rollback_witness :
  exists v' w',
    measure_det_step 1 0 (mkDetVars (25 / 4) 0 [] [] [] [] 0) w2 = Some (v', w') /\
    heap w' = heap w2 /\ dv_old v' = 25 / 4 /\ drawn w' = 1%nat.
Proof.
  eassert (H : measure_det_step 1 0 (mkDetVars (25 / 4) 0 [] [] [] [] 0) w2
               = Some (_, _)).
  { unfold measure_det_step, w2, world_of, solver. drive. reflexivity. }
  eexists _, _. split; [exact H|].
  destruct (measure_det_step_rollback 1 0 _ w2 _ _ _ eq_refl H)
    as (m & w1 & Em & _ & Hd & _ & Hrej & _).
  assert (Hv : option_map (fun x => det (fst (fst x)) * det (snd (fst x)))
                 ((_ <- config_update 0 1 ;; _compute_m_cyclic 1) w2) = Some 4).
  { unfold w2, world_of, solver. run. ev. by_entries. }
  rewrite Em in Hv. cbn [option_map fst snd] in Hv. injection Hv as Hm.
  destruct Hrej as (Hh & Ho & _).
  { rewrite Hm. cbn. lra. }
  split; [exact Hh|]. split; [exact Ho|exact Hd].
Defined.
